(** * Audio routing engine of jitsi-meet-ba: model and verification

    Shallow embedding of [react/features/base/media/audioContext.ts] (the
    variant with mode switching and a tracked-source set) and of the toolbox
    middleware handler [_handleSoundOptionChange].

    The module-level variables of the TypeScript file become the fields of a
    [State] record, together with the part of the Web Audio platform the code
    acts on: the connection graph, the trace of platform calls and the
    logger/console output.  Functions that can throw live in a small
    state-and-exception monad [M]; a [try]/[catch] block is [try_catch].

    Numbers are JavaScript numbers whose finite values are taken as
    rationals.  The pan AudioParam holds single precision numbers: what is
    written to it is rounded as [Math.fround] rounds. *)

From Stdlib Require Import QArith Qminmax Qabs Sorted.
From stdpp Require Import gmap strings list.

Local Open Scope string_scope.
Local Close Scope Q_scope.
Local Set Warnings "-clear-no-such-hyp".

(** ** JavaScript numbers *)

Inductive jsnum :=
| Fin (q : Q)
| PosInf
| NegInf
| NaN.

(** [Math.min] and [Math.max] on two arguments: NaN is contagious, the
    infinities are the extremes, finite values compare as rationals. *)
Definition Math_min (a b : jsnum) : jsnum :=
  match a, b with
  | NaN, _ | _, NaN => NaN
  | NegInf, _ | _, NegInf => NegInf
  | PosInf, x => x
  | x, PosInf => x
  | Fin x, Fin y => if Qle_bool x y then Fin x else Fin y
  end.

Definition Math_max (a b : jsnum) : jsnum :=
  match a, b with
  | NaN, _ | _, NaN => NaN
  | PosInf, _ | _, PosInf => PosInf
  | NegInf, x => x
  | x, NegInf => x
  | Fin x, Fin y => if Qle_bool y x then Fin x else Fin y
  end.

(** [Math.max(-1, Math.min(1, panValue))] *)
Definition clamp (panValue : jsnum) : jsnum :=
  Math_max (Fin (-1)) (Math_min (Fin 1) panValue).

(** *** Single precision

    The attribute [value] of an AudioParam and the first argument of
    [setValueAtTime] have the Web IDL type [float]: a number handed over is
    converted to the nearest single precision number, a tie going to the
    one with the even significand.  Zero has no sign here. *)

(** The integer nearest to [n / d], a tie going to the even one. *)
Definition round_half_even (n : Z) (d : positive) : Z :=
  let f := (n / Zpos d)%Z in
  match (2 * (n mod Zpos d) ?= Zpos d)%Z with
  | Lt => f
  | Gt => (f + 1)%Z
  | Eq => if Z.even f then f else (f + 1)%Z
  end.

(** [floor (log2 (n / d))] for [n > 0]. *)
Definition floor_log2 (n : Z) (d : positive) : Z :=
  let e := (Z.log2 n - Z.log2 (Zpos d))%Z in
  let below :=
    if (0 <=? e)%Z then (n <? Zpos d * 2 ^ e)%Z
    else (n * 2 ^ (- e) <? Zpos d)%Z in
  if below then (e - 1)%Z else e.

(** The positive rational [n / d] in single precision: 24 significant bits,
    the last of them worth [2 ^ u], and no exponent below -126; from
    [2 ^ 128] on the result is infinite. *)
Definition fround_pos (n : Z) (d : positive) : jsnum :=
  let e := floor_log2 n d in
  let u := (Z.max e (-126) - 23)%Z in
  if (0 <=? u)%Z
  then
    let m := round_half_even n (d * Z.to_pos (2 ^ u)) in
    if (2 ^ 128 <=? m * 2 ^ u)%Z then PosInf else Fin (inject_Z (m * 2 ^ u))
  else
    let m := round_half_even (n * 2 ^ (- u)) d in
    Fin (Qred (Qmake m (Z.to_pos (2 ^ (- u))))).

Definition js_neg (x : jsnum) : jsnum :=
  match x with
  | Fin q => Fin (- q)
  | PosInf => NegInf
  | NegInf => PosInf
  | NaN => NaN
  end.

(** [Math.fround(x)] *)
Definition Math_fround (x : jsnum) : jsnum :=
  match x with
  | Fin q =>
      match Qnum q with
      | Z0 => Fin 0
      | Zpos n => fround_pos (Zpos n) (Qden q)
      | Zneg n => js_neg (fround_pos (Zpos n) (Qden q))
      end
  | _ => x
  end.

(** Truthiness of an optional number, for [when || 'sofort']. *)
Definition truthy (x : option jsnum) : bool :=
  match x with
  | None => false
  | Some NaN => false
  | Some (Fin q) => negb (Qeq_bool q 0)
  | Some _ => true
  end.

(** ** Audio nodes and the platform *)

(** A source node is an opaque reference; references are compared by
    identity, which a natural number stands for. *)
Definition Source := nat.

Inductive Node :=
| Src (s : Source)
| Panner
| Destination.

#[global] Instance Node_eq_dec : EqDecision Node.
Proof. solve_decision. Defined.

Definition Node_to_sum (n : Node) : nat + bool :=
  match n with
  | Src s => inl s
  | Panner => inr true
  | Destination => inr false
  end.

Definition Node_of_sum (x : nat + bool) : Node :=
  match x with
  | inl s => Src s
  | inr true => Panner
  | inr false => Destination
  end.

#[global] Instance Node_countable : Countable Node.
Proof.
  apply (inj_countable' Node_to_sum Node_of_sum).
  intros []; reflexivity.
Defined.

(** The calls the module makes into the Web Audio platform. *)
Inductive PrimCall :=
| NewAudioContext                       (* new AudioContext() *)
| CreateStereoPanner                    (* context.createStereoPanner() *)
| PanSetValue (x : jsnum)               (* pan.value = x *)
| PanSetValueAtTime (x t : jsnum)       (* pan.setValueAtTime(x, t) *)
| Connect (a b : Node)                  (* a.connect(b) *)
| Disconnect (a : Node).                (* a.disconnect() *)

(** An exception is the one raised by the platform call that failed. *)
Inductive Error :=
| Thrown (c : PrimCall).

(** The platform decides which calls throw; it may answer differently over
    time, so it is asked with the number of platform calls made so far. *)
Definition Platform := nat -> PrimCall -> bool.

(** A platform on which nothing ever throws. *)
Definition reliable : Platform := fun _ _ => false.

Inductive AudioContext := TheAudioContext.

(** The pan AudioParam: its current value and the scheduled changes
    (value, time) in the order they were scheduled. *)
Record AudioParam := {
  param_value : jsnum;
  param_events : list (jsnum * jsnum)
}.

Record StereoPannerNode := {
  pan : AudioParam
}.

(** A StereoPannerNode as the platform creates it: pan 0, nothing scheduled. *)
Definition fresh_panner : StereoPannerNode :=
  {| pan := {| param_value := Fin 0; param_events := [] |} |}.

(** ** Logging *)

Inductive Level := LInfo | LWarn | LError | LDebug.

Inductive Payload :=
| PNone
| PError (e : Error)
| PText (s : string)
| PFromTo (from to : string)
| PPan (panValue : jsnum)
| PPanWhen (panValue : jsnum) (when : option jsnum).

Record LogEntry := {
  level : Level;
  message : string;
  payload : Payload
}.

(** ** Module state *)

Record State := {
  audioContext : option AudioContext;
  stereoPannerNode : option StereoPannerNode;
  currentAudioMode : string;
  (* Set<AudioNode>: insertion ordered, no element twice *)
  connectedSources : list Source;
  (* the platform's connections, an edge per a.connect(b) in force *)
  graph : gset (Node * Node);
  (* platform calls made so far, oldest first *)
  calls : list PrimCall;
  (* what the logger received, oldest first *)
  log : list LogEntry;
  (* what console.log received, oldest first *)
  console : list string
}.

Definition initial_state : State :=
  {| audioContext := None;
     stereoPannerNode := None;
     currentAudioMode := "default";
     connectedSources := [];
     graph := ∅;
     calls := [];
     log := [];
     console := [] |}.

Definition set_audioContext (x : option AudioContext) (st : State) : State :=
  {| audioContext := x; stereoPannerNode := stereoPannerNode st;
     currentAudioMode := currentAudioMode st;
     connectedSources := connectedSources st; graph := graph st;
     calls := calls st; log := log st; console := console st |}.

Definition set_stereoPannerNode (x : option StereoPannerNode) (st : State) : State :=
  {| audioContext := audioContext st; stereoPannerNode := x;
     currentAudioMode := currentAudioMode st;
     connectedSources := connectedSources st; graph := graph st;
     calls := calls st; log := log st; console := console st |}.

Definition set_currentAudioMode (x : string) (st : State) : State :=
  {| audioContext := audioContext st; stereoPannerNode := stereoPannerNode st;
     currentAudioMode := x;
     connectedSources := connectedSources st; graph := graph st;
     calls := calls st; log := log st; console := console st |}.

Definition set_connectedSources (x : list Source) (st : State) : State :=
  {| audioContext := audioContext st; stereoPannerNode := stereoPannerNode st;
     currentAudioMode := currentAudioMode st;
     connectedSources := x; graph := graph st;
     calls := calls st; log := log st; console := console st |}.

Definition set_graph (x : gset (Node * Node)) (st : State) : State :=
  {| audioContext := audioContext st; stereoPannerNode := stereoPannerNode st;
     currentAudioMode := currentAudioMode st;
     connectedSources := connectedSources st; graph := x;
     calls := calls st; log := log st; console := console st |}.

Definition set_calls (x : list PrimCall) (st : State) : State :=
  {| audioContext := audioContext st; stereoPannerNode := stereoPannerNode st;
     currentAudioMode := currentAudioMode st;
     connectedSources := connectedSources st; graph := graph st;
     calls := x; log := log st; console := console st |}.

Definition set_log (x : list LogEntry) (st : State) : State :=
  {| audioContext := audioContext st; stereoPannerNode := stereoPannerNode st;
     currentAudioMode := currentAudioMode st;
     connectedSources := connectedSources st; graph := graph st;
     calls := calls st; log := x; console := console st |}.

Definition set_console (x : list string) (st : State) : State :=
  {| audioContext := audioContext st; stereoPannerNode := stereoPannerNode st;
     currentAudioMode := currentAudioMode st;
     connectedSources := connectedSources st; graph := graph st;
     calls := calls st; log := log st; console := x |}.

(** ** The state-and-exception monad *)

Inductive Result (A : Type) :=
| Ok (a : A)
| Throw (e : Error).

Arguments Ok {A} a.
Arguments Throw {A} e.

Definition M (A : Type) : Type := State -> Result A * State.

Definition ret {A} (a : A) : M A := fun st => (Ok a, st).

Definition bind {A B} (m : M A) (k : A -> M B) : M B :=
  fun st =>
    match m st with
    | (Ok a, st') => k a st'
    | (Throw e, st') => (Throw e, st')
    end.

Definition throw {A} (e : Error) : M A := fun st => (Throw e, st).

(** [try { m } catch (error) { h error }]: what [m] did to the state before
    it threw stays done. *)
Definition try_catch {A} (m : M A) (h : Error -> M A) : M A :=
  fun st =>
    match m st with
    | (Ok a, st') => (Ok a, st')
    | (Throw e, st') => h e st'
    end.

(** Run [k] on the current state. *)
Definition reading {A} (k : State -> M A) : M A := fun st => k st st.

Definition modify (f : State -> State) : M unit := fun st => (Ok tt, f st).

Notation "m1 >> m2" := (bind m1 (fun _ => m2))
  (at level 60, right associativity).

(** [x.forEach(cb)] over a snapshot of the elements, in insertion order.
    The callbacks of this module never change the set they iterate over
    (lemma [reconnect_cb_sources]), so the snapshot is the live set. *)
Fixpoint forEach (l : list Source) (cb : Source -> M unit) : M unit :=
  match l with
  | [] => ret tt
  | s :: l' => cb s >> forEach l' cb
  end.

(** [set.add(x)] *)
Definition Set_add (x : Source) (l : list Source) : list Source :=
  if decide (x ∈ l) then l else l ++ [x].

(** ** The program *)

Section Program.

Variable P : Platform.

(** A platform call: it is recorded, then it either throws, leaving the
    platform as it was, or returns with its effect done. *)
Definition prim (c : PrimCall) (effect : State -> State) : M unit :=
  fun st =>
    let st1 := set_calls (calls st ++ [c]) st in
    if P (length (calls st)) c
    then (Throw (Thrown c), st1)
    else (Ok tt, effect st1).

Definition logger (lv : Level) (msg : string) (p : Payload) : M unit :=
  modify (fun st =>
    set_log (log st ++ [{| level := lv; message := msg; payload := p |}]) st).

Definition console_log (line : string) : M unit :=
  modify (fun st => set_console (console st ++ [line]) st).

(** [a.connect(b)] adds the edge; connecting twice is the same edge. *)
Definition connect (a b : Node) : M unit :=
  prim (Connect a b) (fun st => set_graph (graph st ∪ {[ (a, b) ]}) st).

(** [a.disconnect()] removes every outgoing edge of [a]. *)
Definition disconnect (a : Node) : M unit :=
  prim (Disconnect a)
       (fun st => set_graph (filter (fun e => e.1 ≠ a) (graph st)) st).

(** [getAudioContext()].  The properties of the context that the success
    message prints and the statechange listener are platform data the module
    never reads back; they are left out. *)
Definition getAudioContext : M unit :=
  reading (fun st =>
    match audioContext st with
    | Some _ => ret tt
    | None =>
        try_catch
          (prim NewAudioContext (set_audioContext (Some TheAudioContext)) >>
           logger LInfo "AudioContext erfolgreich erstellt" PNone)
          (fun error =>
             logger LError "Fehler beim Erstellen des AudioContext:" (PError error) >>
             throw error)
    end).

Definition pan_value_of (st : State) : jsnum :=
  match stereoPannerNode st with
  | Some n => param_value (pan n)
  | None => Fin 0
  end.

(** [stereoPannerNode.pan.value = x]: the node keeps [x] in single
    precision. *)
Definition pan_set_value (x : jsnum) : M unit :=
  prim (PanSetValue x)
       (fun st =>
          match stereoPannerNode st with
          | Some n =>
              set_stereoPannerNode
                (Some {| pan := {| param_value := Math_fround x;
                                   param_events := param_events (pan n) |} |}) st
          | None => st
          end).

(** [pannerNode.pan.setValueAtTime(x, t)]: the value is a [float], the
    time a [double]. *)
Definition pan_setValueAtTime (x t : jsnum) : M unit :=
  prim (PanSetValueAtTime x t)
       (fun st =>
          match stereoPannerNode st with
          | Some n =>
              set_stereoPannerNode
                (Some {| pan := {| param_value := param_value (pan n);
                                   param_events :=
                                     param_events (pan n) ++ [(Math_fround x, t)] |} |}) st
          | None => st
          end).

(** [getStereoPannerNode(panValue = 0)] *)
Definition getStereoPannerNode (panValue : jsnum) : M unit :=
  getAudioContext >>
  reading (fun st =>
    match stereoPannerNode st with
    | Some _ => ret tt
    | None =>
        try_catch
          (prim CreateStereoPanner (set_stereoPannerNode (Some fresh_panner)) >>
           pan_set_value (clamp panValue) >>
           reading (fun st' =>
             logger LInfo "StereoPannerNode erfolgreich erstellt"
                    (PPan (pan_value_of st'))))
          (fun error =>
             logger LError "Fehler beim Erstellen der StereoPannerNode:" (PError error) >>
             throw error)
    end).

(** [setPanValue(panValue, when?)] *)
Definition setPanValue (panValue : jsnum) (when : option jsnum) : M unit :=
  getStereoPannerNode (Fin 0) >>
  let clampedPanValue := clamp panValue in
  try_catch
    (match when with
     | Some t => pan_setValueAtTime clampedPanValue t
     | None => pan_set_value clampedPanValue
     end >>
     logger LDebug "Pan-Wert gesetzt:"
            (PPanWhen clampedPanValue (if truthy when then when else None)))
    (fun error =>
       logger LError "Fehler beim Setzen des Pan-Werts:" (PError error) >>
       throw error).

(** [connectAudioThroughStereoPanner(sourceNode, panValue = 0)] *)
Definition connectAudioThroughStereoPanner (sourceNode : Source) (panValue : jsnum) : M unit :=
  getAudioContext >>
  getStereoPannerNode panValue >>
  try_catch
    (connect (Src sourceNode) Panner >>
     connect Panner Destination >>
     modify (fun st => set_connectedSources (Set_add sourceNode (connectedSources st)) st) >>
     reading (fun st =>
       logger LInfo "Audio erfolgreich durch StereoPannerNode geroutet"
              (PPan (pan_value_of st))))
    (fun error =>
       logger LError "Fehler beim Routing durch StereoPannerNode:" (PError error) >>
       throw error).

(** [disconnectStereoPanner()] *)
Definition disconnectStereoPanner : M unit :=
  reading (fun st =>
    match stereoPannerNode st with
    | Some _ =>
        try_catch
          (disconnect Panner >>
           logger LInfo "StereoPannerNode Verbindungen getrennt" PNone)
          (fun error =>
             logger LError "Fehler beim Trennen der StereoPannerNode:" (PError error))
    | None => ret tt
    end).

(** [getCurrentPanValue()] *)
Definition getCurrentPanValue (st : State) : jsnum :=
  match stereoPannerNode st with
  | Some n => param_value (pan n)
  | None => Fin 0
  end.

(** [getCurrentAudioMode()] *)
Definition getCurrentAudioMode (st : State) : string := currentAudioMode st.

(** The callback of the loop in [_disconnectAllSources]. *)
Definition disconnect_cb (source : Source) : M unit :=
  try_catch
    (disconnect (Src source))
    (fun error =>
       logger LWarn "Fehler beim Trennen einer Audio-Quelle:" (PError error)).

(** [_disconnectAllSources()] *)
Definition _disconnectAllSources : M unit :=
  reading (fun st => forEach (connectedSources st) disconnect_cb) >>
  disconnectStereoPanner.

(** The callback of the loop in [_reconnectSourcesWithMode]. *)
Definition reconnect_cb (mode : string) (source : Source) : M unit :=
  try_catch
    (if String.eqb mode "stereopanner"
     then connectAudioThroughStereoPanner source (Fin 0)
     else connect (Src source) Destination)
    (fun error =>
       logger LWarn "Fehler beim Neuverbinden einer Audio-Quelle:" (PError error)).

(** [_reconnectSourcesWithMode(mode)] *)
Definition _reconnectSourcesWithMode (mode : string) : M unit :=
  getAudioContext >>
  reading (fun st => forEach (connectedSources st) (reconnect_cb mode)).

(** [setAudioMode(mode)] *)
Definition setAudioMode (mode : string) : M unit :=
  reading (fun st =>
    logger LInfo "Audio-Modus wird geändert:" (PFromTo (currentAudioMode st) mode)) >>
  try_catch
    (_disconnectAllSources >>
     modify (set_currentAudioMode mode) >>
     _reconnectSourcesWithMode mode >>
     logger LInfo "Audio-Modus erfolgreich geändert:" (PText mode))
    (fun error =>
       logger LError "Fehler beim Ändern des Audio-Modus:" (PError error) >>
       throw error).

(** [connectAudioSource(sourceNode)] *)
Definition connectAudioSource (sourceNode : Source) : M unit :=
  getAudioContext >>
  try_catch
    (modify (fun st => set_connectedSources (Set_add sourceNode (connectedSources st)) st) >>
     reading (fun st =>
       if String.eqb (currentAudioMode st) "stereopanner"
       then connectAudioThroughStereoPanner sourceNode (Fin 0)
       else
         connect (Src sourceNode) Destination >>
         logger LInfo "Audio direkt zum Destination geroutet (Default-Modus)" PNone))
    (fun error =>
       logger LError "Fehler beim Verbinden der Audio-Quelle:" (PError error) >>
       throw error).

(** [initAudioContext()] *)
Definition initAudioContext : M unit :=
  logger LInfo "AudioContext wird initialisiert..." PNone >>
  getAudioContext >>
  logger LInfo "AudioContext Initialisierung abgeschlossen" PNone.

(** [_handleSoundOptionChange(store, soundOption)] of the toolbox
    middleware; the store is not used by the function. *)
Definition _handleSoundOptionChange (soundOption : string) : M unit :=
  reading (fun st =>
    logger LInfo "Sound-Option wird geändert:"
           (PFromTo (getCurrentAudioMode st) soundOption)) >>
  try_catch
    (setAudioMode soundOption >>
     console_log ("Audio mode changed to: " ++ soundOption) >>
     if String.eqb soundOption "default" then
       logger LInfo "Default Audio-Modus aktiviert - keine speziellen Effekte" PNone
     else if String.eqb soundOption "stereopanner" then
       logger LInfo "StereoPanner Audio-Modus aktiviert" PNone
     else if String.eqb soundOption "equalpower" then
       logger LInfo "Equalpower Audio-Modus aktiviert" PNone
     else if String.eqb soundOption "hrtf" then
       logger LInfo "HRTF Audio-Modus aktiviert" PNone
     else
       logger LWarn "Unbekannte Sound-Option:" (PText soundOption))
    (fun error =>
       logger LError "Fehler beim Anwenden der Sound-Option:" (PError error)).

(** *** The exported interface as data, to speak of reachable states *)

Inductive ApiCall :=
| call_getAudioContext
| call_getStereoPannerNode (panValue : jsnum)
| call_setPanValue (panValue : jsnum) (when : option jsnum)
| call_connectAudioThroughStereoPanner (sourceNode : Source) (panValue : jsnum)
| call_disconnectStereoPanner
| call_setAudioMode (mode : string)
| call_connectAudioSource (sourceNode : Source)
| call_initAudioContext
| call_handleSoundOptionChange (soundOption : string).

Definition api (c : ApiCall) : M unit :=
  match c with
  | call_getAudioContext => getAudioContext
  | call_getStereoPannerNode v => getStereoPannerNode v
  | call_setPanValue v w => setPanValue v w
  | call_connectAudioThroughStereoPanner s v => connectAudioThroughStereoPanner s v
  | call_disconnectStereoPanner => disconnectStereoPanner
  | call_setAudioMode m => setAudioMode m
  | call_connectAudioSource s => connectAudioSource s
  | call_initAudioContext => initAudioContext
  | call_handleSoundOptionChange o => _handleSoundOptionChange o
  end.

(** The state a call leaves behind, whether it returned or threw. *)
Definition after {A} (m : M A) (st : State) : State := (m st).2.

Definition outcome {A} (m : M A) (st : State) : Result A := (m st).1.

Definition run (cs : list ApiCall) (st : State) : State :=
  fold_left (fun s c => after (api c) s) cs st.

Definition reachable (st : State) : Prop :=
  exists cs, st = run cs initial_state.

End Program.

Arguments after {A} m st /.
Arguments outcome {A} m st /.
Arguments clamp : simpl never.
Arguments Math_fround : simpl never.

(** The state in the middle of [setAudioMode]: the change is announced,
    [_disconnectAllSources] has run and the new mode is recorded. *)
Definition disconnected_for (P : Platform) (mode : string) (st : State) : State :=
  set_currentAudioMode mode
    (_disconnectAllSources P
       (logger LInfo "Audio-Modus wird geändert:"
               (PFromTo (currentAudioMode st) mode) st).2).2.

(** ** Vocabulary of the specification *)

(** The four routing modes the engine knows by name. *)
Definition recognized (mode : string) : Prop :=
  mode ∈ ["default"; "stereopanner"; "equalpower"; "hrtf"].

(** The routing rule of a mode, as the two [switch] statements decide it:
    through the pan node for [stereopanner], straight to the output for
    every other string. *)
Definition through_pan (mode : string) : bool := String.eqb mode "stereopanner".

Definition target (mode : string) : Node :=
  if through_pan mode then Panner else Destination.

(** Source [s] is wired by the rule of [mode] and by nothing else: its only
    outgoing connection is the one the rule asks for, and when that goes to
    the pan node, the pan node feeds the output. *)
Definition wired_as (mode : string) (s : Source) (st : State) : Prop :=
  (∀ d, (Src s, d) ∈ graph st ↔ d = target mode) ∧
  (through_pan mode = true → (Panner, Destination) ∈ graph st).

(** The whole topology agrees with the current mode. *)
Definition wired_consistently (st : State) : Prop :=
  (∀ s, s ∈ connectedSources st →
        ∀ d, (Src s, d) ∈ graph st ↔ d = target (currentAudioMode st)) ∧
  (∀ d, (Panner, d) ∈ graph st ↔
        d = Destination ∧ through_pan (currentAudioMode st) = true ∧
        connectedSources st ≠ []).

(** The platform calls made between two states. *)
Definition calls_since (st st' : State) : list PrimCall :=
  drop (length (calls st)) (calls st').

Definition disconnect_warning (s : Source) : LogEntry :=
  {| level := LWarn;
     message := "Fehler beim Trennen einer Audio-Quelle:";
     payload := PError (Thrown (Disconnect (Src s))) |}.

Definition reconnect_warning (mode : string) (s : Source) : LogEntry :=
  {| level := LWarn;
     message := "Fehler beim Neuverbinden einer Audio-Quelle:";
     payload := PError (Thrown (Connect (Src s) (target mode))) |}.

Definition unknown_option_warning (soundOption : string) : LogEntry :=
  {| level := LWarn;
     message := "Unbekannte Sound-Option:";
     payload := PText soundOption |}.

Definition is_warning (e : LogEntry) : bool :=
  match level e with LWarn => true | _ => false end.

(** The first platform call of the wiring step for [s] under [mode]. *)
Definition first_wiring_call (mode : string) (s : Source) (st : State) : PrimCall :=
  if through_pan mode
  then match stereoPannerNode st with
       | Some _ => Connect (Src s) Panner
       | None => CreateStereoPanner
       end
  else Connect (Src s) Destination.

(** The entries logged between two states. *)
Definition logged_since (st st' : State) : list LogEntry :=
  drop (length (log st)) (log st').

(** The warning of the reconnect loop for the platform call that threw. *)
Definition reconnect_warning_of (c : PrimCall) : LogEntry :=
  {| level := LWarn;
     message := "Fehler beim Neuverbinden einer Audio-Quelle:";
     payload := PError (Thrown c) |}.

(** The trace of [st'] shows, at index [n] after [st], the attempt to
    connect [s] by the rule of [mode].  Either the call at [n] is the
    connect call of [s]: if it did not throw, [s] has its connection and,
    on the way through the pan node, the next call connects the pan node to
    the output (with its connection, or the warning if that call threw); or
    the call at [n] threw, the warning for it was logged since [st], and it
    is the connect call of [s] or, on the way through the pan node and only
    if the module had no pan node, the creation of the pan node or the
    write of its initial pan. *)
Definition attempted (P : Platform) (mode : string) (st st' : State)
    (s : Source) (n : nat) : Prop :=
  (length (calls st) ≤ n)%nat ∧
  ∃ c, calls st' !! n = Some c ∧
    if P n c
    then reconnect_warning_of c ∈ logged_since st st' ∧
         (c = Connect (Src s) (target mode) ∨
          through_pan mode = true ∧ stereoPannerNode st = None ∧
          (c = CreateStereoPanner ∨ c = PanSetValue (Fin 0)))
    else c = Connect (Src s) (target mode) ∧
         (Src s, target mode) ∈ graph st' ∧
         (through_pan mode = true →
          calls st' !! S n = Some (Connect Panner Destination) ∧
          if P (S n) (Connect Panner Destination)
          then reconnect_warning_of (Connect Panner Destination)
                 ∈ logged_since st st'
          else (Panner, Destination) ∈ graph st').

(** The trace of [st'] shows the disconnect call of [s] at index [n] after
    [st]; if it threw, the warning was logged since [st], if not, [s] has
    no connection in [st']. *)
Definition disconnected_at (P : Platform) (st st' : State)
    (s : Source) (n : nat) : Prop :=
  (length (calls st) ≤ n)%nat ∧
  calls st' !! n = Some (Disconnect (Src s)) ∧
  if P n (Disconnect (Src s))
  then disconnect_warning s ∈ logged_since st st'
  else ∀ d, (Src s, d) ∉ graph st'.

(** The same seen from the end of the mode change: a source that was
    disconnected has no connection but the one of the new mode. *)
Definition disconnect_attempted (P : Platform) (mode : string) (st st' : State)
    (s : Source) (n : nat) : Prop :=
  (length (calls st) ≤ n)%nat ∧
  calls st' !! n = Some (Disconnect (Src s)) ∧
  if P n (Disconnect (Src s))
  then disconnect_warning s ∈ logged_since st st'
  else ∀ d, (Src s, d) ∈ graph st' → d = target mode.

Section Assumptions.

Variable P : Platform.

(** The audio context exists already or its creation does not throw. *)
Definition context_available (st : State) : Prop :=
  audioContext st ≠ None ∨ ∀ n, P n NewAudioContext = false.

(** The pan node exists already or its creation, with the initial pan 0
    written to it, does not throw. *)
Definition panner_available (st : State) : Prop :=
  stereoPannerNode st ≠ None ∨
  ∀ n, P n CreateStereoPanner = false ∧ P n (PanSetValue (Fin 0)) = false.

Definition can_disconnect (s : Source) : Prop :=
  ∀ n, P n (Disconnect (Src s)) = false.

(** The platform calls that wire [s] by the rule of [mode] do not throw. *)
Definition can_connect (mode : string) (s : Source) (st : State) : Prop :=
  (∀ n, P n (Connect (Src s) (target mode)) = false) ∧
  (through_pan mode = true →
     panner_available st ∧ ∀ n, P n (Connect Panner Destination) = false).

(** What holds of every state the exported functions can produce. *)
Definition State_ok (st : State) : Prop :=
  NoDup (connectedSources st) ∧
  (connectedSources st ≠ [] → audioContext st ≠ None).

End Assumptions.

(** ** Platforms and scenarios used in the examples *)

(** [new AudioContext()] always throws. *)
Definition no_audio_context : Platform :=
  fun _ c => match c with NewAudioContext => true | _ => false end.

(** Source 1 cannot be connected to the output (say, it belongs to another
    audio context); everything else works. *)
Definition source1_rejects_output : Platform :=
  fun _ c => match c with Connect (Src 1) Destination => true | _ => false end.

(** Source 1 cannot be disconnected; everything else works. *)
Definition source1_stuck : Platform :=
  fun _ c => match c with Disconnect (Src 1) => true | _ => false end.

(** Connecting source 1 to the output works at first and throws from the
    fourth platform call on. *)
Definition source1_breaks_later : Platform :=
  fun n c =>
    match c with
    | Connect (Src 1) Destination => Nat.leb 3 n
    | _ => false
    end.

(** Mode [stereopanner] with source 1 routed through the pan node. *)
Definition panned_one_source (P : Platform) : State :=
  run P [call_setAudioMode "stereopanner"; call_connectAudioSource 1] initial_state.

(** Two sources tracked in default mode. *)
Definition two_sources (P : Platform) : State :=
  run P [call_connectAudioSource 1; call_connectAudioSource 2] initial_state.

(** Source 1 tracked and connected in default mode. *)
Definition one_source (P : Platform) : State :=
  run P [call_connectAudioSource 1] initial_state.

(** Mode [stereopanner], source 1 routed through the pan node, and then the
    pan node cut off from the output by [disconnectStereoPanner]. *)
Definition panner_cut_off (P : Platform) : State :=
  run P [call_setAudioMode "stereopanner"; call_connectAudioSource 1;
         call_disconnectStereoPanner] initial_state.

(** The platform refuses NaN for the pan parameter, as the Web Audio API
    does for every non-finite value; everything else works. *)
Definition rejects_NaN : Platform :=
  fun _ c =>
    match c with
    | PanSetValue NaN | PanSetValueAtTime NaN _ => true
    | _ => false
    end.

(** The pan node cannot be connected to the output; everything else
    works. *)
Definition panner_rejects_output : Platform :=
  fun _ c => match c with Connect Panner Destination => true | _ => false end.

(** The pan node exists and holds 0.7. *)
Definition pan_at_07 (P : Platform) : State :=
  run P [call_setPanValue (Fin 0.7) None] initial_state.

(** The creation of the pan node throws once, as the sixth platform call,
    and works from then on; everything else works. *)
Definition panner_fails_once : Platform :=
  fun n c => match c with CreateStereoPanner => Nat.eqb n 5 | _ => false end.

(** Source 1 routed through the pan node, then a change to default mode. *)
Definition after_one_switch (P : Platform) : State :=
  run P [call_setAudioMode "stereopanner"; call_connectAudioSource 1;
         call_setAudioMode "default"] initial_state.

(** ** Relations between the state before and after a computation *)

(** [m] relates every state to the state it leaves behind by [R]. *)
Definition respects (R : State -> State -> Prop) {A} (m : M A) : Prop :=
  ∀ st, R st (m st).2.

(** [R] is a preorder that every elementary update of the module other than
    the assignment to [currentAudioMode] goes along with. *)
Record steps_ok (R : State -> State -> Prop) : Prop := {
  ok_refl : ∀ st, R st st;
  ok_trans : ∀ a b c, R a b → R b c → R a c;
  ok_calls : ∀ st c, R st (set_calls (calls st ++ [c]) st);
  ok_log : ∀ st e, R st (set_log (log st ++ [e]) st);
  ok_console : ∀ st e, R st (set_console (console st ++ [e]) st);
  ok_graph : ∀ st g, R st (set_graph g st);
  ok_context : ∀ st x, R st (set_audioContext (Some x) st);
  ok_panner : ∀ st x, R st (set_stereoPannerNode (Some x) st);
  ok_add : ∀ st s, R st (set_connectedSources (Set_add s (connectedSources st)) st)
}.

Definition keeps {B} (f : State -> B) : State -> State -> Prop :=
  fun a b => f b = f a.

Definition log_grows : State -> State -> Prop :=
  fun a b => log a `prefix_of` log b.

Definition calls_grow : State -> State -> Prop :=
  fun a b => calls a `prefix_of` calls b.

Definition sources_grow : State -> State -> Prop :=
  fun a b => connectedSources a ⊆ connectedSources b.

Definition context_stays : State -> State -> Prop :=
  fun a b => audioContext a ≠ None → audioContext b ≠ None.

Definition panner_stays : State -> State -> Prop :=
  fun a b => stereoPannerNode a ≠ None → stereoPannerNode b ≠ None.

Definition nodup_stays : State -> State -> Prop :=
  fun a b => NoDup (connectedSources a) → NoDup (connectedSources b).

(** The calls of the interface that assign [currentAudioMode]. *)
Definition changes_mode (c : ApiCall) : bool :=
  match c with
  | call_setAudioMode _ | call_handleSoundOptionChange _ => true
  | _ => false
  end.

(** ** More of the code *)

(** *** The earlier variant of the module

    The second copy of [audioContext.ts] has neither a mode nor a tracked
    set.  Its [getAudioContext], [getStereoPannerNode], [setPanValue],
    [disconnectStereoPanner], [getCurrentPanValue] and [initAudioContext]
    are, letter for letter, the functions above; only
    [connectAudioThroughStereoPanner] differs. *)

Module Legacy.

(** [connectAudioThroughStereoPanner(sourceNode, panValue = 0)], earlier
    variant *)
Definition connectAudioThroughStereoPanner (P : Platform)
    (sourceNode : Source) (panValue : jsnum) : M unit :=
  getAudioContext P >>
  getStereoPannerNode P panValue >>
  try_catch
    (connect P (Src sourceNode) Panner >>
     connect P Panner Destination >>
     reading (fun st =>
       logger LInfo "Audio erfolgreich durch StereoPannerNode geroutet"
              (PPan (pan_value_of st))))
    (fun error =>
       logger LError "Fehler beim Routing durch StereoPannerNode:" (PError error) >>
       throw error).

End Legacy.

(** *** The console helpers of the test utilities *)

(** [a < b] on JavaScript numbers: false as soon as one side is NaN. *)
Definition js_lt (a b : jsnum) : bool :=
  match a, b with
  | NaN, _ | _, NaN => false
  | _, NegInf => false
  | NegInf, _ => true
  | PosInf, _ => false
  | _, PosInf => true
  | Fin x, Fin y => negb (Qle_bool y x)
  end.

(** [x < 0 ? 'Links' : x > 0 ? 'Rechts' : 'Mitte'] *)
Definition side (x : jsnum) : string :=
  if js_lt x (Fin 0) then "Links"
  else if js_lt (Fin 0) x then "Rechts"
  else "Mitte".

Section TestUtils.

Variable P : Platform.

(** How a number prints inside a template string: the conversion is the
    language's, it is taken as given. *)
Variable Number_toString : jsnum -> string.

(** [setPan(value)]; the logged object has the one key [value]. *)
Definition setPan (value : jsnum) : M unit :=
  let clampedValue := clamp value in
  setAudioMode P "stereopanner" >>
  setPanValue P clampedValue None >>
  console_log ("🎛️ Pan-Wert gesetzt: " ++ Number_toString clampedValue ++
               " (" ++ side clampedValue ++ ")") >>
  logger LInfo "Pan-Wert manuell gesetzt:" (PPan clampedValue).

(** [toggleMode()] *)
Definition toggleMode : M unit :=
  reading (fun st =>
    let currentMode := getCurrentAudioMode st in
    let newMode :=
      if String.eqb currentMode "stereopanner" then "default" else "stereopanner" in
    setAudioMode P newMode >>
    console_log ("🔄 Audio-Modus gewechselt: " ++ currentMode ++ " → " ++ newMode)).

End TestUtils.

(** *** The toolbox middleware and selector *)

(** A redux action as the middleware reads it: its type and, for the sound
    action, the selected option. *)
Record Action := {
  type : string;
  soundOption : string
}.

Section Middleware.

Variable P : Platform.

(** The action type constant of [./actionTypes], a file that is not part of
    the sources at hand. *)
Variable SET_SOUND_OPTION : string.

(** The rest of the middleware chain. *)
Context {A : Type}.
Variable next : Action -> M A.

(** [store => next => action => { switch (action.type) ... return next(action) }] *)
Definition middleware (action : Action) : M A :=
  (if String.eqb (type action) SET_SOUND_OPTION
   then _handleSoundOptionChange P (soundOption action)
   else ret tt) >>
  next action.

End Middleware.

(** The part of the redux state [getSoundOption] reads; the declaration of
    [IReduxState] is not among the sources, what is modelled is the access
    path [state['features/toolbox']?.soundOption], where the feature state
    and the option may each be absent. *)
Record IToolboxState := {
  toolbox_soundOption : option string
}.

Record IReduxState := {
  features_toolbox : option IToolboxState
}.

(** [x || 'default'] on an optional string: absent and empty are falsy. *)
Definition or_default (x : option string) : string :=
  match x with
  | Some s => if String.eqb s "" then "default" else s
  | None => "default"
  end.

(** [getSoundOption(state)] *)
Definition getSoundOption (state : IReduxState) : string :=
  or_default
    (match features_toolbox state with
     | Some t => toolbox_soundOption t
     | None => None
     end).

(** ** Invariants *)

(** [m], started in a state where [I] holds, keeps [I] and relates the
    state to the one it leaves behind by [R]. *)
Definition holds_from (I : State -> Prop) (R : State -> State -> Prop)
    {A} (m : M A) (st : State) : Prop :=
  I st → I (m st).2 ∧ R st (m st).2.

(** Between the two states the platform call [c] was not made. *)
Definition never_calls (c : PrimCall) : State -> State -> Prop :=
  fun a b => ∃ l, calls b = (calls a ++ l)%list ∧ c ∉ l.

Definition only_adds_edges : State -> State -> Prop :=
  fun a b => graph a ⊆ graph b.

(** The entries logged between the two states all satisfy [ok]. *)
Definition logs_only (ok : LogEntry -> Prop) : State -> State -> Prop :=
  fun a b => ∃ l, log b = (log a ++ l)%list ∧ Forall ok l.

(** The entry is not the warning about an unknown sound option. *)
Definition not_unknown_option (e : LogEntry) : Prop :=
  message e ≠ "Unbekannte Sound-Option:".

(** A pan value the module may have written: NaN, which [clamp] lets
    through, or a number between -1 and 1. *)
Definition in_range (x : jsnum) : Prop :=
  match x with
  | Fin q => (-1 <= q <= 1)%Q
  | NaN => True
  | _ => False
  end.

(** A stereo position: a number between -1 and 1. *)
Definition is_position (x : jsnum) : Prop :=
  match x with
  | Fin q => (-1 <= q <= 1)%Q
  | _ => False
  end.

Definition pan_in_range (st : State) : Prop :=
  match stereoPannerNode st with
  | Some n =>
      in_range (param_value (pan n)) ∧
      Forall (fun ev => in_range ev.1) (param_events (pan n))
  | None => True
  end.

(** The connections the module makes: a source into the pan node or into
    the output, the pan node into the output. *)
Definition edge_shape (e : Node * Node) : Prop :=
  match e with
  | (Src _, Panner) | (Src _, Destination) | (Panner, Destination) => True
  | _ => False
  end.

Definition well_shaped (st : State) : Prop :=
  ∀ e, e ∈ graph st → edge_shape e.

(** The calls of the interface that take connections away. *)
Definition removes_edges (c : ApiCall) : bool :=
  match c with
  | call_setAudioMode _ | call_handleSoundOptionChange _
  | call_disconnectStereoPanner => true
  | _ => false
  end.

(** * Proofs *)

Lemma fround_zero : Math_fround (Fin 0) = Fin 0.
Proof. reflexivity. Qed.

Lemma clamp_zero : clamp (Fin 0) = Fin 0.
Proof. reflexivity. Qed.

Lemma Qle_bool_false_lt (x y : Q) : Qle_bool x y = false → (y < x)%Q.
Proof.
  intros H. apply Qnot_le_lt. intros Hle.
  apply Qle_bool_iff in Hle. congruence.
Qed.

(** The model of [Math.min]/[Math.max] on finite numbers is the minimum and
    maximum of the rationals. *)
Lemma Math_min_Fin (x y : Q) : Math_min (Fin x) (Fin y) = Fin (Qmin x y).
Proof.
  unfold Math_min, Qmin, GenericMinMax.gmin.
  destruct (Qle_bool x y) eqn:E.
  - apply Qle_bool_iff in E. pose proof (proj1 (Qle_alt x y) E) as C.
    destruct (x ?= y)%Q; congruence.
  - apply Qle_bool_false_lt in E. pose proof (proj1 (Qgt_alt x y) E) as C.
    now rewrite C.
Qed.

Lemma Math_max_Fin (x y : Q) : Math_max (Fin x) (Fin y) = Fin (Qmax x y).
Proof.
  unfold Math_max, Qmax, GenericMinMax.gmax.
  destruct (Qle_bool y x) eqn:E.
  - apply Qle_bool_iff in E.
    destruct (x ?= y)%Q eqn:C; try reflexivity.
    exfalso. apply (proj1 (Qle_alt y x) E).
    apply (proj1 (Qgt_alt y x)). now apply (proj2 (Qlt_alt x y)).
  - apply Qle_bool_false_lt in E. pose proof (proj1 (Qlt_alt x y) E) as C.
    now rewrite C.
Qed.

Lemma clamp_Fin (v : Q) : clamp (Fin v) = Fin (Qmax (-1) (Qmin 1 v)).
Proof. unfold clamp. now rewrite Math_min_Fin, Math_max_Fin. Qed.

(** *** The tracked-source set *)

(** *** Single precision *)

Lemma round_half_even_bounds (n : Z) (d : positive) (N : Z) :
  (0 <= n <= N * Zpos d)%Z → (0 <= round_half_even n d <= N)%Z.
Proof.
  intros [Hlo Hhi]. unfold round_half_even.
  pose proof (Z.div_mod n (Zpos d) ltac:(lia)) as Hdm.
  pose proof (Z.mod_pos_bound n (Zpos d) ltac:(lia)) as Hr.
  assert (Hf : (0 <= n / Zpos d)%Z) by (apply Z.div_pos; lia).
  assert (HfN : (n / Zpos d <= N)%Z).
  { apply Z.div_le_upper_bound; lia. }
  assert (Hstrict : (0 < n mod Zpos d → n / Zpos d < N)%Z) by nia.
  destruct (Z.compare_spec (2 * (n mod Zpos d)) (Zpos d)) as [H|H|H].
  - destruct (Z.even (n / Zpos d)); lia.
  - lia.
  - lia.
Qed.

(** The result is within half a unit of [n / d]. *)
Lemma round_half_even_near (n : Z) (d : positive) :
  (Z.abs (2 * (round_half_even n d * Zpos d - n)) <= Zpos d)%Z.
Proof.
  unfold round_half_even.
  pose proof (Z.div_mod n (Zpos d) ltac:(lia)) as Hdm.
  pose proof (Z.mod_pos_bound n (Zpos d) ltac:(lia)) as Hr.
  destruct (Z.compare_spec (2 * (n mod Zpos d)) (Zpos d)) as [H|H|H];
    [destruct (Z.even (n / Zpos d))|..]; nia.
Qed.

Lemma floor_log2_le (n : Z) (d : positive) :
  (0 < n <= Zpos d)%Z → (floor_log2 n d <= 0)%Z.
Proof.
  intros [Hn Hle]. unfold floor_log2.
  pose proof (Z.log2_le_mono n (Zpos d) Hle).
  destruct (if (0 <=? _)%Z then _ else _); lia.
Qed.

Lemma floor_log2_lt (n : Z) (d : positive) :
  (0 < n < Zpos d)%Z → (floor_log2 n d <= -1)%Z.
Proof.
  intros [Hn Hlt]. unfold floor_log2.
  pose proof (Z.log2_le_mono n (Zpos d) ltac:(lia)) as Hlog.
  destruct (Z.eq_dec (Z.log2 n - Z.log2 (Z.pos d))%Z 0%Z) as [E|E].
  - rewrite E. simpl. rewrite Z.mul_1_r.
    destruct (n <? Z.pos d)%Z eqn:Hb; [lia|]. apply Z.ltb_ge in Hb. lia.
  - destruct (if (0 <=? _)%Z then _ else _); lia.
Qed.

Lemma to_pos_pow2 (k : Z) : (0 <= k)%Z → Zpos (Z.to_pos (2 ^ k)) = (2 ^ k)%Z.
Proof. intros Hk. apply Z2Pos.id. by apply Z.pow_pos_nonneg. Qed.

(** A number between 0 and 1 in single precision: still between 0 and 1,
    and at most [2 ^ -25] away. *)
Lemma fround_pos_unit (n : Z) (d : positive) :
  (0 < n <= Zpos d)%Z →
  ∃ r, fround_pos n d = Fin r ∧ (0 <= r <= 1)%Q ∧
       (Qabs (r - (n # d)) <= 1 # 2 ^ 25)%Q.
Proof.
  intros [Hn Hle]. unfold fround_pos.
  pose proof (floor_log2_le n d (conj Hn Hle)) as He.
  assert (He' : (n < Zpos d → floor_log2 n d <= -1)%Z).
  { intros Hlt. apply floor_log2_lt. lia. }
  set (e := floor_log2 n d) in *.
  set (u := (Z.max e (-126) - 23)%Z).
  assert (Hu : (u <= -23)%Z) by lia.
  destruct (0 <=? u)%Z eqn:E; [apply Z.leb_le in E; lia|]. clear E.
  set (k := (- u)%Z). assert (Hk : (23 <= k)%Z) by lia.
  assert (Hk' : (n < Zpos d → 24 <= k)%Z) by lia.
  clearbody k. clear u Hu e He He'.
  set (m := round_half_even (n * 2 ^ k) d).
  assert (Hpow : (0 < 2 ^ k)%Z) by (apply Z.pow_pos_nonneg; lia).
  assert (Hm : (0 <= m <= 2 ^ k)%Z).
  { apply round_half_even_bounds. nia. }
  pose proof (round_half_even_near (n * 2 ^ k) d) as Hnear. fold m in Hnear.
  eexists. split; [reflexivity|].
  rewrite Qred_correct.
  assert (Hpos : Zpos (Z.to_pos (2 ^ k)) = (2 ^ k)%Z) by (apply to_pos_pow2; lia).
  split.
  - unfold Qle. simpl. rewrite Hpos. lia.
  - apply Qabs_Qle_condition.
    assert (Hcases : (n = Zpos d ∧ m = 2 ^ k ∨ 2 ^ 24 <= 2 ^ k)%Z).
    { destruct (Z.eq_dec n (Zpos d)) as [->|Hne].
      - left. split; [done|]. unfold m, round_half_even. cbv zeta.
        rewrite (Z.mul_comm (Zpos d) (2 ^ k)), Z.mod_mul, Z.div_mul by lia.
        reflexivity.
      - right. apply Z.pow_le_mono_r; lia. }
    unfold Qle, Qminus, Qplus, Qopp. simpl. rewrite Hpos.
    change (Z.pos (2 ^ 25)) with (2 ^ 25)%Z.
    destruct Hcases as [[-> ->]|H24]; [split; lia|].
    split; nia.
Qed.

(** A number between -1 and 1 in single precision. *)
Lemma fround_unit (q : Q) :
  (-1 <= q <= 1)%Q →
  ∃ r, Math_fround (Fin q) = Fin r ∧ (-1 <= r <= 1)%Q ∧
       (Qabs (r - q) <= 1 # 2 ^ 25)%Q.
Proof.
  destruct q as [[|n|n] d]; intros [Hlo Hhi]; unfold Math_fround; simpl.
  - exists 0%Q. split; [reflexivity|]. split; [split; discriminate|].
    apply Qabs_Qle_condition. unfold Qle. simpl. lia.
  - destruct (fround_pos_unit (Zpos n) d) as (r & -> & [H0 H1] & Hnear).
    { unfold Qle in Hhi. simpl in Hhi. lia. }
    exists r. split; [reflexivity|]. split; [|done].
    split; [|done]. apply Qle_trans with 0%Q; [discriminate|done].
  - destruct (fround_pos_unit (Zpos n) d) as (r & -> & [H0 H1] & Hnear).
    { unfold Qle in Hlo. simpl in Hlo. lia. }
    exists (- r)%Q. split; [reflexivity|]. split.
    + split.
      * apply Qopp_le_compat in H1. exact H1.
      * apply Qopp_le_compat in H0. apply Qle_trans with (- 0)%Q; [done|discriminate].
    + apply Qabs_Qle_condition in Hnear. apply Qabs_Qle_condition.
      destruct r as [rn rd]. unfold Qle, Qminus, Qplus, Qopp in *.
      simpl in *. lia.
Qed.

Lemma clamp_Fin_range (v : Q) : (-1 <= Qmax (-1) (Qmin 1 v) <= 1)%Q.
Proof.
  split.
  - apply Q.le_max_l.
  - apply Q.max_lub; [discriminate|]. apply Q.le_min_l.
Qed.

Lemma clamp_above (v : Q) : (1 <= v)%Q → clamp (Fin v) = Fin 1.
Proof.
  intros Hv. unfold clamp, Math_min, Math_max.
  apply Qle_bool_iff in Hv. rewrite Hv. reflexivity.
Qed.

Lemma clamp_below (v : Q) : (v <= -1)%Q → clamp (Fin v) = Fin (-1).
Proof.
  intros Hv. unfold clamp, Math_min, Math_max.
  destruct (Qle_bool 1 v) eqn:E.
  - apply Qle_bool_iff in E. exfalso.
    apply (Qle_not_lt _ _ (Qle_trans _ _ _ E Hv)). reflexivity.
  - apply Qle_bool_iff in Hv. by rewrite Hv.
Qed.

Lemma Set_add_old (s : Source) l : s ∈ l → Set_add s l = l.
Proof. intros H. unfold Set_add. now rewrite decide_True. Qed.

Lemma Set_add_in (s : Source) l : s ∈ Set_add s l.
Proof. unfold Set_add. case_decide; set_solver. Qed.

Lemma Set_add_subseteq (s : Source) l : l ⊆ Set_add s l.
Proof. unfold Set_add. case_decide; set_solver. Qed.

Lemma Set_add_NoDup (s : Source) l : NoDup l → NoDup (Set_add s l).
Proof.
  intros H. unfold Set_add. case_decide; [done|].
  apply NoDup_app. repeat split; [done| |apply NoDup_singleton].
  intros x Hx Hx'. apply list_elem_of_singleton in Hx'. now subst.
Qed.

Lemma Set_add_twice (s : Source) l : Set_add s (Set_add s l) = Set_add s l.
Proof. apply Set_add_old, Set_add_in. Qed.

(** *** Loops whose callback never throws *)

Section Loops.

Variable cb : Source -> M unit.
Hypothesis cb_total : ∀ s st, (cb s st).1 = Ok tt.

Lemma forEach_cons s l st :
  forEach (s :: l) cb st = forEach l cb (cb s st).2.
Proof.
  cbn [forEach]. unfold bind. specialize (cb_total s st).
  destruct (cb s st) as [[[]|e] st']; [reflexivity|discriminate].
Qed.

Lemma forEach_total l st : (forEach l cb st).1 = Ok tt.
Proof.
  revert st. induction l as [|s l IH]; intros st; [done|].
  rewrite forEach_cons. apply IH.
Qed.

(** An invariant of the callback is an invariant of the loop. *)
Lemma forEach_inv (I : State -> Prop) l :
  (∀ s st, s ∈ l → I st → I (cb s st).2) →
  ∀ st, I st → I (forEach l cb st).2.
Proof.
  induction l as [|s l IH]; intros Hcb st Hst; [done|].
  rewrite forEach_cons. apply IH.
  - intros s' st' Hs'. apply Hcb. by apply list_elem_of_further.
  - apply Hcb; [apply list_elem_of_here|done].
Qed.

(** What the callback establishes for its own element, and no callback
    destroys, holds for every element after the loop. *)
Lemma forEach_each (I Q : State -> Prop) l s :
  s ∈ l →
  (∀ s' st, s' ∈ l → I st → I (cb s' st).2) →
  (∀ st, I st → Q (cb s st).2) →
  (∀ s' st, s' ∈ l → I st → Q st → Q (cb s' st).2) →
  ∀ st, I st → Q (forEach l cb st).2.
Proof.
  induction l as [|s' l IH]; intros Hin HI Hest Hkeep st Hst.
  { by apply elem_of_nil in Hin. }
  rewrite forEach_cons.
  assert (HI' : ∀ s0 st0, s0 ∈ l → I st0 → I (cb s0 st0).2).
  { intros s0 st0 Hs0. apply HI. by apply list_elem_of_further. }
  assert (Hkeep' : ∀ s0 st0, s0 ∈ l → I st0 → Q st0 → Q (cb s0 st0).2).
  { intros s0 st0 Hs0. apply Hkeep. by apply list_elem_of_further. }
  destruct (proj1 (elem_of_cons _ _ _) Hin) as [->|Hin'].
  - eapply (forEach_inv (fun st => I st ∧ Q st)).
    + intros s0 st0 Hs0 [? ?]. split; [by apply HI'|by apply Hkeep'].
    + split; [apply HI; [apply list_elem_of_here|done]|by apply Hest].
  - apply IH; try done. apply HI; [apply list_elem_of_here|done].
Qed.

End Loops.

(** *** Relations every elementary update goes along with *)

Section Closure.

Variable P : Platform.
Variable R : State -> State -> Prop.
Hypothesis HR : steps_ok R.

Lemma respects_ret {A} (a : A) : respects R (ret a).
Proof. intros st. apply (ok_refl R HR). Qed.

Lemma respects_throw {A} e : respects R (@throw A e).
Proof. intros st. apply (ok_refl R HR). Qed.

Lemma respects_bind {A B} (m : M A) (k : A -> M B) :
  respects R m → (∀ a, respects R (k a)) → respects R (bind m k).
Proof.
  intros Hm Hk st. unfold bind. specialize (Hm st).
  destruct (m st) as [[a|e] st1]; [|done].
  eapply (ok_trans R HR); [exact Hm|apply Hk].
Qed.

Lemma respects_try_catch {A} (m : M A) (h : Error -> M A) :
  respects R m → (∀ e, respects R (h e)) → respects R (try_catch m h).
Proof.
  intros Hm Hh st. unfold try_catch. specialize (Hm st).
  destruct (m st) as [[a|e] st1]; [done|].
  eapply (ok_trans R HR); [exact Hm|apply Hh].
Qed.

Lemma respects_reading {A} (k : State -> M A) :
  (∀ st0, respects R (k st0)) → respects R (reading k).
Proof. intros Hk st. apply Hk. Qed.

Lemma respects_modify f :
  (∀ st, R st (f st)) → respects R (modify f).
Proof. intros Hf st. apply Hf. Qed.

Lemma respects_prim c effect :
  (∀ st, R st (effect st)) → respects R (prim P c effect).
Proof.
  intros He st. unfold prim.
  destruct (P (length (calls st)) c); simpl.
  - apply (ok_calls R HR).
  - eapply (ok_trans R HR); [apply (ok_calls R HR)|apply He].
Qed.

Lemma respects_logger lv msg p : respects R (logger lv msg p).
Proof. intros st. apply (ok_log R HR). Qed.

Lemma respects_console_log line : respects R (console_log line).
Proof. intros st. apply (ok_console R HR). Qed.

Lemma respects_forEach l cb :
  (∀ s, respects R (cb s)) → respects R (forEach l cb).
Proof.
  intros Hcb. induction l as [|s l IH]; simpl.
  - apply respects_ret.
  - apply respects_bind; [apply Hcb|intros _; apply IH].
Qed.

Ltac respects_step :=
  lazymatch goal with
  | |- respects _ (bind _ _) => apply respects_bind; [|intros ?]
  | |- respects _ (try_catch _ _) => apply respects_try_catch; [|intros ?]
  | |- respects _ (reading _) => apply respects_reading; intros ?
  | |- respects _ (forEach _ _) => apply respects_forEach; intros ?
  | |- respects _ (ret _) => apply respects_ret
  | |- respects _ (throw _) => apply respects_throw
  | |- respects _ (logger _ _ _) => apply respects_logger
  | |- respects _ (console_log _) => apply respects_console_log
  | |- respects _ (modify _) => apply respects_modify; intros ?
  | |- respects _ (prim _ _ _) => apply respects_prim; intros ?
  | |- respects _ (match ?x with _ => _ end) => destruct x
  | |- R _ (match ?x with _ => _ end) => destruct x
  | |- R _ (set_graph _ _) => apply (ok_graph R HR)
  | |- R _ (set_audioContext _ _) => apply (ok_context R HR)
  | |- R _ (set_stereoPannerNode _ _) => apply (ok_panner R HR)
  | |- R _ (set_connectedSources _ _) => apply (ok_add R HR)
  | |- R ?st ?st => apply (ok_refl R HR)
  end.

Ltac solve_respects := repeat respects_step.

Lemma respects_getAudioContext : respects R (getAudioContext P).
Proof. unfold getAudioContext. solve_respects. Qed.

Lemma respects_connect a b : respects R (connect P a b).
Proof. unfold connect. solve_respects. Qed.

Lemma respects_disconnect a : respects R (disconnect P a).
Proof. unfold disconnect. solve_respects. Qed.

Lemma respects_pan_set_value x : respects R (pan_set_value P x).
Proof. unfold pan_set_value. solve_respects. Qed.

Lemma respects_pan_setValueAtTime x t : respects R (pan_setValueAtTime P x t).
Proof. unfold pan_setValueAtTime. solve_respects. Qed.

Lemma respects_getStereoPannerNode v : respects R (getStereoPannerNode P v).
Proof.
  unfold getStereoPannerNode.
  apply respects_bind; [apply respects_getAudioContext|intros _].
  apply respects_reading; intros st0. destruct (stereoPannerNode st0).
  - apply respects_ret.
  - apply respects_try_catch; [|intros ?; solve_respects].
    apply respects_bind; [solve_respects|intros _].
    apply respects_bind; [apply respects_pan_set_value|intros _].
    solve_respects.
Qed.

Lemma respects_setPanValue v w : respects R (setPanValue P v w).
Proof.
  unfold setPanValue.
  apply respects_bind; [apply respects_getStereoPannerNode|intros _].
  apply respects_try_catch; [|intros ?; solve_respects].
  apply respects_bind; [|intros _; solve_respects].
  destruct w; [apply respects_pan_setValueAtTime|apply respects_pan_set_value].
Qed.

Lemma respects_connectAudioThroughStereoPanner s v :
  respects R (connectAudioThroughStereoPanner P s v).
Proof.
  unfold connectAudioThroughStereoPanner.
  apply respects_bind; [apply respects_getAudioContext|intros _].
  apply respects_bind; [apply respects_getStereoPannerNode|intros _].
  apply respects_try_catch; [|intros ?; solve_respects].
  apply respects_bind; [apply respects_connect|intros _].
  apply respects_bind; [apply respects_connect|intros _].
  solve_respects.
Qed.

Lemma respects_disconnectStereoPanner : respects R (disconnectStereoPanner P).
Proof.
  unfold disconnectStereoPanner.
  apply respects_reading; intros st0. destruct (stereoPannerNode st0).
  - apply respects_try_catch; [|intros ?; solve_respects].
    apply respects_bind; [apply respects_disconnect|intros _; solve_respects].
  - apply respects_ret.
Qed.

Lemma respects_disconnect_cb s : respects R (disconnect_cb P s).
Proof.
  unfold disconnect_cb.
  apply respects_try_catch; [apply respects_disconnect|intros ?; solve_respects].
Qed.

Lemma respects_reconnect_cb mode s : respects R (reconnect_cb P mode s).
Proof.
  unfold reconnect_cb.
  apply respects_try_catch; [|intros ?; solve_respects].
  destruct (String.eqb mode "stereopanner").
  - apply respects_connectAudioThroughStereoPanner.
  - apply respects_connect.
Qed.

Lemma respects_disconnectAllSources : respects R (_disconnectAllSources P).
Proof.
  unfold _disconnectAllSources.
  apply respects_bind; [|intros _; apply respects_disconnectStereoPanner].
  apply respects_reading; intros st0.
  apply respects_forEach; intros s. apply respects_disconnect_cb.
Qed.

Lemma respects_reconnectSourcesWithMode mode :
  respects R (_reconnectSourcesWithMode P mode).
Proof.
  unfold _reconnectSourcesWithMode.
  apply respects_bind; [apply respects_getAudioContext|intros _].
  apply respects_reading; intros st0.
  apply respects_forEach; intros s. apply respects_reconnect_cb.
Qed.

Lemma respects_connectAudioSource s : respects R (connectAudioSource P s).
Proof.
  unfold connectAudioSource.
  apply respects_bind; [apply respects_getAudioContext|intros _].
  apply respects_try_catch; [|intros ?; solve_respects].
  apply respects_bind; [solve_respects|intros _].
  apply respects_reading; intros st0.
  destruct (String.eqb (currentAudioMode st0) "stereopanner").
  - apply respects_connectAudioThroughStereoPanner.
  - apply respects_bind; [apply respects_connect|intros _; solve_respects].
Qed.

Lemma respects_initAudioContext : respects R (initAudioContext P).
Proof.
  unfold initAudioContext.
  apply respects_bind; [solve_respects|intros _].
  apply respects_bind; [apply respects_getAudioContext|intros _; solve_respects].
Qed.

(** The two functions that assign the mode need [R] to allow that. *)
Hypothesis R_mode : ∀ st mode, R st (set_currentAudioMode mode st).

Lemma respects_setAudioMode mode : respects R (setAudioMode P mode).
Proof.
  unfold setAudioMode.
  apply respects_bind; [solve_respects|intros _].
  apply respects_try_catch; [|intros ?; solve_respects].
  apply respects_bind; [apply respects_disconnectAllSources|intros _].
  apply respects_bind; [apply respects_modify; intros ?; apply R_mode|intros _].
  apply respects_bind; [apply respects_reconnectSourcesWithMode|intros _].
  solve_respects.
Qed.

Lemma respects_handleSoundOptionChange o :
  respects R (_handleSoundOptionChange P o).
Proof.
  unfold _handleSoundOptionChange.
  apply respects_bind; [solve_respects|intros _].
  apply respects_try_catch; [|intros ?; solve_respects].
  apply respects_bind; [apply respects_setAudioMode|intros _].
  apply respects_bind; [solve_respects|intros _].
  repeat match goal with
         | |- respects _ (if ?b then _ else _) => destruct b
         end; solve_respects.
Qed.

End Closure.

Lemma steps_ok_keeps_mode : steps_ok (keeps currentAudioMode).
Proof. split; unfold keeps; simpl; try done. intros a b c -> ->. done. Qed.

Lemma steps_ok_log_grows : steps_ok log_grows.
Proof.
  split; unfold log_grows; simpl; try done.
  - intros a b c ? ?. by etrans.
  - intros st e. by apply prefix_app_r.
Qed.

Lemma steps_ok_calls_grow : steps_ok calls_grow.
Proof.
  split; unfold calls_grow; simpl; try done.
  - intros a b c ? ?. by etrans.
  - intros st e. by apply prefix_app_r.
Qed.

Lemma steps_ok_sources_grow : steps_ok sources_grow.
Proof.
  split; unfold sources_grow; simpl; try done.
  - intros a b c ? ?. by etrans.
  - intros st s. apply Set_add_subseteq.
Qed.

Lemma steps_ok_context_stays : steps_ok context_stays.
Proof. split; unfold context_stays; simpl; auto. Qed.

Lemma steps_ok_panner_stays : steps_ok panner_stays.
Proof. split; unfold panner_stays; simpl; auto. Qed.

Lemma steps_ok_nodup_stays : steps_ok nodup_stays.
Proof.
  split; unfold nodup_stays; simpl; auto.
  intros st s. apply Set_add_NoDup.
Qed.

Lemma calls_grow_mode st mode : calls_grow st (set_currentAudioMode mode st).
Proof. by unfold calls_grow. Qed.

Lemma sources_grow_mode st mode : sources_grow st (set_currentAudioMode mode st).
Proof. by unfold sources_grow. Qed.

Lemma context_stays_mode st mode : context_stays st (set_currentAudioMode mode st).
Proof. by unfold context_stays. Qed.

Lemma nodup_stays_mode st mode : nodup_stays st (set_currentAudioMode mode st).
Proof. by unfold nodup_stays. Qed.

(** Every function of the interface goes along with such a relation. *)
Lemma api_respects (P : Platform) R c :
  steps_ok R →
  (changes_mode c = true → ∀ st mode, R st (set_currentAudioMode mode st)) →
  respects R (api P c).
Proof.
  intros HR Hmode. destruct c; simpl in *.
  - by apply respects_getAudioContext.
  - by apply respects_getStereoPannerNode.
  - by apply respects_setPanValue.
  - by apply respects_connectAudioThroughStereoPanner.
  - by apply respects_disconnectStereoPanner.
  - apply respects_setAudioMode; auto.
  - by apply respects_connectAudioSource.
  - by apply respects_initAudioContext.
  - apply respects_handleSoundOptionChange; auto.
Qed.

Lemma run_respects (P : Platform) R cs st :
  steps_ok R →
  (∀ st mode, R st (set_currentAudioMode mode st)) →
  R st (run P cs st).
Proof.
  intros HR Hmode. revert st. induction cs as [|c cs IH]; intros st; simpl.
  - apply (ok_refl R HR).
  - eapply (ok_trans R HR); [|apply IH].
    apply (api_respects P R c HR). auto.
Qed.

Lemma prefix_drop_elem {A} (l l' : list A) n x :
  l `prefix_of` l' → x ∈ drop n l → x ∈ drop n l'.
Proof.
  intros [k ->] Hx. rewrite drop_app. apply elem_of_app. by left.
Qed.

(** *** Running the code symbolically *)

Ltac unfold_ops :=
  unfold reconnect_cb, disconnect_cb, connectAudioSource,
    connectAudioThroughStereoPanner, disconnectStereoPanner, setPanValue,
    getStereoPannerNode, getAudioContext, pan_set_value, pan_setValueAtTime,
    connect, disconnect, prim, logger, console_log,
    bind, try_catch, reading, modify, ret, throw in *.

Ltac split_state P :=
  repeat match goal with
  | H : forall n, P n ?c = _ |- context [P ?n ?c] => rewrite (H n); cbn
  | H : P ?n ?c = _ |- context [P ?n ?c] => rewrite H; cbn
  | |- context [P ?n ?c] => destruct (P n c) eqn:?; cbn
  | H : audioContext ?st = _ |- context [match audioContext ?st with _ => _ end] =>
      rewrite H; cbn
  | |- context [match audioContext ?st with _ => _ end] =>
      is_var st; destruct (audioContext st) eqn:?; cbn
  | H : stereoPannerNode ?st = _ |- context [match stereoPannerNode ?st with _ => _ end] =>
      rewrite H; cbn
  | |- context [match stereoPannerNode ?st with _ => _ end] =>
      is_var st; destruct (stereoPannerNode st) eqn:?; cbn
  | H : String.eqb ?a ?b = _ |- context [String.eqb ?a ?b] => rewrite H; cbn
  | |- context [String.eqb ?a ?b] => destruct (String.eqb a b) eqn:?; cbn
  end.

Ltac run_code P :=
  unfold_ops; cbn; rewrite ?clamp_zero, ?fround_zero; split_state P.

Ltac graph_solver :=
  unfold disconnect_warning, reconnect_warning, unknown_option_warning in *;
  set_solver.

Ltac finish :=
  intros; simpl in *; simplify_eq;
  try done; try congruence; try graph_solver.

Section Steps.

Variable P : Platform.

Lemma bind_ok {A B} (m : M A) (k : A -> M B) st a :
  (m st).1 = Ok a → bind m k st = k a (m st).2.
Proof. unfold bind. destruct (m st) as [[?|?] ?]; simpl; intros [=]; by subst. Qed.

Lemma getAudioContext_returns st :
  context_available P st → (getAudioContext P st).1 = Ok tt.
Proof. intros [H|H]; run_code P; finish. Qed.

Lemma getAudioContext_created st :
  (getAudioContext P st).1 = Ok tt → audioContext (getAudioContext P st).2 ≠ None.
Proof. run_code P; finish. Qed.

Lemma getAudioContext_throws st e :
  (getAudioContext P st).1 = Throw e →
  e = Thrown NewAudioContext ∧ audioContext st = None ∧
  connectedSources (getAudioContext P st).2 = connectedSources st.
Proof. run_code P; finish. Qed.

Lemma getAudioContext_frame st :
  let st' := (getAudioContext P st).2 in
  stereoPannerNode st' = stereoPannerNode st ∧
  currentAudioMode st' = currentAudioMode st ∧
  connectedSources st' = connectedSources st ∧
  graph st' = graph st.
Proof. run_code P; finish. Qed.

(** **** The disconnect phase *)

Lemma disconnect_cb_total s st : (disconnect_cb P s st).1 = Ok tt.
Proof. run_code P; finish. Qed.

Lemma disconnect_cb_frame s st :
  let st' := (disconnect_cb P s st).2 in
  audioContext st' = audioContext st ∧
  stereoPannerNode st' = stereoPannerNode st ∧
  currentAudioMode st' = currentAudioMode st ∧
  connectedSources st' = connectedSources st.
Proof. run_code P; finish. Qed.

Lemma disconnect_cb_graph s st e :
  e ∈ graph (disconnect_cb P s st).2 → e ∈ graph st.
Proof. run_code P; finish. Qed.

Lemma disconnect_cb_other s st e :
  e.1 ≠ Src s → e ∈ graph st → e ∈ graph (disconnect_cb P s st).2.
Proof. run_code P; finish. Qed.

Lemma disconnect_cb_removes s st d :
  can_disconnect P s → (Src s, d) ∉ graph (disconnect_cb P s st).2.
Proof. intros H. unfold can_disconnect in H. run_code P; finish. Qed.

Lemma disconnect_cb_warns s st :
  (∀ n, P n (Disconnect (Src s)) = true) →
  disconnect_warning s ∈ log (disconnect_cb P s st).2.
Proof. intros H. run_code P; finish. Qed.

Lemma disconnectStereoPanner_total st : (disconnectStereoPanner P st).1 = Ok tt.
Proof. run_code P; finish. Qed.

Lemma disconnectStereoPanner_frame st :
  let st' := (disconnectStereoPanner P st).2 in
  audioContext st' = audioContext st ∧
  stereoPannerNode st' = stereoPannerNode st ∧
  currentAudioMode st' = currentAudioMode st ∧
  connectedSources st' = connectedSources st.
Proof. run_code P; finish. Qed.

Lemma disconnectStereoPanner_graph st e :
  e ∈ graph (disconnectStereoPanner P st).2 → e ∈ graph st.
Proof. run_code P; finish. Qed.

Lemma disconnectStereoPanner_other st e :
  e.1 ≠ Panner → e ∈ graph st → e ∈ graph (disconnectStereoPanner P st).2.
Proof. run_code P; finish. Qed.

Lemma disconnectStereoPanner_absent st :
  stereoPannerNode st = None → disconnectStereoPanner P st = (Ok tt, st).
Proof. intros H. run_code P; finish. Qed.

End Steps.

Ltac by_mode mode :=
  unfold can_connect, target, through_pan in *;
  destruct (String.eqb mode "stereopanner") eqn:?; simpl in *.

Ltac use_assumptions :=
  repeat match goal with
  | H : _ ∧ _ |- _ => destruct H
  | H : true = true → _ |- _ => specialize (H eq_refl)
  | H : false = true → _ |- _ => clear H
  | H : panner_available _ _ |- _ => destruct H as [H|H]
  | H : context_available _ _ |- _ => destruct H as [H|H]
  | H : ∀ n, _ ∧ _ |- _ =>
      pose proof (fun n => proj1 (H n)); pose proof (fun n => proj2 (H n));
      clear H
  end.

Section Reconnect.

Variable P : Platform.

Lemma reconnect_cb_total mode s st : (reconnect_cb P mode s st).1 = Ok tt.
Proof. run_code P; finish. Qed.

(** The only write to the set inside the loop re-adds the element the loop
    is visiting. *)
Lemma reconnect_cb_sources mode s st :
  s ∈ connectedSources st →
  connectedSources (reconnect_cb P mode s st).2 = connectedSources st.
Proof. intros H. run_code P; rewrite ?Set_add_old; finish. Qed.

Lemma reconnect_cb_graph_mono mode s st e :
  e ∈ graph st → e ∈ graph (reconnect_cb P mode s st).2.
Proof. run_code P; finish. Qed.

Lemma reconnect_cb_graph_upper mode s st e :
  e ∈ graph (reconnect_cb P mode s st).2 →
  e ∈ graph st ∨ e = (Src s, target mode) ∨
  (through_pan mode = true ∧ e = (Panner, Destination)).
Proof. by_mode mode; run_code P; finish. Qed.

Lemma reconnect_cb_wires mode s st :
  audioContext st ≠ None → can_connect P mode s st →
  (Src s, target mode) ∈ graph (reconnect_cb P mode s st).2 ∧
  (through_pan mode = true →
   (Panner, Destination) ∈ graph (reconnect_cb P mode s st).2).
Proof.
  intros Hctx Hcan. by_mode mode; use_assumptions; run_code P; finish.
Qed.

Lemma reconnect_cb_warns mode s st :
  audioContext st ≠ None →
  (through_pan mode = true → panner_available P st) →
  (∀ n, P n (Connect (Src s) (target mode)) = true) →
  reconnect_warning mode s ∈ log (reconnect_cb P mode s st).2.
Proof.
  intros Hctx Hpan Hthrow. unfold reconnect_warning.
  by_mode mode; use_assumptions; run_code P; finish.
Qed.

Lemma reconnect_cb_attempts mode s st :
  audioContext st ≠ None →
  (through_pan mode = true → panner_available P st) →
  Connect (Src s) (target mode) ∈ calls_since st (reconnect_cb P mode s st).2.
Proof.
  intros Hctx Hpan. unfold calls_since.
  by_mode mode; use_assumptions; run_code P;
    rewrite <- ?app_assoc, ?drop_app_length; finish.
Qed.

Lemma reconnect_cb_pan mode s st :
  getCurrentPanValue (reconnect_cb P mode s st).2 = getCurrentPanValue st.
Proof. unfold getCurrentPanValue. run_code P; finish. Qed.

Lemma panner_available_stays st st' :
  panner_stays st st' → panner_available P st → panner_available P st'.
Proof. intros H [?|?]; [left; by apply H|by right]. Qed.

End Reconnect.

(** *** The two loops of a mode switch *)

Section Switch.

Variable P : Platform.

Lemma can_connect_stays mode s st st' :
  panner_stays st st' → can_connect P mode s st → can_connect P mode s st'.
Proof.
  intros H [H1 H2]. split; [done|]. intros Hm.
  destruct (H2 Hm) as [Hp ?]. split; [|done].
  by apply (panner_available_stays P st st').
Qed.

Lemma disconnect_loop_total l st : (forEach l (disconnect_cb P) st).1 = Ok tt.
Proof. apply forEach_total, disconnect_cb_total. Qed.

Lemma disconnect_loop_frame l st :
  let st' := (forEach l (disconnect_cb P) st).2 in
  audioContext st' = audioContext st ∧
  stereoPannerNode st' = stereoPannerNode st ∧
  currentAudioMode st' = currentAudioMode st ∧
  connectedSources st' = connectedSources st.
Proof.
  apply (forEach_inv _ (disconnect_cb_total P)
           (fun st' => audioContext st' = audioContext st ∧
                       stereoPannerNode st' = stereoPannerNode st ∧
                       currentAudioMode st' = currentAudioMode st ∧
                       connectedSources st' = connectedSources st)); [|done].
  intros s st1 _ (H1 & H2 & H3 & H4).
  destruct (disconnect_cb_frame P s st1) as (? & ? & ? & ?).
  repeat split; congruence.
Qed.

Lemma disconnect_loop_graph l st e :
  e ∈ graph (forEach l (disconnect_cb P) st).2 → e ∈ graph st.
Proof.
  revert e.
  apply (forEach_inv _ (disconnect_cb_total P)
           (fun st' => ∀ e, e ∈ graph st' → e ∈ graph st)); [|done].
  intros s st1 _ H e He. by apply H, (disconnect_cb_graph P s).
Qed.

Lemma disconnect_loop_other l st e :
  (∀ s, s ∈ l → e.1 ≠ Src s) → e ∈ graph st →
  e ∈ graph (forEach l (disconnect_cb P) st).2.
Proof.
  intros Hl He.
  apply (forEach_inv _ (disconnect_cb_total P) (fun st' => e ∈ graph st'));
    [|done].
  intros s st1 Hs H. apply disconnect_cb_other; auto.
Qed.

Lemma disconnect_loop_removes l st s d :
  s ∈ l → can_disconnect P s →
  (Src s, d) ∉ graph (forEach l (disconnect_cb P) st).2.
Proof.
  intros Hs Hcan.
  apply (forEach_each _ (disconnect_cb_total P)
           (fun _ => True) (fun st' => (Src s, d) ∉ graph st') l s); try done.
  - intros st1 _. by apply disconnect_cb_removes.
  - intros s' st1 _ _ H He. by apply H, (disconnect_cb_graph P s').
Qed.

Lemma disconnect_loop_warns l st s :
  s ∈ l → (∀ n, P n (Disconnect (Src s)) = true) →
  disconnect_warning s ∈ log (forEach l (disconnect_cb P) st).2.
Proof.
  intros Hs Hthrow.
  apply (forEach_each _ (disconnect_cb_total P)
           (fun _ => True) (fun st' => disconnect_warning s ∈ log st') l s);
    try done.
  - intros st1 _. by apply disconnect_cb_warns.
  - intros s' st1 _ _ H.
    pose proof (respects_disconnect_cb P _ steps_ok_log_grows s' st1) as Hg.
    eapply elem_of_prefix; [exact H|exact Hg].
Qed.

Lemma reconnect_loop_total mode l st :
  (forEach l (reconnect_cb P mode) st).1 = Ok tt.
Proof. apply forEach_total, reconnect_cb_total. Qed.

Lemma reconnect_loop_sources mode l st :
  (∀ s, s ∈ l → s ∈ connectedSources st) →
  connectedSources (forEach l (reconnect_cb P mode) st).2 = connectedSources st.
Proof.
  intros Hl.
  apply (forEach_inv _ (reconnect_cb_total P mode)
           (fun st' => connectedSources st' = connectedSources st)); [|done].
  intros s st1 Hs H. rewrite <- H. apply reconnect_cb_sources.
  rewrite H. auto.
Qed.

Lemma reconnect_loop_graph_mono mode l st e :
  e ∈ graph st → e ∈ graph (forEach l (reconnect_cb P mode) st).2.
Proof.
  apply (forEach_inv _ (reconnect_cb_total P mode) (fun st' => e ∈ graph st')).
  intros s st1 _. apply reconnect_cb_graph_mono.
Qed.

Lemma reconnect_loop_graph_upper mode l st e :
  e ∈ graph (forEach l (reconnect_cb P mode) st).2 →
  e ∈ graph st ∨ (∃ s, s ∈ l ∧ e = (Src s, target mode)) ∨
  (through_pan mode = true ∧ l ≠ [] ∧ e = (Panner, Destination)).
Proof.
  revert st. induction l as [|s l IH]; intros st; [by left|].
  rewrite (forEach_cons _ (reconnect_cb_total P mode)). intros He.
  destruct (IH _ He) as [H|[(s' & Hs' & ->)|(? & _ & ->)]].
  - destruct (reconnect_cb_graph_upper P mode s st e H) as [?|[->|[? ->]]].
    + by left.
    + right; left. exists s. split; [apply list_elem_of_here|done].
    + right; right. done.
  - right; left. exists s'. split; [by apply list_elem_of_further|done].
  - right; right. done.
Qed.

Lemma reconnect_loop_wires mode l st s :
  s ∈ l → audioContext st ≠ None → can_connect P mode s st →
  let st' := (forEach l (reconnect_cb P mode) st).2 in
  (Src s, target mode) ∈ graph st' ∧
  (through_pan mode = true → (Panner, Destination) ∈ graph st').
Proof.
  intros Hs Hctx Hcan.
  apply (forEach_each _ (reconnect_cb_total P mode)
           (fun st' => audioContext st' ≠ None ∧ can_connect P mode s st')
           (fun st' => (Src s, target mode) ∈ graph st' ∧
                       (through_pan mode = true →
                        (Panner, Destination) ∈ graph st')) l s); try done.
  - intros s' st1 _ [H1 H2]. split.
    + by apply (respects_reconnect_cb P _ steps_ok_context_stays mode s' st1).
    + apply (can_connect_stays mode s st1); [|done].
      apply (respects_reconnect_cb P _ steps_ok_panner_stays).
  - intros st1 [H1 H2]. by apply reconnect_cb_wires.
  - intros s' st1 _ _ [H1 H2]. split.
    + by apply reconnect_cb_graph_mono.
    + intros Hm. by apply reconnect_cb_graph_mono, H2.
Qed.

Lemma reconnect_loop_warns mode l st s :
  s ∈ l → audioContext st ≠ None →
  (through_pan mode = true → panner_available P st) →
  (∀ n, P n (Connect (Src s) (target mode)) = true) →
  reconnect_warning mode s ∈ log (forEach l (reconnect_cb P mode) st).2.
Proof.
  intros Hs Hctx Hpan Hthrow.
  apply (forEach_each _ (reconnect_cb_total P mode)
           (fun st' => audioContext st' ≠ None ∧
                       (through_pan mode = true → panner_available P st'))
           (fun st' => reconnect_warning mode s ∈ log st') l s); try done.
  - intros s' st1 _ [H1 H2]. split.
    + by apply (respects_reconnect_cb P _ steps_ok_context_stays mode s' st1).
    + intros Hm. apply (panner_available_stays P st1); [|auto].
      apply (respects_reconnect_cb P _ steps_ok_panner_stays).
  - intros st1 [H1 H2]. by apply reconnect_cb_warns.
  - intros s' st1 _ _ H.
    pose proof (respects_reconnect_cb P _ steps_ok_log_grows mode s' st1) as Hg.
    eapply elem_of_prefix; [exact H|exact Hg].
Qed.

Lemma reconnect_loop_attempts mode l st s :
  s ∈ l → audioContext st ≠ None →
  (through_pan mode = true → panner_available P st) →
  Connect (Src s) (target mode) ∈
    calls_since st (forEach l (reconnect_cb P mode) st).2.
Proof.
  intros Hs Hctx Hpan. unfold calls_since.
  apply (forEach_each _ (reconnect_cb_total P mode)
           (fun st' => audioContext st' ≠ None ∧
                       (through_pan mode = true → panner_available P st') ∧
                       (length (calls st) ≤ length (calls st'))%nat)
           (fun st' => Connect (Src s) (target mode) ∈
                         drop (length (calls st)) (calls st')) l s);
    try done.
  - intros s' st1 _ (H1 & H2 & H3). repeat split.
    + by apply (respects_reconnect_cb P _ steps_ok_context_stays mode s' st1).
    + intros Hm. apply (panner_available_stays P st1); [|auto].
      apply (respects_reconnect_cb P _ steps_ok_panner_stays).
    + etrans; [exact H3|]. apply prefix_length.
      apply (respects_reconnect_cb P _ steps_ok_calls_grow).
  - intros st1 (H1 & H2 & H3).
    pose proof (reconnect_cb_attempts P mode s st1 H1 H2) as Ha.
    unfold calls_since in Ha.
    apply list_elem_of_lookup in Ha as [i Hi].
    rewrite lookup_drop in Hi.
    apply list_elem_of_lookup.
    exists (length (calls st1) - length (calls st) + i).
    rewrite lookup_drop. rewrite <- Hi. f_equal. lia.
  - intros s' st1 _ _ H. eapply prefix_drop_elem; [|exact H].
    apply (respects_reconnect_cb P _ steps_ok_calls_grow).
Qed.

Lemma reconnect_loop_pan mode l st :
  getCurrentPanValue (forEach l (reconnect_cb P mode) st).2 = getCurrentPanValue st.
Proof.
  apply (forEach_inv _ (reconnect_cb_total P mode)
           (fun st' => getCurrentPanValue st' = getCurrentPanValue st)); [|done].
  intros s st1 _ H. by rewrite reconnect_cb_pan.
Qed.

End Switch.

(** *** [setAudioMode] as a whole *)

Section ModeSwitch.

Variable P : Platform.

Lemma disconnectAllSources_run st :
  _disconnectAllSources P st =
  disconnectStereoPanner P (forEach (connectedSources st) (disconnect_cb P) st).2.
Proof.
  unfold _disconnectAllSources.
  rewrite (bind_ok _ _ st tt); [done|]. apply disconnect_loop_total.
Qed.

Lemma disconnectAllSources_total st : (_disconnectAllSources P st).1 = Ok tt.
Proof. rewrite disconnectAllSources_run. apply disconnectStereoPanner_total. Qed.

Lemma setAudioMode_run mode st :
  setAudioMode P mode st =
  match getAudioContext P (disconnected_for P mode st) with
  | (Ok _, st4) =>
      (Ok tt,
       (logger LInfo "Audio-Modus erfolgreich geändert:" (PText mode)
          (forEach (connectedSources st4) (reconnect_cb P mode) st4).2).2)
  | (Throw e, st4) =>
      (Throw e,
       (logger LError "Fehler beim Ändern des Audio-Modus:" (PError e) st4).2)
  end.
Proof.
  unfold setAudioMode, disconnected_for, _reconnectSourcesWithMode,
    try_catch, bind, reading, modify, logger, throw.
  simpl. set (st0 := set_log _ st).
  pose proof (disconnectAllSources_total st0) as Hd.
  destruct (_disconnectAllSources P st0) as [[[]|e] st2]; simpl in *;
    [|discriminate].
  destruct (getAudioContext P _) as [[[]|e] st4]; simpl; [|done].
  pose proof (reconnect_loop_total P mode (connectedSources st4) st4) as Ht.
  destruct (forEach _ _ st4) as [[[]|e] st5]; simpl in *; [done|discriminate].
Qed.

Lemma disconnected_frame mode st :
  let st' := disconnected_for P mode st in
  audioContext st' = audioContext st ∧
  stereoPannerNode st' = stereoPannerNode st ∧
  connectedSources st' = connectedSources st ∧
  currentAudioMode st' = mode.
Proof.
  unfold disconnected_for. rewrite disconnectAllSources_run. simpl.
  match goal with
  | |- context [disconnectStereoPanner P ?x] =>
      destruct (disconnectStereoPanner_frame P x) as (-> & -> & _ & ->)
  end.
  match goal with
  | |- context [forEach ?l _ ?x] =>
      destruct (disconnect_loop_frame P l x) as (-> & -> & _ & ->)
  end.
  done.
Qed.

Lemma disconnected_graph mode st e :
  e ∈ graph (disconnected_for P mode st) → e ∈ graph st.
Proof.
  unfold disconnected_for. rewrite disconnectAllSources_run. simpl.
  intros H%disconnectStereoPanner_graph%disconnect_loop_graph. done.
Qed.

Lemma disconnected_other mode st e :
  e ∈ graph st →
  (∀ s, s ∈ connectedSources st → e.1 ≠ Src s) →
  (e.1 = Panner → stereoPannerNode st = None) →
  e ∈ graph (disconnected_for P mode st).
Proof.
  intros He Hs Hp.
  unfold disconnected_for. rewrite disconnectAllSources_run. simpl.
  match goal with
  | |- context [forEach ?l _ ?x] =>
      pose proof (disconnect_loop_other P l x e Hs He) as H1;
      pose proof (disconnect_loop_frame P l x) as (_ & H2 & _)
  end.
  destruct (decide (e.1 = Panner)) as [Heq|Hne].
  - rewrite disconnectStereoPanner_absent; [done|].
    rewrite H2. by apply Hp.
  - by apply disconnectStereoPanner_other.
Qed.

Lemma disconnected_removes mode st s d :
  s ∈ connectedSources st → can_disconnect P s →
  (Src s, d) ∉ graph (disconnected_for P mode st).
Proof.
  intros Hs Hcan.
  unfold disconnected_for. rewrite disconnectAllSources_run. simpl.
  intros H%disconnectStereoPanner_graph. revert H.
  by apply disconnect_loop_removes.
Qed.

Lemma disconnected_warns mode st s :
  s ∈ connectedSources st → (∀ n, P n (Disconnect (Src s)) = true) →
  disconnect_warning s ∈ log (disconnected_for P mode st).
Proof.
  intros Hs Hthrow.
  unfold disconnected_for. rewrite disconnectAllSources_run. simpl.
  eapply elem_of_prefix;
    [|apply (respects_disconnectStereoPanner P _ steps_ok_log_grows)].
  by apply disconnect_loop_warns.
Qed.

Lemma disconnected_grows R mode st :
  steps_ok R → (∀ st mode, R st (set_currentAudioMode mode st)) →
  R st (disconnected_for P mode st).
Proof.
  intros HR Hmode. unfold disconnected_for.
  eapply (ok_trans R HR); [apply (ok_log R HR)|].
  eapply (ok_trans R HR); [apply (respects_disconnectAllSources P R HR)|].
  apply Hmode.
Qed.

End ModeSwitch.

Lemma elem_of_drop_le {A} (l : list A) n0 n x :
  (n0 ≤ n)%nat → x ∈ drop n l → x ∈ drop n0 l.
Proof.
  intros Hn Hx. apply list_elem_of_lookup in Hx as [i Hi].
  rewrite lookup_drop in Hi. apply list_elem_of_lookup.
  exists (n - n0 + i). rewrite lookup_drop. rewrite <- Hi. f_equal. lia.
Qed.

Section ModeFacts.

Variable P : Platform.

(** The two ways a mode switch can end: the audio context is there and the
    reconnect loop runs to its end, or the context cannot be created and the
    error leaves [setAudioMode]. *)
Lemma setAudioMode_cases mode st :
  let d := disconnected_for P mode st in
  (∃ st4,
      getAudioContext P d = (Ok tt, st4) ∧
      audioContext st4 ≠ None ∧
      stereoPannerNode st4 = stereoPannerNode st ∧
      connectedSources st4 = connectedSources st ∧
      currentAudioMode st4 = mode ∧
      graph st4 = graph d ∧
      log_grows d st4 ∧ calls_grow d st4 ∧
      setAudioMode P mode st =
        (Ok tt,
         (logger LInfo "Audio-Modus erfolgreich geändert:" (PText mode)
            (forEach (connectedSources st) (reconnect_cb P mode) st4).2).2))
  ∨
  (∃ st4,
      getAudioContext P d = (Throw (Thrown NewAudioContext), st4) ∧
      audioContext st = None ∧
      stereoPannerNode st4 = stereoPannerNode st ∧
      connectedSources st4 = connectedSources st ∧
      currentAudioMode st4 = mode ∧
      graph st4 = graph d ∧
      setAudioMode P mode st =
        (Throw (Thrown NewAudioContext),
         (logger LError "Fehler beim Ändern des Audio-Modus:"
                 (PError (Thrown NewAudioContext)) st4).2)).
Proof.
  intros d. rewrite setAudioMode_run. fold d.
  destruct (disconnected_frame P mode st) as (Hc & Hp & Hs & Hm). fold d in Hc, Hp, Hs, Hm.
  destruct (getAudioContext_frame P d) as (Hp' & Hm' & Hs' & Hg').
  pose proof (respects_getAudioContext P _ steps_ok_log_grows d) as Hl.
  pose proof (respects_getAudioContext P _ steps_ok_calls_grow d) as Hk.
  pose proof (getAudioContext_created P d) as Hok.
  pose proof (getAudioContext_throws P d) as Hthrow.
  destruct (getAudioContext P d) as [[[]|e] st4]; simpl in *.
  - left. exists st4. rewrite Hs', Hs. repeat split; try congruence; auto.
  - right. destruct (Hthrow e eq_refl) as (-> & Hnone & _).
    exists st4. repeat split; congruence.
Qed.

Lemma setAudioMode_mode mode st :
  currentAudioMode (setAudioMode P mode st).2 = mode.
Proof.
  destruct (setAudioMode_cases mode st)
    as [(st4 & _ & _ & _ & _ & Hm & _ & _ & _ & ->)|(st4 & _ & _ & _ & _ & Hm & _ & ->)];
    simpl; [|done].
  rewrite <- Hm.
  apply (respects_forEach _ steps_ok_keeps_mode).
  intros s. apply (respects_reconnect_cb P _ steps_ok_keeps_mode).
Qed.

Lemma setAudioMode_sources mode st :
  connectedSources (setAudioMode P mode st).2 = connectedSources st.
Proof.
  destruct (setAudioMode_cases mode st)
    as [(st4 & _ & _ & _ & Hs & _ & _ & _ & _ & ->)|(st4 & _ & _ & _ & Hs & _ & _ & ->)];
    simpl; [|done].
  rewrite <- Hs at 2. apply reconnect_loop_sources.
  intros s. by rewrite Hs.
Qed.

Lemma setAudioMode_returns mode st :
  context_available P st → (setAudioMode P mode st).1 = Ok tt.
Proof.
  intros Hctx.
  destruct (setAudioMode_cases mode st)
    as [(st4 & _ & _ & _ & _ & _ & _ & _ & _ & ->)|(st4 & Hg & Hnone & _)];
    [done|].
  exfalso.
  assert (Hav : context_available P (disconnected_for P mode st)).
  { destruct Hctx as [H|H]; [|by right]. left.
    by destruct (disconnected_frame P mode st) as (-> & _). }
  apply (getAudioContext_returns P) in Hav. rewrite Hg in Hav. discriminate.
Qed.

(** The only exception that leaves [setAudioMode] is the failure to create
    the audio context. *)
Lemma setAudioMode_throws mode st e :
  (setAudioMode P mode st).1 = Throw e →
  e = Thrown NewAudioContext ∧ audioContext st = None.
Proof.
  destruct (setAudioMode_cases mode st)
    as [(st4 & _ & _ & _ & _ & _ & _ & _ & _ & ->)|(st4 & _ & Hnone & _ & _ & _ & _ & ->)];
    simpl; [discriminate|].
  by intros [= <-].
Qed.

Lemma setAudioMode_pan mode st :
  getCurrentPanValue (setAudioMode P mode st).2 = getCurrentPanValue st.
Proof.
  destruct (setAudioMode_cases mode st)
    as [(st4 & _ & _ & Hp & _ & _ & _ & _ & _ & ->)|(st4 & _ & _ & Hp & _ & _ & _ & ->)];
    simpl.
  - change (getCurrentPanValue
              (forEach (connectedSources st) (reconnect_cb P mode) st4).2 =
            getCurrentPanValue st).
    rewrite reconnect_loop_pan. unfold getCurrentPanValue. by rewrite Hp.
  - unfold getCurrentPanValue. simpl. by rewrite Hp.
Qed.

(** A tracked source whose own connect calls succeed is connected by the
    rule of the new mode, whatever happened to the other sources. *)
Lemma setAudioMode_wires mode st s :
  s ∈ connectedSources st →
  (setAudioMode P mode st).1 = Ok tt →
  can_connect P mode s st →
  (Src s, target mode) ∈ graph (setAudioMode P mode st).2 ∧
  (through_pan mode = true →
   (Panner, Destination) ∈ graph (setAudioMode P mode st).2).
Proof.
  intros Hs. 
  destruct (setAudioMode_cases mode st)
    as [(st4 & _ & Hc & Hp & _ & _ & _ & _ & _ & ->)|(st4 & _ & _ & _ & _ & _ & _ & ->)];
    simpl; [intros _ Hcan|discriminate].
  apply (reconnect_loop_wires P mode (connectedSources st) st4 s); try done.
  destruct Hcan as [H1 H2]. split; [done|]. intros Hm.
  destruct (H2 Hm) as [[H|H] ?]; (split; [|done]).
  - left. by rewrite Hp.
  - by right.
Qed.

(** A tracked source that could be disconnected has no connection left
    other than the one the new mode asks for. *)
Lemma setAudioMode_only_target mode st s d :
  s ∈ connectedSources st → can_disconnect P s →
  (Src s, d) ∈ graph (setAudioMode P mode st).2 → d = target mode.
Proof.
  intros Hs Hcan.
  destruct (setAudioMode_cases mode st)
    as [(st4 & _ & _ & _ & _ & _ & Hg & _ & _ & ->)|(st4 & _ & _ & _ & _ & _ & Hg & ->)];
    simpl.
  - intros [H|[(s' & _ & H)|(_ & _ & H)]]%reconnect_loop_graph_upper.
    + rewrite Hg in H. by apply disconnected_removes in H.
    + congruence.
    + discriminate.
  - rewrite Hg. intros H. by apply disconnected_removes in H.
Qed.

Lemma setAudioMode_warns_disconnect mode st s :
  s ∈ connectedSources st → (∀ n, P n (Disconnect (Src s)) = true) →
  disconnect_warning s ∈ log (setAudioMode P mode st).2.
Proof.
  intros Hs Hthrow.
  pose proof (disconnected_warns P mode st s Hs Hthrow) as Hw.
  destruct (setAudioMode_cases mode st)
    as [(st4 & _ & _ & _ & _ & _ & _ & Hl & _ & ->)|(st4 & Hg & _ & _ & _ & _ & _ & ->)];
    simpl.
  - apply elem_of_app. left.
    eapply elem_of_prefix;
      [|apply (respects_forEach _ steps_ok_log_grows); intros ?;
        apply (respects_reconnect_cb P _ steps_ok_log_grows)].
    eapply elem_of_prefix; [exact Hw|exact Hl].
  - apply elem_of_app. left.
    pose proof (respects_getAudioContext P _ steps_ok_log_grows
                  (disconnected_for P mode st)) as Hl.
    rewrite Hg in Hl. eapply elem_of_prefix; [exact Hw|exact Hl].
Qed.

Lemma setAudioMode_warns_reconnect mode st s :
  s ∈ connectedSources st →
  (setAudioMode P mode st).1 = Ok tt →
  (through_pan mode = true → panner_available P st) →
  (∀ n, P n (Connect (Src s) (target mode)) = true) →
  reconnect_warning mode s ∈ log (setAudioMode P mode st).2.
Proof.
  intros Hs.
  destruct (setAudioMode_cases mode st)
    as [(st4 & _ & Hc & Hp & _ & _ & _ & _ & _ & ->)|(st4 & _ & _ & _ & _ & _ & _ & ->)];
    simpl; [intros _ Hpan Hthrow|discriminate].
  apply elem_of_app. left.
  apply reconnect_loop_warns; try done.
  intros Hm. destruct (Hpan Hm) as [H|H]; [left; by rewrite Hp|by right].
Qed.

Lemma setAudioMode_attempts mode st s :
  s ∈ connectedSources st →
  (setAudioMode P mode st).1 = Ok tt →
  (through_pan mode = true → panner_available P st) →
  Connect (Src s) (target mode) ∈ calls_since st (setAudioMode P mode st).2.
Proof.
  intros Hs.
  pose proof (disconnected_grows P _ mode st steps_ok_calls_grow
                calls_grow_mode) as Hk0.
  destruct (setAudioMode_cases mode st)
    as [(st4 & _ & Hc & Hp & _ & _ & _ & _ & Hk & ->)|(st4 & _ & _ & _ & _ & _ & _ & ->)];
    simpl; [intros _ Hpan|discriminate].
  unfold calls_since. simpl.
  apply (elem_of_drop_le _ _ (length (calls st4))).
  - apply prefix_length. by etrans.
  - apply reconnect_loop_attempts; try done.
    intros Hm. destruct (Hpan Hm) as [H|H]; [left; by rewrite Hp|by right].
Qed.

End ModeFacts.

(** *** Single-source operations and the middleware handler *)

Section Operations.

Variable P : Platform.

Lemma setPanValue_immediate v st :
  (setPanValue P v None st).1 = Ok tt →
  getCurrentPanValue (setPanValue P v None st).2 = Math_fround (clamp v).
Proof. unfold getCurrentPanValue. run_code P; finish. Qed.

Lemma setPanValue_scheduled v t st :
  (setPanValue P v (Some t) st).1 = Ok tt →
  ∃ n, stereoPannerNode (setPanValue P v (Some t) st).2 = Some n ∧
       last (param_events (pan n)) = Some (Math_fround (clamp v), t).
Proof.
  run_code P; intros; simplify_eq; eexists; (split; [reflexivity|]);
    simpl; first [apply last_snoc|reflexivity].
Qed.

(** The pan write is the last platform call of a [setPanValue] that
    returns. *)
Lemma setPanValue_last_call v w st :
  (setPanValue P v w st).1 = Ok tt →
  last (calls (setPanValue P v w st).2) =
    Some (match w with
          | None => PanSetValue (clamp v)
          | Some t => PanSetValueAtTime (clamp v) t
          end).
Proof.
  destruct w as [t|]; run_code P; intros; simplify_eq; simpl;
    apply last_snoc.
Qed.

Lemma setPanValue_returns v w st :
  context_available P st → panner_available P st →
  (∀ n, P n (PanSetValue (clamp v)) = false) →
  (∀ n t, P n (PanSetValueAtTime (clamp v) t) = false) →
  (setPanValue P v w st).1 = Ok tt.
Proof.
  intros Hc Hp H1 H2. destruct w as [t|]; [specialize (fun n => H2 n t)|];
    use_assumptions; run_code P; finish.
Qed.

Lemma connectAudioSource_tracks s st :
  (getAudioContext P st).1 = Ok tt →
  let st' := (connectAudioSource P s st).2 in
  connectedSources st' = Set_add s (connectedSources st) ∧
  audioContext st' ≠ None ∧
  currentAudioMode st' = currentAudioMode st.
Proof. run_code P; rewrite ?Set_add_twice; finish. Qed.

Lemma connectAudioSource_first_call s st :
  audioContext st ≠ None →
  ∃ rest, calls (connectAudioSource P s st).2 =
          (calls st ++ first_wiring_call (currentAudioMode st) s st :: rest)%list.
Proof.
  intros H. unfold first_wiring_call, through_pan.
  run_code P; rewrite <- ?app_assoc; simpl; try (eexists; reflexivity); finish.
Qed.

Lemma handleSoundOptionChange_total o st :
  (_handleSoundOptionChange P o st).1 = Ok tt.
Proof.
  unfold _handleSoundOptionChange, try_catch, bind, reading, logger,
    console_log, modify. simpl.
  destruct (setAudioMode P o _) as [[[]|e] st1]; simpl; [|done].
  repeat match goal with
         | |- context [if ?b then _ else _] => destruct b
         end; done.
Qed.

Lemma unrecognized_eqb o :
  ¬ recognized o →
  String.eqb o "default" = false ∧ String.eqb o "stereopanner" = false ∧
  String.eqb o "equalpower" = false ∧ String.eqb o "hrtf" = false.
Proof.
  intros H. unfold recognized in H.
  repeat split; apply String.eqb_neq; intros ->; apply H; set_solver.
Qed.

Lemma handleSoundOptionChange_unrecognized o st :
  ¬ recognized o →
  let st0 := (logger LInfo "Sound-Option wird geändert:"
                (PFromTo (currentAudioMode st) o) st).2 in
  (setAudioMode P o st0).1 = Ok tt →
  let st' := (_handleSoundOptionChange P o st).2 in
  unknown_option_warning o ∈ log st' ∧
  graph st' = graph (setAudioMode P o st0).2.
Proof.
  intros (H1 & H2 & H3 & H4)%unrecognized_eqb.
  unfold _handleSoundOptionChange, try_catch, bind, reading, logger,
    console_log, modify, getCurrentAudioMode. simpl.
  destruct (setAudioMode P o _) as [[[]|e] st1]; simpl; [intros _|discriminate].
  rewrite H1, H2, H3, H4. simpl. split; [|done].
  apply elem_of_app. right. by apply list_elem_of_singleton.
Qed.

Lemma handleSoundOptionChange_sources o st :
  connectedSources (_handleSoundOptionChange P o st).2 = connectedSources st.
Proof.
  unfold _handleSoundOptionChange, try_catch, bind, reading, logger,
    console_log, modify, getCurrentAudioMode. simpl.
  match goal with
  | |- context [setAudioMode P o ?x] =>
      pose proof (setAudioMode_sources P o x) as Hs
  end.
  destruct (setAudioMode P o _) as [[[]|e] st1]; simpl in *; [|done].
  repeat match goal with
         | |- context [if ?b then _ else _] => destruct b
         end; done.
Qed.

(** **** What holds in every reachable state *)

Lemma api_keeps_sources_without_context c st :
  audioContext st = None →
  audioContext (api P c st).2 = None →
  connectedSources (api P c st).2 = connectedSources st.
Proof.
  intros Hnone. destruct c as [| | ? [?|] | | | | | |]; simpl.
  - run_code P; finish.
  - run_code P; finish.
  - run_code P; finish.
  - run_code P; finish.
  - run_code P; finish.
  - run_code P; finish.
  - intros _. apply setAudioMode_sources.
  - run_code P; finish.
  - unfold initAudioContext. run_code P; finish.
  - intros _. apply handleSoundOptionChange_sources.
Qed.

Lemma api_State_ok c st : State_ok st → State_ok (api P c st).2.
Proof.
  intros [Hnd Hctx]. split.
  - revert Hnd. apply (api_respects P _ c steps_ok_nodup_stays).
    intros _. apply nodup_stays_mode.
  - intros Hne.
    destruct (audioContext (api P c st).2) eqn:Hafter; [done|].
    destruct (audioContext st) eqn:Hbefore.
    + exfalso.
      apply (api_respects P _ c steps_ok_context_stays
               (fun _ => context_stays_mode) st); [by rewrite Hbefore|done].
    + rewrite api_keeps_sources_without_context in Hne by done.
      by apply Hctx in Hne.
Qed.

Lemma reachable_State_ok st : reachable P st → State_ok st.
Proof.
  intros [cs ->].
  assert (H : ∀ st0, State_ok st0 → State_ok (run P cs st0)).
  { induction cs as [|c cs IH]; intros st0 H0; [done|].
    simpl. apply IH. by apply api_State_ok. }
  apply H. split; simpl; [constructor|done].
Qed.

End Operations.

(** *** A source whose connect call fails, and the calls of the cycle *)

Section Cycle.

Variable P : Platform.

Lemma reconnect_cb_failed mode s s' st d :
  (∀ n, P n (Connect (Src s) (target mode)) = true) →
  (Src s, d) ∈ graph (reconnect_cb P mode s' st).2 → (Src s, d) ∈ graph st.
Proof.
  intros Hthrow. destruct (decide (s' = s)) as [->|Hne].
  - by_mode mode; run_code P; finish.
  - intros [H|[H|[_ H]]]%reconnect_cb_graph_upper; [done| |]; congruence.
Qed.

Lemma reconnect_loop_failed mode l s st d :
  (∀ n, P n (Connect (Src s) (target mode)) = true) →
  (Src s, d) ∈ graph (forEach l (reconnect_cb P mode) st).2 →
  (Src s, d) ∈ graph st.
Proof.
  intros Hthrow.
  apply (forEach_inv _ (reconnect_cb_total P mode)
           (fun st' => (Src s, d) ∈ graph st' → (Src s, d) ∈ graph st));
    [|done].
  intros s' st1 _ H H1. by apply H, (reconnect_cb_failed mode s s').
Qed.

(** The source whose reconnection fails is skipped: it stays unconnected. *)
Lemma setAudioMode_skips mode st s d :
  s ∈ connectedSources st → can_disconnect P s →
  (∀ n, P n (Connect (Src s) (target mode)) = true) →
  (Src s, d) ∉ graph (setAudioMode P mode st).2.
Proof.
  intros Hs Hcan Hthrow.
  destruct (setAudioMode_cases P mode st)
    as [(st4 & _ & _ & _ & _ & _ & Hg & _ & _ & ->)|(st4 & _ & _ & _ & _ & _ & Hg & ->)];
    simpl.
  - intros H%reconnect_loop_failed; [|done].
    rewrite Hg in H. by apply disconnected_removes in H.
  - rewrite Hg. by apply disconnected_removes.
Qed.

Lemma disconnect_cb_attempts s st :
  Disconnect (Src s) ∈ calls_since st (disconnect_cb P s st).2.
Proof.
  unfold calls_since. run_code P; rewrite drop_app_length; finish.
Qed.

Lemma disconnect_loop_attempts l s st :
  s ∈ l →
  Disconnect (Src s) ∈ calls_since st (forEach l (disconnect_cb P) st).2.
Proof.
  intros Hs. unfold calls_since.
  apply (forEach_each _ (disconnect_cb_total P)
           (fun st' => (length (calls st) ≤ length (calls st'))%nat)
           (fun st' => Disconnect (Src s) ∈ drop (length (calls st)) (calls st'))
           l s); try done.
  - intros s' st1 _ H. etrans; [exact H|]. apply prefix_length.
    apply (respects_disconnect_cb P _ steps_ok_calls_grow).
  - intros st1 H. eapply elem_of_drop_le; [exact H|].
    apply disconnect_cb_attempts.
  - intros s' st1 _ _ H. eapply prefix_drop_elem; [|exact H].
    apply (respects_disconnect_cb P _ steps_ok_calls_grow).
Qed.

Lemma setAudioMode_disconnect_attempts mode st s :
  s ∈ connectedSources st →
  Disconnect (Src s) ∈ calls_since st (setAudioMode P mode st).2.
Proof.
  intros Hs. unfold calls_since.
  eapply prefix_drop_elem.
  - assert (H : calls_grow (disconnected_for P mode st) (setAudioMode P mode st).2).
    { destruct (setAudioMode_cases P mode st)
        as [(st4 & _ & _ & _ & _ & _ & _ & _ & Hk & ->)|(st4 & Hg & _ & _ & _ & _ & _ & ->)];
        simpl.
      - unfold calls_grow. simpl. etrans; [exact Hk|].
        apply (respects_forEach _ steps_ok_calls_grow). intros ?.
        apply (respects_reconnect_cb P _ steps_ok_calls_grow).
      - pose proof (respects_getAudioContext P _ steps_ok_calls_grow
                      (disconnected_for P mode st)) as Hk.
        by rewrite Hg in Hk. }
    exact H.
  - unfold disconnected_for. rewrite disconnectAllSources_run. simpl.
    eapply prefix_drop_elem;
      [apply (respects_disconnectStereoPanner P _ steps_ok_calls_grow)|].
    by apply (disconnect_loop_attempts (connectedSources st) s
                (set_log _ st)).
Qed.

End Cycle.

(** *** Invariants along the structure of the code *)

Section HoldsFrom.

Variable P : Platform.
Variable I : State -> Prop.
Variable R : State -> State -> Prop.
Hypothesis R_refl : ∀ st, R st st.
Hypothesis R_trans : ∀ a b c, R a b → R b c → R a c.

Lemma holds_ret {A} (a : A) st : holds_from I R (ret a) st.
Proof. intros HI. split; [done|apply R_refl]. Qed.

Lemma holds_throw {A} e st : holds_from I R (@throw A e) st.
Proof. intros HI. split; [done|apply R_refl]. Qed.

Lemma holds_bind {A B} (m : M A) (k : A -> M B) st :
  holds_from I R m st →
  (∀ a st', holds_from I R (k a) st') →
  holds_from I R (bind m k) st.
Proof.
  intros Hm Hk HI. unfold bind. destruct (Hm HI) as [HI1 HR1].
  destruct (m st) as [[a|e] st1]; simpl in *; [|done].
  destruct (Hk a st1 HI1) as [HI2 HR2]. split; [done|by eapply R_trans].
Qed.

Lemma holds_try_catch {A} (m : M A) (h : Error -> M A) st :
  holds_from I R m st →
  (∀ e st', holds_from I R (h e) st') →
  holds_from I R (try_catch m h) st.
Proof.
  intros Hm Hh HI. unfold try_catch. destruct (Hm HI) as [HI1 HR1].
  destruct (m st) as [[a|e] st1]; simpl in *; [done|].
  destruct (Hh e st1 HI1) as [HI2 HR2]. split; [done|by eapply R_trans].
Qed.

Lemma holds_reading {A} (k : State -> M A) st :
  holds_from I R (k st) st → holds_from I R (reading k) st.
Proof. done. Qed.

Lemma holds_modify f st :
  (I st → I (f st) ∧ R st (f st)) → holds_from I R (modify f) st.
Proof. done. Qed.

(** A platform call: the call is recorded in any case, its effect counts
    only when the platform did not throw. *)
Lemma holds_prim c effect st :
  (I st → I (set_calls (calls st ++ [c]) st) ∧
          R st (set_calls (calls st ++ [c]) st)) →
  (P (length (calls st)) c = false → I st →
   I (effect (set_calls (calls st ++ [c]) st)) ∧
   R st (effect (set_calls (calls st ++ [c]) st))) →
  holds_from I R (prim P c effect) st.
Proof.
  intros H1 H2 HI. unfold prim.
  destruct (P (length (calls st)) c); simpl; auto.
Qed.

Lemma holds_forEach l cb st :
  (∀ s st', holds_from I R (cb s) st') →
  holds_from I R (forEach l cb) st.
Proof.
  intros Hcb. revert st. induction l as [|s l IH]; intros st; simpl.
  - apply holds_ret.
  - apply holds_bind; [apply Hcb|intros _ st'; apply IH].
Qed.

End HoldsFrom.

Ltac unfold_module :=
  unfold api, _handleSoundOptionChange, initAudioContext, setAudioMode,
    connectAudioSource, _reconnectSourcesWithMode, _disconnectAllSources,
    reconnect_cb, disconnect_cb, connectAudioThroughStereoPanner,
    Legacy.connectAudioThroughStereoPanner, disconnectStereoPanner,
    setPanValue, getStereoPannerNode, getAudioContext, pan_set_value,
    pan_setValueAtTime, connect, disconnect, logger, console_log;
  cbv beta zeta.

(** Walk down the code; [Hr] and [Ht] are reflexivity and transitivity of
    the relation, what is left are the elementary updates. *)
Ltac walk Hr Ht :=
  repeat (cbv beta zeta;
    lazymatch goal with
    | |- holds_from _ _ (bind _ _) _ =>
        apply (holds_bind _ _ Ht); [|intros ? ?]
    | |- holds_from _ _ (try_catch _ _) _ =>
        apply (holds_try_catch _ _ Ht); [|intros ? ?]
    | |- holds_from _ _ (reading _) _ => apply holds_reading
    | |- holds_from _ _ (forEach _ _) _ =>
        apply (holds_forEach _ _ Hr Ht); intros ? ?
    | |- holds_from _ _ (ret _) _ => apply (holds_ret _ _ Hr)
    | |- holds_from _ _ (throw _) _ => apply (holds_throw _ _ Hr)
    | |- holds_from _ _ (modify _) _ => apply holds_modify
    | |- holds_from _ _ (prim _ _ _) _ => apply holds_prim
    | |- holds_from _ _ (match ?x with _ => _ end) _ => destruct x eqn:?
    end).

Lemma logs_only_refl ok st : logs_only ok st st.
Proof. exists []. split; [by rewrite app_nil_r|constructor]. Qed.

Lemma logs_only_trans ok a b c :
  logs_only ok a b → logs_only ok b c → logs_only ok a c.
Proof.
  intros (l1 & H1 & Hn1) (l2 & H2 & Hn2). exists (l1 ++ l2)%list. split.
  - by rewrite H2, H1, app_assoc.
  - by apply Forall_app.
Qed.

(** *** A mode change, source by source *)

Lemma logs_only_since ok a b :
  logs_only ok a b → Forall ok (logged_since a b).
Proof.
  intros (l & H & Hall). unfold logged_since. by rewrite H, drop_app_length.
Qed.

Lemma logged_since_mono a0 a b b' x :
  log a0 `prefix_of` log a → log b `prefix_of` log b' →
  x ∈ logged_since a b → x ∈ logged_since a0 b'.
Proof.
  unfold logged_since. intros H0 Hb Hx.
  apply (elem_of_drop_le _ (length (log a0)) (length (log a))).
  - by apply prefix_length.
  - by apply (prefix_drop_elem (log b)).
Qed.

(** An attempt stays one when the state it is read from is earlier and the
    state it is read in is later. *)
Lemma attempted_mono P mode a0 a b b' s n :
  calls a0 `prefix_of` calls a → log a0 `prefix_of` log a →
  (stereoPannerNode a0 ≠ None → stereoPannerNode a ≠ None) →
  calls b `prefix_of` calls b' → log b `prefix_of` log b' →
  graph b ⊆ graph b' →
  attempted P mode a b s n → attempted P mode a0 b' s n.
Proof.
  intros Hc0 Hl0 Hp0 Hc Hl Hg (Hn & c & Hlook & Hcase).
  split. { apply prefix_length in Hc0. lia. }
  exists c. split. { by apply (prefix_lookup_Some (calls b)). }
  destruct (P n c).
  - destruct Hcase as [Hw Hc']. split.
    + by apply (logged_since_mono a0 a b b').
    + destruct Hc' as [?|(? & Hnone & ?)]; [by left|right].
      split; [done|]. split; [|done].
      destruct (stereoPannerNode a0) eqn:E; [|done].
      exfalso. apply Hp0; [done|]. done.
  - destruct Hcase as (-> & He & Hpan). split; [done|].
    split; [by apply Hg|]. intros Hm. destruct (Hpan Hm) as [Hlook' Hcase'].
    split. { by apply (prefix_lookup_Some (calls b)). }
    destruct (P (S n) (Connect Panner Destination)).
    + by apply (logged_since_mono a0 a b b').
    + by apply Hg.
Qed.

Lemma disconnected_at_mono P a0 a b b' s n :
  calls a0 `prefix_of` calls a → log a0 `prefix_of` log a →
  calls b `prefix_of` calls b' → log b `prefix_of` log b' →
  graph b' ⊆ graph b →
  disconnected_at P a b s n → disconnected_at P a0 b' s n.
Proof.
  intros Hc0 Hl0 Hc Hl Hg (Hn & Hlook & Hcase).
  split. { apply prefix_length in Hc0. lia. }
  split. { by apply (prefix_lookup_Some (calls b)). }
  destruct (P n (Disconnect (Src s))).
  - by apply (logged_since_mono a0 a b b').
  - intros d Hd. by apply (Hcase d), Hg.
Qed.

Lemma StronglySorted_app_lt (l1 l2 : list nat) (k : nat) :
  StronglySorted lt l1 → StronglySorted lt l2 →
  Forall (fun n => (n < k)%nat) l1 → Forall (fun n => (k ≤ n)%nat) l2 →
  StronglySorted lt (l1 ++ l2).
Proof.
  intros H1 H2 Hlt Hge. induction H1 as [|x l1 Hs IH Hx]; simpl; [done|].
  apply Forall_cons in Hlt as [Hxk Hlt].
  constructor; [by apply IH|].
  apply Forall_app. split; [done|].
  eapply Forall_impl; [exact Hge|]. intros n Hn. cbv beta in *. lia.
Qed.

Lemma log_grows_mode st mode : log_grows st (set_currentAudioMode mode st).
Proof. by unfold log_grows. Qed.

Ltac normalize_indices :=
  repeat match goal with
         | H : context [length (_ ++ _)] |- _ =>
             rewrite length_app in H; simpl in H
         end;
  rewrite ?Nat.add_1_r in *;
  rewrite <- ?app_assoc; simpl.

Ltac use_platform_facts :=
  repeat match goal with
         | H : ?P ?n ?c = _ |- context [?P ?n ?c] => rewrite H
         end.

(** The attempt is the call [k] places after the calls of [a]. *)
Ltac attempt_at k a :=
  exists (k + length (calls a))%nat; simpl;
  split; [rewrite length_app; simpl; lia|];
  split; [lia|];
  eexists; split;
  [ rewrite lookup_app_r by lia;
    match goal with
    | |- context [(?x - ?y)%nat] =>
        replace (x - y)%nat with k by lia
    end; reflexivity
  | use_platform_facts;
    rewrite ?drop_app_length;
    repeat split; intros;
    try (rewrite lookup_app_r by lia;
         match goal with
         | |- context [(?x - ?y)%nat] =>
             replace (x - y)%nat with (S k) by lia
         end; reflexivity);
    use_platform_facts;
    rewrite ?drop_app_length;
    first [ done | congruence | set_solver
          | left; done | right; done ] ].

Section Attempts.

Variable P : Platform.

(** One turn of the reconnect loop is one attempt. *)
Lemma reconnect_cb_attempted mode s a :
  audioContext a ≠ None →
  let b := (reconnect_cb P mode s a).2 in
  ∃ n, (length (calls a) ≤ n < length (calls b))%nat ∧
       attempted P mode a b s n.
Proof.
  intros Hctx. unfold attempted, logged_since, reconnect_warning_of.
  by_mode mode; run_code P.
  all: normalize_indices.
  all: first [ solve [attempt_at 0%nat a] | solve [attempt_at 1%nat a]
             | solve [attempt_at 2%nat a] ].
Qed.

(** The loop makes one attempt for each element, in the order of the
    list, whatever happened to the elements before. *)
Lemma reconnect_loop_attempted mode l a :
  audioContext a ≠ None →
  let b := (forEach l (reconnect_cb P mode) a).2 in
  ∃ ns, Forall2 (attempted P mode a b) l ns ∧
        StronglySorted lt ns ∧
        Forall (fun n => (length (calls a) ≤ n < length (calls b))%nat) ns.
Proof.
  revert a. induction l as [|s l IH]; intros a Hctx; cbv zeta.
  { exists []. repeat split; constructor. }
  rewrite (forEach_cons _ (reconnect_cb_total P mode)).
  destruct (reconnect_cb_attempted mode s a Hctx) as (n & [Hn1 Hn2] & Hatt).
  set (a1 := (reconnect_cb P mode s a).2) in *.
  assert (Hctx1 : audioContext a1 ≠ None).
  { by apply (respects_reconnect_cb P _ steps_ok_context_stays mode s a). }
  destruct (IH a1 Hctx1) as (ns & Hall & Hsorted & Hbounds).
  set (b := (forEach l (reconnect_cb P mode) a1).2) in *.
  assert (Hc1 : calls a `prefix_of` calls a1)
    by apply (respects_reconnect_cb P _ steps_ok_calls_grow mode s a).
  assert (Hl1 : log a `prefix_of` log a1)
    by apply (respects_reconnect_cb P _ steps_ok_log_grows mode s a).
  assert (Hp1 : stereoPannerNode a ≠ None → stereoPannerNode a1 ≠ None)
    by apply (respects_reconnect_cb P _ steps_ok_panner_stays mode s a).
  assert (Hcb : calls a1 `prefix_of` calls b).
  { apply (respects_forEach _ steps_ok_calls_grow). intros s'.
    apply (respects_reconnect_cb P _ steps_ok_calls_grow). }
  assert (Hlb : log a1 `prefix_of` log b).
  { apply (respects_forEach _ steps_ok_log_grows). intros s'.
    apply (respects_reconnect_cb P _ steps_ok_log_grows). }
  assert (Hgb : graph a1 ⊆ graph b).
  { intros e He. by apply reconnect_loop_graph_mono. }
  exists (n :: ns). split; [|split].
  - constructor.
    + by apply (attempted_mono P mode a a a1 b).
    + eapply Forall2_impl; [exact Hall|]. intros s' n' Hs'.
      by apply (attempted_mono P mode a a1 b b).
  - constructor; [done|].
    eapply Forall_impl; [exact Hbounds|]. intros n' Hn'. cbv beta in *. lia.
  - constructor.
    + apply prefix_length in Hcb. lia.
    + eapply Forall_impl; [exact Hbounds|]. intros n' Hn'. cbv beta in *.
      apply prefix_length in Hc1. lia.
Qed.

Lemma disconnect_cb_at s a :
  let b := (disconnect_cb P s a).2 in
  (length (calls b) = S (length (calls a))) ∧
  disconnected_at P a b s (length (calls a)).
Proof.
  unfold disconnected_at, logged_since, disconnect_warning.
  run_code P; rewrite length_app; simpl; (split; [lia|]);
    (split; [lia|]); (split; [apply list_lookup_middle; done|]);
    use_platform_facts; rewrite ?drop_app_length; set_solver.
Qed.

Lemma disconnect_loop_at l a :
  let b := (forEach l (disconnect_cb P) a).2 in
  ∃ ds, Forall2 (disconnected_at P a b) l ds ∧
        StronglySorted lt ds ∧
        Forall (fun n => (length (calls a) ≤ n < length (calls b))%nat) ds.
Proof.
  revert a. induction l as [|s l IH]; intros a; cbv zeta.
  { exists []. repeat split; constructor. }
  rewrite (forEach_cons _ (disconnect_cb_total P)).
  destruct (disconnect_cb_at s a) as (Hlen & Hat).
  set (a1 := (disconnect_cb P s a).2) in *.
  destruct (IH a1) as (ds & Hall & Hsorted & Hbounds).
  set (b := (forEach l (disconnect_cb P) a1).2) in *.
  assert (Hc1 : calls a `prefix_of` calls a1)
    by apply (respects_disconnect_cb P _ steps_ok_calls_grow s a).
  assert (Hl1 : log a `prefix_of` log a1)
    by apply (respects_disconnect_cb P _ steps_ok_log_grows s a).
  assert (Hcb : calls a1 `prefix_of` calls b).
  { apply (respects_forEach _ steps_ok_calls_grow). intros s'.
    apply (respects_disconnect_cb P _ steps_ok_calls_grow). }
  assert (Hlb : log a1 `prefix_of` log b).
  { apply (respects_forEach _ steps_ok_log_grows). intros s'.
    apply (respects_disconnect_cb P _ steps_ok_log_grows). }
  assert (Hgb : graph b ⊆ graph a1).
  { intros e He. by apply disconnect_loop_graph in He. }
  exists (length (calls a) :: ds). split; [|split].
  - constructor.
    + by apply (disconnected_at_mono P a a a1 b).
    + eapply Forall2_impl; [exact Hall|]. intros s' n' Hs'.
      by apply (disconnected_at_mono P a a1 b b).
  - constructor; [done|].
    eapply Forall_impl; [exact Hbounds|]. intros n' Hn'. cbv beta in *. lia.
  - constructor.
    + apply prefix_length in Hcb. lia.
    + eapply Forall_impl; [exact Hbounds|]. intros n' Hn'. cbv beta in *. lia.
Qed.

(** The disconnect phase of a mode change, source by source. *)
Lemma disconnected_accounts mode st :
  let d := disconnected_for P mode st in
  ∃ ds, Forall2 (disconnected_at P st d) (connectedSources st) ds ∧
        StronglySorted lt ds ∧
        Forall (fun n => (length (calls st) ≤ n < length (calls d))%nat) ds.
Proof.
  unfold disconnected_for. rewrite disconnectAllSources_run. simpl.
  set (st0 := set_log _ st).
  destruct (disconnect_loop_at (connectedSources st) st0)
    as (ds & Hall & Hs & Hb).
  set (b := (forEach (connectedSources st) (disconnect_cb P) st0).2) in *.
  assert (Hcb : calls b `prefix_of` calls (disconnectStereoPanner P b).2)
    by apply (respects_disconnectStereoPanner P _ steps_ok_calls_grow).
  assert (Hlb : log b `prefix_of` log (disconnectStereoPanner P b).2)
    by apply (respects_disconnectStereoPanner P _ steps_ok_log_grows).
  exists ds. split; [|split; [done|]].
  - eapply Forall2_impl; [exact Hall|]. intros s n Hat.
    apply (disconnected_at_mono P st st0 b); try done.
    + by apply prefix_app_r.
    + intros e He. by apply disconnectStereoPanner_graph in He.
  - eapply Forall_impl; [exact Hb|]. intros n Hn. cbv beta in *.
    apply prefix_length in Hcb. simpl in *. lia.
Qed.

(** A mode change, source by source: each tracked source gets its
    disconnect call, and, when the audio context is there, after all of
    these each tracked source gets its own attempt at the new connection. *)
Lemma setAudioMode_accounts mode st :
  let st' := (setAudioMode P mode st).2 in
  ∃ ds, Forall2 (disconnect_attempted P mode st st') (connectedSources st) ds ∧
        StronglySorted lt ds ∧
        ((setAudioMode P mode st).1 = Ok tt →
         ∃ ns, Forall2 (attempted P mode st st') (connectedSources st) ns ∧
               StronglySorted lt ns ∧
               StronglySorted lt (ds ++ ns)).
Proof.
  cbv zeta.
  destruct (disconnected_accounts mode st) as (ds & Hall & Hsorted & Hbounds).
  pose proof (disconnected_grows P _ mode st steps_ok_calls_grow calls_grow_mode)
    as Hcd.
  pose proof (disconnected_grows P _ mode st steps_ok_log_grows log_grows_mode)
    as Hld.
  destruct (disconnected_frame P mode st) as (_ & Hpd & _ & _).
  destruct (setAudioMode_cases P mode st)
    as [(st4 & Hget & Hctx & Hp & Hsrc & _ & Hg & Hl4 & Hc4 & ->)
       |(st4 & Hget & _ & _ & _ & _ & Hg & ->)]; simpl;
    unfold calls_grow, log_grows in *.
  - destruct (reconnect_loop_attempted mode (connectedSources st) st4 Hctx)
      as (ns & Hatt & Hns & Hnb).
    set (b := (forEach (connectedSources st) (reconnect_cb P mode) st4).2) in *.
    assert (Hc4b : calls st4 `prefix_of` calls b).
    { apply (respects_forEach _ steps_ok_calls_grow). intros s'.
      apply (respects_reconnect_cb P _ steps_ok_calls_grow). }
    assert (Hl4b : log st4 `prefix_of` log b).
    { apply (respects_forEach _ steps_ok_log_grows). intros s'.
      apply (respects_reconnect_cb P _ steps_ok_log_grows). }
    exists ds. split; [|split; [done|]].
    + eapply Forall2_impl; [exact Hall|]. intros s n (Hn & Hlook & Hcase).
      split; [done|]. split.
      { apply (prefix_lookup_Some (calls (disconnected_for P mode st))); [done|].
        simpl. etrans; [exact Hc4|exact Hc4b]. }
      destruct (P n (Disconnect (Src s))).
      * apply (logged_since_mono st st (disconnected_for P mode st)); try done.
        simpl. etrans; [exact Hl4|]. etrans; [exact Hl4b|]. by apply prefix_app_r.
      * simpl.
        intros d0 [H|[(s' & _ & [= _ ->])|(_ & _ & [=])]]%reconnect_loop_graph_upper;
          [|done].
        rewrite Hg in H. by apply Hcase in H.
    + intros _. exists ns. split; [|split; [done|]].
      * eapply Forall2_impl; [exact Hatt|]. intros s n Hs.
        apply (attempted_mono P mode st st4 b); try done.
        -- etrans; [exact Hcd|exact Hc4].
        -- etrans; [exact Hld|exact Hl4].
        -- by rewrite Hp.
        -- simpl. by apply prefix_app_r.
      * apply (StronglySorted_app_lt _ _ (length (calls st4))); try done.
        -- eapply Forall_impl; [exact Hbounds|]. intros n Hn. cbv beta in *.
           apply prefix_length in Hc4. lia.
        -- eapply Forall_impl; [exact Hnb|]. intros n Hn. cbv beta in *. lia.
  - exists ds. split; [|split; [done|discriminate]].
    eapply Forall2_impl; [exact Hall|]. intros s n (Hn & Hlook & Hcase).
    pose proof (respects_getAudioContext P _ steps_ok_calls_grow
                  (disconnected_for P mode st)) as Hc4.
    pose proof (respects_getAudioContext P _ steps_ok_log_grows
                  (disconnected_for P mode st)) as Hl4.
    unfold calls_grow, log_grows in *.
    rewrite Hget in Hc4, Hl4. simpl in Hc4, Hl4.
    split; [done|]. split.
    { by apply (prefix_lookup_Some (calls (disconnected_for P mode st))). }
    destruct (P n (Disconnect (Src s))).
    + apply (logged_since_mono st st (disconnected_for P mode st)); try done.
      simpl. etrans; [exact Hl4|]. by apply prefix_app_r.
    + simpl. rewrite Hg. intros d0 H. by apply Hcase in H.
Qed.

(** In a reachable state the attempts are there whether the change
    returned or threw: it throws only while nothing is tracked. *)
Lemma setAudioMode_accounts_reachable mode st :
  reachable P st →
  let st' := (setAudioMode P mode st).2 in
  ∃ ds ns,
    Forall2 (disconnect_attempted P mode st st') (connectedSources st) ds ∧
    Forall2 (attempted P mode st st') (connectedSources st) ns ∧
    StronglySorted lt ns ∧
    StronglySorted lt (ds ++ ns).
Proof.
  intros [_ Hreach]%reachable_State_ok. cbv zeta.
  destruct (setAudioMode_accounts mode st) as (ds & Hds & Hsorted & Hns).
  destruct (decide (connectedSources st = [])) as [Hl|Hl].
  - rewrite Hl in *. apply Forall2_nil_inv_l in Hds as ->.
    exists [], []. repeat split; constructor.
  - destruct Hns as (ns & Hatt & Hs1 & Hs2).
    { apply setAudioMode_returns. left. by apply Hreach. }
    by exists ds, ns.
Qed.

(** The warning of a source whose connect call throws, among the entries
    of this mode change. *)
Lemma setAudioMode_warns_reconnect_since mode st s ns :
  Forall2 (attempted P mode st (setAudioMode P mode st).2)
          (connectedSources st) ns →
  s ∈ connectedSources st →
  (through_pan mode = true → panner_available P st) →
  (∀ n, P n (Connect (Src s) (target mode)) = true) →
  reconnect_warning mode s ∈ logged_since st (setAudioMode P mode st).2.
Proof.
  intros Hatt Hs Hpan Hthrow.
  apply list_elem_of_lookup in Hs as [i Hi].
  destruct (Forall2_lookup_l _ _ _ _ _ Hatt Hi) as (n & _ & _ & c & _ & Hcase).
  destruct (P n c) eqn:E.
  - destruct Hcase as [Hw [->|(Hm & Hnone & Hc)]]; [exact Hw|].
    exfalso. destruct (Hpan Hm) as [Hex|Hnever]; [done|].
    destruct (Hnever n) as [H1 H2]. destruct Hc as [-> | ->]; congruence.
  - destruct Hcase as (-> & _). rewrite Hthrow in E. discriminate.
Qed.

(** What the handler logs for an option it does not know *)
Lemma setAudioMode_logs mode st :
  holds_from (fun _ => True) (logs_only not_unknown_option)
             (setAudioMode P mode) st.
Proof.
  unfold_module;
    walk (logs_only_refl not_unknown_option)
         (logs_only_trans not_unknown_option);
    intros; (split; [done|]);
    unfold logs_only; simpl; repeat case_match; simpl;
    first
      [ exists []; split; [by rewrite app_nil_r|constructor]
      | eexists [_]; split;
        [ reflexivity
        | apply Forall_singleton; unfold not_unknown_option; simpl;
          discriminate ] ].
Qed.

Lemma handleSoundOptionChange_last_entry o st :
  ¬ recognized o →
  let st0 := (logger LInfo "Sound-Option wird geändert:"
                (PFromTo (currentAudioMode st) o) st).2 in
  (setAudioMode P o st0).1 = Ok tt →
  log (_handleSoundOptionChange P o st).2
  = (log (setAudioMode P o st0).2 ++ [unknown_option_warning o])%list.
Proof.
  intros (H1 & H2 & H3 & H4)%unrecognized_eqb.
  unfold _handleSoundOptionChange, try_catch, bind, reading, logger,
    console_log, modify, getCurrentAudioMode. simpl.
  destruct (setAudioMode P o _) as [[[]|e] st1]; simpl; [intros _|discriminate].
  rewrite H1, H2, H3, H4. simpl. done.
Qed.

Lemma handler_logs_unknown o st :
  ¬ recognized o → context_available P st →
  ∃ earlier,
    logged_since st (_handleSoundOptionChange P o st).2
    = (earlier ++ [unknown_option_warning o])%list ∧
    Forall not_unknown_option earlier.
Proof.
  intros Hun Hctx.
  set (st0 := (logger LInfo "Sound-Option wird geändert:"
                 (PFromTo (currentAudioMode st) o) st).2).
  assert (Hok : (setAudioMode P o st0).1 = Ok tt).
  { apply setAudioMode_returns. exact Hctx. }
  pose proof (handleSoundOptionChange_last_entry o st Hun Hok) as Hlog.
  destruct (setAudioMode_logs o st0 I) as [_ (new & Hnew & Hall)].
  fold st0 in Hlog. rewrite Hnew in Hlog.
  exists ({| level := LInfo; message := "Sound-Option wird geändert:";
             payload := PFromTo (currentAudioMode st) o |} :: new).
  split.
  - unfold logged_since. rewrite Hlog. simpl.
    rewrite <- !app_assoc. rewrite drop_app_length. reflexivity.
  - constructor; [|done]. unfold not_unknown_option. simpl. discriminate.
Qed.

(** The wiring step of [connectAudioSource] once the context is there. *)
Lemma connectAudioSource_wiring s st :
  audioContext st ≠ None →
  let st' := (connectAudioSource P s st).2 in
  let mode := currentAudioMode st in
  ((connectAudioSource P s st).1 = Ok tt →
   Connect (Src s) (target mode) ∈ calls_since st st' ∧
   (Src s, target mode) ∈ graph st' ∧
   (through_pan mode = true →
    Connect Panner Destination ∈ calls_since st st' ∧
    (Panner, Destination) ∈ graph st')) ∧
  (∀ e, (connectAudioSource P s st).1 = Throw e →
        ∃ c, e = Thrown c ∧ last (calls st') = Some c ∧
             c ∈ calls_since st st' ∧ c ≠ NewAudioContext).
Proof.
  intros Hctx. unfold calls_since, target, through_pan.
  run_code P; simpl; rewrite <- ?app_assoc, ?drop_app_length; simpl.
  all: split;
    [intros; simplify_eq; repeat split; intros; try done; try set_solver|].
  all: intros e [=]; subst; try done.
  all: eexists; (split; [reflexivity|]).
  all: (split; [first [apply last_snoc | by rewrite last_app]|]).
  all: (split; [set_solver|discriminate]).
Qed.

End Attempts.

(** * The properties C1 to C10 *)

(** Decide a closed statement about a concrete scenario by evaluation. *)
Ltac by_computation := apply (bool_decide_unpack _); vm_compute; exact I.

(** C1, as stated, fails: [setAudioMode] returns normally although the
    connect call of a tracked source threw, and that source is left
    unconnected; and a source whose disconnect call threw keeps its
    connection to the pan node next to the new one. *)
Lemma setAudioMode_leaves_failed_source_unwired :
  (recognized "default" ∧
   outcome (setAudioMode source1_rejects_output "default")
           (panned_one_source source1_rejects_output) = Ok tt ∧
   1 ∈ connectedSources
         (after (setAudioMode source1_rejects_output "default")
                (panned_one_source source1_rejects_output)) ∧
   ¬ wired_as "default" 1
       (after (setAudioMode source1_rejects_output "default")
              (panned_one_source source1_rejects_output))) ∧
  (outcome (setAudioMode source1_stuck "default")
           (panned_one_source source1_stuck) = Ok tt ∧
   (Src 1, Panner) ∈
     graph (after (setAudioMode source1_stuck "default")
                  (panned_one_source source1_stuck)) ∧
   ¬ wired_as "default" 1
       (after (setAudioMode source1_stuck "default")
              (panned_one_source source1_stuck))).
Proof.
  split.
  - split; [unfold recognized; set_solver|].
    split; [vm_compute; reflexivity|].
    split; [vm_compute; apply list_elem_of_here|].
    intros [H _]. specialize (proj2 (H Destination) eq_refl). by_computation.
  - split; [vm_compute; reflexivity|].
    assert (Hin : (Src 1, Panner) ∈
                  graph (after (setAudioMode source1_stuck "default")
                               (panned_one_source source1_stuck)))
      by by_computation.
    split; [exact Hin|].
    intros [H _]. specialize (proj1 (H Panner) Hin). discriminate.
Qed.

(** C1, amended. After [setAudioMode(mode)] has returned normally, every
    tracked source whose disconnect call and connect calls succeed is
    connected by the rule of [mode] and by nothing else: straight to the
    output for default, equalpower and hrtf (and any other string), to the
    pan node, which feeds the output, for stereopanner. *)
Theorem setAudioMode_rewires_sources (P : Platform) (mode : string)
    (st : State) (s : Source) :
  outcome (setAudioMode P mode) st = Ok tt →
  s ∈ connectedSources (after (setAudioMode P mode) st) →
  can_disconnect P s → can_connect P mode s st →
  wired_as mode s (after (setAudioMode P mode) st).
Proof.
  simpl. intros Hok Hs Hdis Hcon. rewrite setAudioMode_sources in Hs.
  destruct (setAudioMode_wires P mode st s Hs Hok Hcon) as [Hedge Hpan].
  split; [|done]. intros d. split.
  - by apply setAudioMode_only_target.
  - by intros ->.
Qed.

Lemma setAudioMode_rewires_sources_witness :
  outcome (setAudioMode source1_rejects_output "hrtf")
          (two_sources source1_rejects_output) = Ok tt ∧
  2 ∈ connectedSources
        (after (setAudioMode source1_rejects_output "hrtf")
               (two_sources source1_rejects_output)) ∧
  can_disconnect source1_rejects_output 2 ∧
  can_connect source1_rejects_output "hrtf" 2 (two_sources source1_rejects_output) ∧
  wired_as "hrtf" 2
    (after (setAudioMode source1_rejects_output "hrtf")
           (two_sources source1_rejects_output)).
Proof.
  assert (H1 : outcome (setAudioMode source1_rejects_output "hrtf")
                       (two_sources source1_rejects_output) = Ok tt).
  { vm_compute. reflexivity. }
  assert (H2 : 2 ∈ connectedSources
                     (after (setAudioMode source1_rejects_output "hrtf")
                            (two_sources source1_rejects_output))).
  { vm_compute. apply list_elem_of_further, list_elem_of_here. }
  assert (H3 : can_disconnect source1_rejects_output 2).
  { intros n. reflexivity. }
  assert (H4 : can_connect source1_rejects_output "hrtf" 2
                 (two_sources source1_rejects_output)).
  { split; [intros n; reflexivity|discriminate]. }
  split; [exact H1|]. split; [exact H2|]. split; [exact H3|].
  split; [exact H4|].
  exact (setAudioMode_rewires_sources _ "hrtf" _ 2 H1 H2 H3 H4).
Defined.

(** C2, as stated, fails: [setAudioMode] itself records no warning for an
    unrecognized string; it throws when the audio context cannot be created;
    and a tracked source whose connect call throws is not wired as in default
    mode. *)
Lemma setAudioMode_records_no_warning :
  ¬ recognized "surround" ∧
  (outcome (setAudioMode reliable "surround") (two_sources reliable) = Ok tt ∧
   List.filter is_warning
     (log (after (setAudioMode reliable "surround") (two_sources reliable)))
   = []) ∧
  outcome (setAudioMode no_audio_context "surround") initial_state
  = Throw (Thrown NewAudioContext) ∧
  (outcome (setAudioMode source1_rejects_output "surround")
           (panned_one_source source1_rejects_output) = Ok tt ∧
   1 ∈ connectedSources (panned_one_source source1_rejects_output) ∧
   ¬ wired_as "default" 1
       (after (setAudioMode source1_rejects_output "surround")
              (panned_one_source source1_rejects_output))).
Proof.
  split.
  { unfold recognized. intros H.
    repeat (apply elem_of_cons in H as [H|H]; [discriminate|]).
    by apply elem_of_nil in H. }
  split; [split; vm_compute; reflexivity|].
  split; [vm_compute; reflexivity|].
  split; [vm_compute; reflexivity|].
  split; [vm_compute; apply list_elem_of_here|].
  intros [H _]. specialize (proj2 (H Destination) eq_refl). by_computation.
Qed.

(** C2, amended. For a string outside the four mode names the toolbox
    handler [_handleSoundOptionChange] never throws, and [setAudioMode],
    from whatever state, logs nothing that is the warning "Unbekannte
    Sound-Option:".  When the audio context exists or can be created,
    [setAudioMode] returns normally, the handler (not [setAudioMode])
    records the warning, once, as the last of the entries logged during the
    call, and every tracked source whose disconnect and connect calls
    succeed is wired as in default mode, straight to the output. *)
Theorem unrecognized_mode_handled (P : Platform) (soundOption : string)
    (st : State) :
  ¬ recognized soundOption →
  outcome (_handleSoundOptionChange P soundOption) st = Ok tt ∧
  (∀ st0, Forall not_unknown_option
            (logged_since st0 (after (setAudioMode P soundOption) st0))) ∧
  (context_available P st →
   let st' := after (_handleSoundOptionChange P soundOption) st in
   outcome (setAudioMode P soundOption) st = Ok tt ∧
   (∃ earlier,
      logged_since st st'
      = (earlier ++ [unknown_option_warning soundOption])%list ∧
      Forall not_unknown_option earlier) ∧
   ∀ s, s ∈ connectedSources st → can_disconnect P s →
        (∀ n, P n (Connect (Src s) Destination) = false) →
        wired_as "default" s st').
Proof.
  intros Hun. simpl. split; [apply handleSoundOptionChange_total|].
  split.
  { intros st0. apply logs_only_since.
    by destruct (setAudioMode_logs P soundOption st0 I). }
  intros Hctx. split; [by apply setAudioMode_returns|].
  split; [by apply handler_logs_unknown|].
  set (st0 := (logger LInfo "Sound-Option wird geändert:"
                 (PFromTo (currentAudioMode st) soundOption) st).2).
  assert (Hok : (setAudioMode P soundOption st0).1 = Ok tt).
  { apply setAudioMode_returns. exact Hctx. }
  destruct (handleSoundOptionChange_unrecognized P soundOption st Hun Hok)
    as [_ Hgraph].
  intros s Hs Hdis Hcon.
  destruct (unrecognized_eqb soundOption Hun) as (_ & Hsp & _).
  assert (Htarget : target soundOption = Destination).
  { unfold target, through_pan. by rewrite Hsp. }
  assert (Hcan : can_connect P soundOption s st0).
  { split; [by rewrite Htarget|]. unfold through_pan. by rewrite Hsp. }
  unfold wired_as. rewrite Hgraph. split; [|discriminate].
  intros d. change (target "default") with Destination.
  rewrite <- Htarget. split.
  - by apply setAudioMode_only_target.
  - intros ->. by apply setAudioMode_wires.
Qed.

Lemma unrecognized_mode_handled_witness :
  ¬ recognized "surround" ∧
  context_available source1_rejects_output (two_sources source1_rejects_output) ∧
  outcome (_handleSoundOptionChange source1_rejects_output "surround")
          (two_sources source1_rejects_output) = Ok tt ∧
  (∃ earlier,
     logged_since (two_sources source1_rejects_output)
       (after (_handleSoundOptionChange source1_rejects_output "surround")
              (two_sources source1_rejects_output))
     = (earlier ++ [unknown_option_warning "surround"])%list ∧
     Forall not_unknown_option earlier) ∧
  wired_as "default" 2
    (after (_handleSoundOptionChange source1_rejects_output "surround")
           (two_sources source1_rejects_output)).
Proof.
  assert (Hun : ¬ recognized "surround").
  { unfold recognized. intros H.
    repeat (apply elem_of_cons in H as [H|H]; [discriminate|]).
    by apply elem_of_nil in H. }
  assert (Hctx : context_available source1_rejects_output
                   (two_sources source1_rejects_output)).
  { left. vm_compute. discriminate. }
  assert (H2 : 2 ∈ connectedSources (two_sources source1_rejects_output)).
  { vm_compute. apply list_elem_of_further, list_elem_of_here. }
  split; [exact Hun|]. split; [exact Hctx|]. split; [|split].
  - exact (proj1 (unrecognized_mode_handled _ "surround" _ Hun)).
  - exact (proj1 (proj2 (proj2 (proj2 (unrecognized_mode_handled _ "surround" _
                                         Hun)) Hctx))).
  - apply (proj2 (proj2 (proj2 (proj2 (unrecognized_mode_handled _ "surround" _
                                         Hun)) Hctx)) 2 H2).
    + intros n. reflexivity.
    + intros n. reflexivity.
Defined.

(** C3. In every reachable state, a failure while [setAudioMode] reconnects
    a tracked source never leaves [setAudioMode]: the only exception that can
    leave it is the failure to create the audio context, which happens only
    while no source is tracked.  Every tracked source gets an attempt of its
    own, one after the other in the order of the set, whatever happened to
    the sources before it: the platform call of the attempt is in the trace
    of this mode change; if it did not throw the source has its connection,
    if it threw the warning for it is among the entries logged by this mode
    change.  In particular a source whose own connect calls succeed ends up
    connected, and a source whose connect call throws is logged with a
    warning and skipped (it stays unconnected). *)
Theorem reconnect_failure_isolated (P : Platform) (mode : string) (st : State) :
  reachable P st →
  let st' := after (setAudioMode P mode) st in
  (∀ e, outcome (setAudioMode P mode) st = Throw e →
        e = Thrown NewAudioContext ∧ connectedSources st = []) ∧
  (∃ ns, Forall2 (attempted P mode st st') (connectedSources st) ns ∧
         StronglySorted lt ns) ∧
  ∀ s, s ∈ connectedSources st →
    outcome (setAudioMode P mode) st = Ok tt ∧
    ((through_pan mode = true → panner_available P st) →
     Connect (Src s) (target mode) ∈ calls_since st st') ∧
    (can_connect P mode s st →
     (Src s, target mode) ∈ graph st' ∧
     (through_pan mode = true → (Panner, Destination) ∈ graph st')) ∧
    ((through_pan mode = true → panner_available P st) →
     (∀ n, P n (Connect (Src s) (target mode)) = true) →
     reconnect_warning mode s ∈ logged_since st st' ∧
     (can_disconnect P s → ∀ d, (Src s, d) ∉ graph st')).
Proof.
  intros Hr.
  destruct (setAudioMode_accounts_reachable P mode st Hr)
    as (ds & ns & _ & Hatt & Hsorted & _).
  destruct (reachable_State_ok P st Hr) as [_ Hreach]. simpl. split; [|split].
  - intros e [-> Hnone]%setAudioMode_throws. split; [done|].
    destruct (connectedSources st) eqn:Hl; [done|]. exfalso. by apply Hreach.
  - by exists ns.
  - intros s Hs.
    assert (Hok : (setAudioMode P mode st).1 = Ok tt).
    { apply setAudioMode_returns. left. apply Hreach. intros Hnil.
      rewrite Hnil in Hs. by apply elem_of_nil in Hs. }
    split; [done|].
    split; [intros Hpan; by apply setAudioMode_attempts|].
    split; [by apply setAudioMode_wires|].
    intros Hpan Hthrow. split.
    + by apply (setAudioMode_warns_reconnect_since P mode st s ns).
    + intros Hcan d. by apply setAudioMode_skips.
Qed.

Lemma reconnect_failure_isolated_witness :
  reachable panner_fails_once (two_sources panner_fails_once) ∧
  connectedSources (two_sources panner_fails_once) = [1; 2] ∧
  panner_fails_once 5 CreateStereoPanner = true ∧
  (∃ ns,
     Forall2 (attempted panner_fails_once "stereopanner"
                (two_sources panner_fails_once)
                (after (setAudioMode panner_fails_once "stereopanner")
                       (two_sources panner_fails_once)))
             (connectedSources (two_sources panner_fails_once)) ns ∧
     StronglySorted lt ns) ∧
  (Src 2, Panner) ∈
    graph (after (setAudioMode panner_fails_once "stereopanner")
                 (two_sources panner_fails_once)).
Proof.
  assert (Hreach : reachable panner_fails_once (two_sources panner_fails_once)).
  { eexists. reflexivity. }
  split; [exact Hreach|]. split; [vm_compute; reflexivity|].
  split; [reflexivity|]. split.
  - exact (proj1 (proj2 (reconnect_failure_isolated _ "stereopanner" _ Hreach))).
  - by_computation.
Defined.

(** C4, as stated, fails: the pan node keeps the pan in single precision,
    and 0.7 is not a single precision number.  After the pan is set to 0.7
    in mode stereopanner, the mode switched to default and back,
    [getCurrentPanValue] returns 11744051 / 16777216 (0.699999988079071),
    which is not 0.7. *)
Lemma pan_value_read_back_rounded :
  currentAudioMode (panned_one_source reliable) = "stereopanner" ∧
  outcome (setPanValue reliable (Fin 0.7) None) (panned_one_source reliable)
  = Ok tt ∧
  getCurrentPanValue
    (after (setAudioMode reliable "stereopanner")
       (after (setAudioMode reliable "default")
          (after (setPanValue reliable (Fin 0.7) None)
                 (panned_one_source reliable))))
  = Fin (11744051 # 16777216) ∧
  ¬ (11744051 # 16777216 == 0.7)%Q.
Proof.
  split; [vm_compute; reflexivity|]. split; [vm_compute; reflexivity|].
  split; [vm_compute; reflexivity|]. discriminate.
Qed.

(** C4, amended. A mode switch never changes what [getCurrentPanValue]
    returns.  So once the pan has been set to 0.7, the value read after
    switching to "default" and back to "stereopanner" is the value read
    right after the set: the single precision number nearest to 0.7, which
    is 11744051 / 16777216. *)
Theorem pan_value_survives_mode_excursion (P : Platform) (st : State) :
  (∀ mode,
     getCurrentPanValue (after (setAudioMode P mode) st) = getCurrentPanValue st) ∧
  (outcome (setPanValue P (Fin 0.7) None) st = Ok tt →
   let st1 := after (setPanValue P (Fin 0.7) None) st in
   getCurrentPanValue st1 = Fin (11744051 # 16777216) ∧
   getCurrentPanValue
     (after (setAudioMode P "stereopanner")
        (after (setAudioMode P "default") st1)) = getCurrentPanValue st1).
Proof.
  split.
  - intros mode. apply setAudioMode_pan.
  - intros Hset. simpl in *. split.
    + by rewrite setPanValue_immediate.
    + by rewrite !setAudioMode_pan.
Qed.

Lemma pan_value_survives_mode_excursion_witness :
  currentAudioMode (panned_one_source reliable) = "stereopanner" ∧
  outcome (setPanValue reliable (Fin 0.7) None) (panned_one_source reliable) = Ok tt ∧
  getCurrentPanValue
    (after (setAudioMode reliable "stereopanner")
       (after (setAudioMode reliable "default")
          (after (setPanValue reliable (Fin 0.7) None)
                 (panned_one_source reliable))))
  = getCurrentPanValue
      (after (setPanValue reliable (Fin 0.7) None) (panned_one_source reliable)).
Proof.
  assert (Hok : outcome (setPanValue reliable (Fin 0.7) None)
                        (panned_one_source reliable) = Ok tt)
    by (vm_compute; reflexivity).
  split; [vm_compute; reflexivity|]. split; [exact Hok|].
  exact (proj2 (proj2 (pan_value_survives_mode_excursion reliable
                         (panned_one_source reliable)) Hok)).
Defined.

(** C5, as stated, fails: what the pan node stores is not always
    max(-1, min(1, v)).  For v = 0.7 the clamped value is 0.7 and the stored
    pan is 11744051 / 16777216, the single precision number nearest to
    it. *)
Lemma setPanValue_stored_value_rounded :
  outcome (setPanValue reliable (Fin 0.7) None) initial_state = Ok tt ∧
  clamp (Fin 0.7) = Fin 0.7 ∧
  getCurrentPanValue (after (setPanValue reliable (Fin 0.7) None) initial_state)
  = Fin (11744051 # 16777216) ∧
  ¬ (11744051 # 16777216 == 0.7)%Q.
Proof.
  split; [vm_compute; reflexivity|]. split; [vm_compute; reflexivity|].
  split; [vm_compute; reflexivity|]. discriminate.
Qed.

(** C5, amended. [setPanValue] hands the pan node the value
    max(-1, min(1, v)): that is the argument of the platform call, the last
    call it makes.  The pan node keeps it in single precision: the stored
    value [r] is the single precision number nearest to the clamped value,
    lies between -1 and 1 and is at most 2^-25 away from it; for [v] at or
    beyond a bound it is the bound itself.  With [when] omitted [r] is the
    pan value from then on, with [when] given it is scheduled at that time.
    The call returns whenever the platform calls it makes do not throw. *)
Theorem setPanValue_stores_clamped (P : Platform) (st : State) (v : Q)
    (when : option jsnum) :
  let clamped := Qmax (-1) (Qmin 1 v) in
  let st' := after (setPanValue P (Fin v) when) st in
  (outcome (setPanValue P (Fin v) when) st = Ok tt →
   ∃ r, Math_fround (Fin clamped) = Fin r ∧
        (-1 <= r <= 1)%Q ∧ (Qabs (r - clamped) <= 1 # 2 ^ 25)%Q ∧
        ((1 <= v)%Q → r = 1%Q) ∧ ((v <= -1)%Q → r = (-1)%Q) ∧
        match when with
        | None =>
            last (calls st') = Some (PanSetValue (Fin clamped)) ∧
            getCurrentPanValue st' = Fin r
        | Some t =>
            last (calls st') = Some (PanSetValueAtTime (Fin clamped) t) ∧
            ∃ n, stereoPannerNode st' = Some n ∧
                 last (param_events (pan n)) = Some (Fin r, t)
        end) ∧
  (context_available P st → panner_available P st →
   (∀ n, P n (PanSetValue (Fin clamped)) = false) →
   (∀ n t, P n (PanSetValueAtTime (Fin clamped) t) = false) →
   outcome (setPanValue P (Fin v) when) st = Ok tt).
Proof.
  simpl. rewrite <- clamp_Fin. split.
  - intros Hok.
    destruct (fround_unit (Qmax (-1) (Qmin 1 v)) (clamp_Fin_range v))
      as (r & Hr & Hrange & Hnear).
    rewrite <- clamp_Fin in Hr.
    exists r. split; [done|]. split; [done|]. split; [done|].
    split; [|split].
    + intros Hv. rewrite (clamp_above v Hv) in Hr. by injection Hr as <-.
    + intros Hv. rewrite (clamp_below v Hv) in Hr. by injection Hr as <-.
    + rewrite <- Hr. destruct when as [t|].
      * split; [by apply setPanValue_last_call|].
        by apply setPanValue_scheduled.
      * split; [by apply (setPanValue_last_call P (Fin v) None)|].
        by apply setPanValue_immediate.
  - apply setPanValue_returns.
Qed.

Lemma setPanValue_stores_clamped_witness :
  (context_available reliable initial_state ∧
   panner_available reliable initial_state ∧
   outcome (setPanValue reliable (Fin 5) None) initial_state = Ok tt ∧
   getCurrentPanValue (after (setPanValue reliable (Fin 5) None) initial_state)
   = Fin 1) ∧
  (outcome (setPanValue reliable (Fin (-3)) (Some (Fin 2))) initial_state = Ok tt ∧
   ∃ n, stereoPannerNode
          (after (setPanValue reliable (Fin (-3)) (Some (Fin 2))) initial_state)
        = Some n ∧
        last (param_events (pan n)) = Some (Fin (-1), Fin 2)).
Proof.
  assert (Hctx : context_available reliable initial_state).
  { right. intros n. reflexivity. }
  assert (Hpan : panner_available reliable initial_state).
  { right. intros n. split; reflexivity. }
  assert (Hok : outcome (setPanValue reliable (Fin 5) None) initial_state = Ok tt).
  { apply (proj2 (setPanValue_stores_clamped reliable initial_state 5 None)
             Hctx Hpan); intros; reflexivity. }
  assert (Hok' : outcome (setPanValue reliable (Fin (-3)) (Some (Fin 2)))
                         initial_state = Ok tt).
  { vm_compute. reflexivity. }
  split.
  - split; [exact Hctx|]. split; [exact Hpan|]. split; [exact Hok|].
    destruct (proj1 (setPanValue_stores_clamped reliable initial_state 5 None)
                Hok) as (r & _ & _ & _ & Hone & _ & _ & Hval).
    rewrite Hval. f_equal. apply Hone. discriminate.
  - split; [exact Hok'|].
    destruct (proj1 (setPanValue_stores_clamped reliable initial_state (-3)
                       (Some (Fin 2))) Hok')
      as (r & _ & _ & _ & _ & Hone & _ & n & Hn & Hlast).
    exists n. split; [exact Hn|]. rewrite Hlast.
    rewrite (Hone ltac:(discriminate)). reflexivity.
Defined.

(** C6, as stated, fails: while the audio context cannot be created,
    [connectAudioSource] throws before it tracks the source and before the
    wiring step.  Two calls leave the tracked set without an entry for the
    source, and the only platform calls made are the two attempts to create
    the context. *)
Lemma connectAudioSource_twice_without_context :
  outcome (connectAudioSource no_audio_context 1) initial_state
  = Throw (Thrown NewAudioContext) ∧
  outcome (connectAudioSource no_audio_context 1)
          (after (connectAudioSource no_audio_context 1) initial_state)
  = Throw (Thrown NewAudioContext) ∧
  count_occ Nat.eq_dec
    (connectedSources
       (after (connectAudioSource no_audio_context 1)
          (after (connectAudioSource no_audio_context 1) initial_state))) 1 = 0 ∧
  calls (after (connectAudioSource no_audio_context 1)
           (after (connectAudioSource no_audio_context 1) initial_state))
  = [NewAudioContext; NewAudioContext].
Proof. repeat split; vm_compute; reflexivity. Qed.

(** C6, amended. When the first call gets its audio context, calling
    [connectAudioSource(S)] twice leaves exactly one entry for S in the
    tracked set: the second call does not change the set, and it still runs
    the wiring step of the current mode, whether or not the wiring step of
    the first call threw.  Its first platform call is the first call of the
    wiring step; when it returns, the connect call for S was made and S has
    the connection of the current mode (and the pan node feeds the output in
    mode stereopanner); when it throws, the exception is that of the last
    platform call it made, a call of the wiring step.  The tracked set is a
    set (no element twice). *)
Theorem connectAudioSource_twice (P : Platform) (st : State) (s : Source) :
  NoDup (connectedSources st) →
  outcome (getAudioContext P) st = Ok tt →
  let st1 := after (connectAudioSource P s) st in
  let st2 := after (connectAudioSource P s) st1 in
  let mode := currentAudioMode st1 in
  count_occ Nat.eq_dec (connectedSources st2) s = 1 ∧
  connectedSources st2 = connectedSources st1 ∧
  (∃ rest, calls st2 =
           (calls st1 ++ first_wiring_call mode s st1 :: rest)%list) ∧
  (outcome (connectAudioSource P s) st1 = Ok tt →
   Connect (Src s) (target mode) ∈ calls_since st1 st2 ∧
   (Src s, target mode) ∈ graph st2 ∧
   (through_pan mode = true →
    Connect Panner Destination ∈ calls_since st1 st2 ∧
    (Panner, Destination) ∈ graph st2)) ∧
  (∀ e, outcome (connectAudioSource P s) st1 = Throw e →
        ∃ c, e = Thrown c ∧ last (calls st2) = Some c ∧
             c ∈ calls_since st1 st2 ∧ c ≠ NewAudioContext).
Proof.
  intros Hnd Hctx. simpl in *.
  destruct (connectAudioSource_tracks P s st Hctx) as (Hs1 & Hc1 & _).
  destruct (connectAudioSource_tracks P s (connectAudioSource P s st).2)
    as (Hs2 & _ & _).
  { apply getAudioContext_returns. by left. }
  destruct (connectAudioSource_wiring P s (connectAudioSource P s st).2 Hc1)
    as [Hwire Hthrow].
  rewrite Hs2, Hs1, Set_add_twice.
  split; [|split; [done|split; [|split; [exact Hwire|exact Hthrow]]]].
  - apply NoDup_count_occ'.
    + by apply NoDup_ListNoDup, Set_add_NoDup.
    + apply list_elem_of_In, Set_add_in.
  - by apply connectAudioSource_first_call.
Qed.

Lemma connectAudioSource_twice_witness :
  NoDup (connectedSources (two_sources source1_rejects_output)) ∧
  outcome (getAudioContext source1_rejects_output)
          (two_sources source1_rejects_output) = Ok tt ∧
  count_occ Nat.eq_dec
    (connectedSources
       (after (connectAudioSource source1_rejects_output 1)
          (after (connectAudioSource source1_rejects_output 1)
                 (two_sources source1_rejects_output)))) 1 = 1.
Proof.
  assert (Hnd : NoDup (connectedSources (two_sources source1_rejects_output))).
  { vm_compute. apply NoDup_cons. split; [|apply NoDup_singleton].
    intros H. apply list_elem_of_singleton in H. discriminate. }
  assert (Hctx : outcome (getAudioContext source1_rejects_output)
                         (two_sources source1_rejects_output) = Ok tt).
  { vm_compute. reflexivity. }
  split; [exact Hnd|]. split; [exact Hctx|].
  exact (proj1 (connectAudioSource_twice source1_rejects_output
                  (two_sources source1_rejects_output) 1 Hnd Hctx)).
Defined.

(** C7, as stated, fails in reachable states: after
    [disconnectStereoPanner] the self-transition reconnects the pan node to
    the output, so the topology is not the one before the call; and when the
    connect call of a tracked source throws during the self-transition, the
    source loses the connection it had. *)
Lemma self_transition_changes_topology :
  (reachable reliable (panner_cut_off reliable) ∧
   graph (after (setAudioMode reliable
                   (getCurrentAudioMode (panner_cut_off reliable)))
                (panner_cut_off reliable))
   ≠ graph (panner_cut_off reliable)) ∧
  (reachable source1_breaks_later (one_source source1_breaks_later) ∧
   wired_consistently (one_source source1_breaks_later) ∧
   graph (after (setAudioMode source1_breaks_later
                   (getCurrentAudioMode (one_source source1_breaks_later)))
                (one_source source1_breaks_later))
   ≠ graph (one_source source1_breaks_later)).
Proof.
  split.
  - split; [eexists; reflexivity|]. intros Heq.
    assert (H1 : (Panner, Destination) ∈
                 graph (after (setAudioMode reliable
                                 (getCurrentAudioMode (panner_cut_off reliable)))
                              (panner_cut_off reliable))) by by_computation.
    rewrite Heq in H1. revert H1. by_computation.
  - split; [eexists; reflexivity|]. split.
    + assert (Hs : connectedSources (one_source source1_breaks_later) = [1])
        by (vm_compute; reflexivity).
      assert (Hm : currentAudioMode (one_source source1_breaks_later) = "default")
        by (vm_compute; reflexivity).
      assert (Hg : graph (one_source source1_breaks_later)
                   = {[ (Src 1, Destination) ]})
        by (vm_compute; reflexivity).
      unfold wired_consistently. rewrite Hs, Hm, Hg.
      change (target "default") with Destination.
      change (through_pan "default") with false.
      split.
      * intros s ->%list_elem_of_singleton d. set_solver.
      * intros d. set_solver.
    + intros Heq.
      assert (H1 : (Src 1, Destination) ∈ graph (one_source source1_breaks_later))
        by by_computation.
      rewrite <- Heq in H1. revert H1. by_computation.
Qed.

(** C7, amended. In a reachable state whose wiring agrees with the current
    mode, if the connect calls of the tracked sources succeed, then
    [setAudioMode(getCurrentAudioMode())] leaves the topology exactly as it
    was, although it goes through the whole cycle: every tracked source gets
    its disconnect call and its connect call. *)
Theorem self_transition_keeps_topology (P : Platform) (st : State) :
  reachable P st → wired_consistently st →
  (∀ s, s ∈ connectedSources st → can_connect P (currentAudioMode st) s st) →
  let st' := after (setAudioMode P (getCurrentAudioMode st)) st in
  graph st' = graph st ∧
  ∀ s, s ∈ connectedSources st →
       Disconnect (Src s) ∈ calls_since st st' ∧
       Connect (Src s) (target (currentAudioMode st)) ∈ calls_since st st'.
Proof.
  intros [_ Hreach]%reachable_State_ok [Hsrc Hpan] Hcan.
  unfold getCurrentAudioMode. simpl.
  set (mode := currentAudioMode st) in *. split.
  - apply set_eq. intros [a b].
    destruct (setAudioMode_cases P mode st)
      as [(st4 & _ & Hc & Hp & _ & _ & Hg & _ & _ & ->)
         |(st4 & _ & Hnone & _ & _ & _ & Hg & ->)]; simpl.
    + split.
      * intros [H|[(s & Hs & [= -> ->])|(Hm & Hne & [= -> ->])]]%reconnect_loop_graph_upper.
        -- rewrite Hg in H. by apply disconnected_graph in H.
        -- by apply Hsrc.
        -- by apply Hpan.
      * intros Hab.
        assert (Hcan4 : ∀ s, s ∈ connectedSources st → can_connect P mode s st4).
        { intros s Hs. destruct (Hcan s Hs) as [H1 H2]. split; [done|].
          intros Hm. destruct (H2 Hm) as [[H|H] ?]; (split; [|done]).
          - left. by rewrite Hp.
          - by right. }
        destruct a as [s| |].
        -- destruct (decide (s ∈ connectedSources st)) as [Hs|Hs].
           ++ apply (Hsrc s Hs) in Hab as ->.
              by apply (reconnect_loop_wires P mode (connectedSources st) st4 s);
                auto.
           ++ apply reconnect_loop_graph_mono. rewrite Hg.
              apply disconnected_other; [done| |done].
              intros s' Hs' [= ->]. done.
        -- apply Hpan in Hab as (-> & Hm & Hne).
           assert (∃ s, s ∈ connectedSources st) as [s Hs].
           { destruct (connectedSources st) as [|s l]; [done|].
             exists s. apply list_elem_of_here. }
           by apply (reconnect_loop_wires P mode (connectedSources st) st4 s
                       Hs Hc (Hcan4 s Hs)).
        -- apply reconnect_loop_graph_mono. rewrite Hg.
           apply disconnected_other; done.
    + assert (Hnil : connectedSources st = []).
      { destruct (connectedSources st) eqn:Hl; [done|].
        exfalso. by apply Hreach. }
      rewrite Hg. split; [apply disconnected_graph|].
      intros Hab. apply disconnected_other; [done| |].
      * intros s Hs. rewrite Hnil in Hs. by apply elem_of_nil in Hs.
      * simpl. intros ->. apply Hpan in Hab as (_ & _ & Hne). done.
  - intros s Hs. split; [by apply setAudioMode_disconnect_attempts|].
    apply setAudioMode_attempts; [done| |].
    + apply setAudioMode_returns. left. apply Hreach. intros Hnil.
      rewrite Hnil in Hs. by apply elem_of_nil in Hs.
    + intros Hm. by apply (Hcan s Hs).
Qed.

Lemma self_transition_keeps_topology_witness :
  reachable reliable (panned_one_source reliable) ∧
  wired_consistently (panned_one_source reliable) ∧
  (∀ s, s ∈ connectedSources (panned_one_source reliable) →
        can_connect reliable (currentAudioMode (panned_one_source reliable)) s
                    (panned_one_source reliable)) ∧
  graph (after (setAudioMode reliable
                  (getCurrentAudioMode (panned_one_source reliable)))
               (panned_one_source reliable))
  = graph (panned_one_source reliable).
Proof.
  assert (Hreach : reachable reliable (panned_one_source reliable)).
  { eexists. reflexivity. }
  assert (Hwired : wired_consistently (panned_one_source reliable)).
  { assert (Hs : connectedSources (panned_one_source reliable) = [1])
      by (vm_compute; reflexivity).
    assert (Hm : currentAudioMode (panned_one_source reliable) = "stereopanner")
      by (vm_compute; reflexivity).
    assert (Hg : graph (panned_one_source reliable)
                 = {[ (Src 1, Panner) ]} ∪ {[ (Panner, Destination) ]})
      by (vm_compute; reflexivity).
    unfold wired_consistently. rewrite Hs, Hm, Hg.
    change (target "stereopanner") with Panner.
    change (through_pan "stereopanner") with true.
    split.
    - intros s ->%list_elem_of_singleton d. set_solver.
    - intros d. set_solver. }
  assert (Hcan : ∀ s, s ∈ connectedSources (panned_one_source reliable) →
                      can_connect reliable
                        (currentAudioMode (panned_one_source reliable)) s
                        (panned_one_source reliable)).
  { intros s _. split; [intros n; reflexivity|]. intros _.
    split; [|intros n; reflexivity]. right. intros n. split; reflexivity. }
  split; [exact Hreach|]. split; [exact Hwired|]. split; [exact Hcan|].
  exact (proj1 (self_transition_keeps_topology _ _ Hreach Hwired Hcan)).
Defined.

(** C8. When the wiring step of [connectAudioSource] throws (the audio
    context was obtained, the call still ended with an exception), the source
    is in the tracked set and stays there through every later call; the next
    [setAudioMode] returns, makes the connect call for it, and connects it if
    its connect calls succeed. *)
Theorem failed_connect_stays_tracked (P : Platform) (st : State) (s : Source)
    (e : Error) :
  outcome (getAudioContext P) st = Ok tt →
  outcome (connectAudioSource P s) st = Throw e →
  let st' := after (connectAudioSource P s) st in
  s ∈ connectedSources st' ∧
  (∀ cs, s ∈ connectedSources (run P cs st')) ∧
  ∀ mode,
    let st'' := after (setAudioMode P mode) st' in
    outcome (setAudioMode P mode) st' = Ok tt ∧
    s ∈ connectedSources st'' ∧
    ((through_pan mode = true → panner_available P st') →
     Connect (Src s) (target mode) ∈ calls_since st' st'') ∧
    (can_connect P mode s st' →
     (Src s, target mode) ∈ graph st'' ∧
     (through_pan mode = true → (Panner, Destination) ∈ graph st'')).
Proof.
  simpl. intros Hctx _.
  destruct (connectAudioSource_tracks P s st Hctx) as (Hs & Hc & _).
  assert (Hin : s ∈ connectedSources (connectAudioSource P s st).2).
  { rewrite Hs. apply Set_add_in. }
  split; [done|]. split.
  - intros cs.
    by apply (run_respects P _ cs _ steps_ok_sources_grow sources_grow_mode).
  - intros mode.
    assert (Hok : (setAudioMode P mode (connectAudioSource P s st).2).1 = Ok tt).
    { apply setAudioMode_returns. by left. }
    split; [done|]. split; [by rewrite setAudioMode_sources|].
    split; [intros Hpan; by apply setAudioMode_attempts|].
    by apply setAudioMode_wires.
Qed.

Lemma failed_connect_stays_tracked_witness :
  outcome (getAudioContext source1_rejects_output) initial_state = Ok tt ∧
  outcome (connectAudioSource source1_rejects_output 1) initial_state =
    Throw (Thrown (Connect (Src 1) Destination)) ∧
  1 ∈ connectedSources
        (after (connectAudioSource source1_rejects_output 1) initial_state) ∧
  (Src 1, Panner) ∈
    graph (after (setAudioMode source1_rejects_output "stereopanner")
             (after (connectAudioSource source1_rejects_output 1) initial_state)).
Proof.
  assert (H1 : outcome (getAudioContext source1_rejects_output) initial_state
               = Ok tt).
  { vm_compute. reflexivity. }
  assert (H2 : outcome (connectAudioSource source1_rejects_output 1) initial_state
               = Throw (Thrown (Connect (Src 1) Destination))).
  { vm_compute. reflexivity. }
  split; [exact H1|]. split; [exact H2|]. split.
  - exact (proj1 (failed_connect_stays_tracked _ _ 1 _ H1 H2)).
  - destruct (proj2 (proj2 (failed_connect_stays_tracked _ _ 1 _ H1 H2))
                "stereopanner") as (_ & _ & _ & Hwire).
    assert (Hcan : can_connect source1_rejects_output "stereopanner" 1
                     (after (connectAudioSource source1_rejects_output 1)
                            initial_state)).
    { split; [intros n; reflexivity|]. intros _.
      split; [|intros n; reflexivity]. right. intros n. split; reflexivity. }
    exact (proj1 (Hwire Hcan)).
Defined.

(** C9. [getCurrentAudioMode] returns exactly the string given to the most
    recent [setAudioMode], whatever the string (recognized or not, nothing is
    normalized to "default"), whether that call returned or threw, and
    whatever calls of the interface that do not switch the mode came after
    it. *)
Theorem getCurrentAudioMode_last_set (P : Platform) (st : State)
    (mode : string) (cs : list ApiCall) :
  Forall (fun c => changes_mode c = false) cs →
  getCurrentAudioMode (run P cs (after (setAudioMode P mode) st)) = mode.
Proof.
  intros Hcs. unfold getCurrentAudioMode. simpl.
  rewrite <- (setAudioMode_mode P mode st) at 2.
  generalize (setAudioMode P mode st).2 as st0.
  induction Hcs as [|c cs Hc _ IH]; intros st0; [done|].
  simpl. rewrite IH.
  apply (api_respects P _ c steps_ok_keeps_mode). by rewrite Hc.
Qed.

Lemma getCurrentAudioMode_last_set_witness :
  Forall (fun c => changes_mode c = false)
         [call_connectAudioSource 1; call_setPanValue (Fin 2) None] ∧
  getCurrentAudioMode
    (run no_audio_context
         [call_connectAudioSource 1; call_setPanValue (Fin 2) None]
         (after (setAudioMode no_audio_context "surround") initial_state))
  = "surround".
Proof.
  split.
  - repeat constructor.
  - apply (getCurrentAudioMode_last_set no_audio_context initial_state "surround").
    repeat constructor.
Defined.

(** C10. In every reachable state, a failure while disconnecting a source
    during [setAudioMode] is caught and logged with a warning, and the mode
    change goes on: the mode is recorded all the same; every tracked source
    gets its disconnect call, in the order of the set (if the call threw,
    the warning for that source is among the entries logged by this mode
    change; if not, the source is left with no connection but the one of the
    new mode); and after all the disconnect calls every tracked source gets
    an attempt of its own at the new connection, whatever happened to any
    disconnect call.  In particular every source whose own connect calls
    succeed ends up connected by the new rule. *)
Theorem disconnect_failure_isolated (P : Platform) (mode : string) (st : State) :
  reachable P st →
  let st' := after (setAudioMode P mode) st in
  currentAudioMode st' = mode ∧
  (∃ ds ns,
     Forall2 (disconnect_attempted P mode st st') (connectedSources st) ds ∧
     Forall2 (attempted P mode st st') (connectedSources st) ns ∧
     StronglySorted lt (ds ++ ns)) ∧
  ∀ s, s ∈ connectedSources st →
    outcome (setAudioMode P mode) st = Ok tt ∧
    (can_connect P mode s st →
     (Src s, target mode) ∈ graph st' ∧
     (through_pan mode = true → (Panner, Destination) ∈ graph st')).
Proof.
  intros Hr.
  destruct (setAudioMode_accounts_reachable P mode st Hr)
    as (ds & ns & Hds & Hns & _ & Hsorted).
  destruct (reachable_State_ok P st Hr) as [_ Hreach]. simpl.
  split; [apply setAudioMode_mode|].
  split; [by exists ds, ns|]. intros s Hs.
  assert (Hok : (setAudioMode P mode st).1 = Ok tt).
  { apply setAudioMode_returns. left. apply Hreach. intros Hnil.
    rewrite Hnil in Hs. by apply elem_of_nil in Hs. }
  split; [done|]. by apply setAudioMode_wires.
Qed.

Lemma disconnect_failure_isolated_witness :
  reachable source1_stuck (after_one_switch source1_stuck) ∧
  connectedSources (after_one_switch source1_stuck) = [1] ∧
  disconnect_warning 1 ∈ log (after_one_switch source1_stuck) ∧
  currentAudioMode
    (after (setAudioMode source1_stuck "hrtf")
           (after_one_switch source1_stuck)) = "hrtf" ∧
  ∃ ds ns,
    Forall2 (disconnect_attempted source1_stuck "hrtf"
               (after_one_switch source1_stuck)
               (after (setAudioMode source1_stuck "hrtf")
                      (after_one_switch source1_stuck)))
            (connectedSources (after_one_switch source1_stuck)) ds ∧
    Forall2 (attempted source1_stuck "hrtf"
               (after_one_switch source1_stuck)
               (after (setAudioMode source1_stuck "hrtf")
                      (after_one_switch source1_stuck)))
            (connectedSources (after_one_switch source1_stuck)) ns ∧
    StronglySorted lt (ds ++ ns).
Proof.
  assert (Hreach : reachable source1_stuck (after_one_switch source1_stuck)).
  { eexists. reflexivity. }
  split; [exact Hreach|]. split; [vm_compute; reflexivity|].
  split; [vm_compute; repeat constructor|]. split.
  - exact (proj1 (disconnect_failure_isolated _ "hrtf" _ Hreach)).
  - exact (proj1 (proj2 (disconnect_failure_isolated _ "hrtf" _ Hreach))).
Defined.

(** * Further properties of the code *)

(** ** The shape of the connection graph *)

Lemma well_shaped_api (P : Platform) c st :
  holds_from well_shaped (fun _ _ => True) (api P c) st.
Proof.
  destruct c; unfold_module; walk (fun _ : State => I) (fun (_ _ _ : State) (_ _ : True) => I);
    intros; (split; [|done]); unfold well_shaped in *; simpl in *;
    repeat case_match; simpl; intros edge Hedge;
    repeat match goal with
           | H : _ ∈ _ ∪ _ |- _ => apply elem_of_union in H as [H|H]
           | H : _ ∈ {[ _ ]} |- _ => apply elem_of_singleton in H; subst
           | H : _ ∈ filter _ _ |- _ => apply elem_of_filter in H as [_ H]
           end; simpl; auto.
Qed.

(** ** Clamping *)

Lemma clamp_in_range v : in_range (clamp v).
Proof.
  destruct v as [q| | |]; [|vm_compute; split; discriminate..|exact I].
  rewrite clamp_Fin. apply clamp_Fin_range.
Qed.

Lemma clamp_idempotent v : clamp (clamp v) = clamp v.
Proof.
  destruct v as [q| | |]; try reflexivity.
  assert (Hc : clamp (Fin q) = Fin 1 ∨ clamp (Fin q) = Fin (-1) ∨
               clamp (Fin q) = Fin q).
  { unfold clamp, Math_min, Math_max.
    destruct (Qle_bool 1 q); [left; reflexivity|].
    destruct (Qle_bool q (-1)); [right; left; reflexivity|right; right; done]. }
  destruct Hc as [->|[->|H]]; [reflexivity|reflexivity|].
  rewrite H. exact H.
Qed.

Lemma clamp_is_position v : clamp v ≠ NaN → is_position (clamp v).
Proof.
  intros Hn. pose proof (clamp_in_range v) as H.
  destruct (clamp v); simpl in *; done.
Qed.

(** Rounding to single precision keeps a value in the range. *)
Lemma fround_in_range x : in_range x → in_range (Math_fround x).
Proof.
  destruct x as [q| | |]; simpl; try done.
  intros Hq. by destruct (fround_unit q Hq) as (r & -> & Hr & _).
Qed.

Lemma fround_is_position x : is_position x → is_position (Math_fround x).
Proof.
  destruct x as [q| | |]; simpl; try done.
  intros Hq. by destruct (fround_unit q Hq) as (r & -> & Hr & _).
Qed.

(** X1. The clamping expression [Math.max(-1, Math.min(1, v))] on every
    JavaScript number: the result is NaN exactly for NaN and otherwise lies
    between -1 and 1 (the infinities go to 1 and -1), a value strictly
    between -1 and 1 is returned as it is, and clamping twice is clamping
    once. *)
Theorem clamp_total_behaviour (v : jsnum) :
  in_range (clamp v) ∧
  (clamp v = NaN ↔ v = NaN) ∧
  (clamp PosInf = Fin 1 ∧ clamp NegInf = Fin (-1)) ∧
  (∀ q, v = Fin q → (-1 < q)%Q ∧ (q < 1)%Q → clamp v = v) ∧
  clamp (clamp v) = clamp v.
Proof.
  split; [apply clamp_in_range|]. split; [|split; [split; reflexivity|split]].
  - destruct v as [q| | |]; try (split; [vm_compute; discriminate|discriminate]).
    + rewrite clamp_Fin. split; discriminate.
    + split; reflexivity.
  - intros q -> [Hlo Hhi]. unfold clamp, Math_min, Math_max.
    destruct (Qle_bool 1 q) eqn:E1.
    { apply Qle_bool_iff in E1. exfalso. by apply (Qlt_not_le _ _ Hhi). }
    destruct (Qle_bool q (-1)) eqn:E2; [|done].
    apply Qle_bool_iff in E2. exfalso. by apply (Qlt_not_le _ _ Hlo).
  - apply clamp_idempotent.
Qed.

(** ** The functions of the audio graph, one by one *)

(** X2. [getAudioContext] remembers a success and forgets a failure: once
    the context exists a call returns without touching the platform or the
    state; while it does not exist, a call whose [new AudioContext()] throws
    rethrows and leaves the module without a context (so a later call tries
    again), and a call whose construction succeeds leaves a context that the
    next call returns as it is. *)
Theorem getAudioContext_remembers_success (P : Platform) (st : State) :
  let st' := after (getAudioContext P) st in
  match audioContext st with
  | Some _ => getAudioContext P st = (Ok tt, st)
  | None =>
      calls st' = (calls st ++ [NewAudioContext])%list ∧
      if P (length (calls st)) NewAudioContext
      then outcome (getAudioContext P) st = Throw (Thrown NewAudioContext) ∧
           audioContext st' = None
      else outcome (getAudioContext P) st = Ok tt ∧
           audioContext st' = Some TheAudioContext ∧
           getAudioContext P st' = (Ok tt, st')
  end.
Proof. simpl. run_code P; finish. Qed.

(** X3. [getStereoPannerNode(v)] is create-or-get: when it returns, the pan
    node exists; if it existed before, the node and its pan value are
    untouched and [v] is ignored; if it did not, the new node holds [v]
    clamped, in single precision. *)
Theorem getStereoPannerNode_create_or_get (P : Platform) (v : jsnum) (st : State) :
  outcome (getStereoPannerNode P v) st = Ok tt →
  let st' := after (getStereoPannerNode P v) st in
  match stereoPannerNode st with
  | Some n => stereoPannerNode st' = Some n
  | None =>
      stereoPannerNode st' ≠ None ∧
      getCurrentPanValue st' = Math_fround (clamp v)
  end.
Proof. unfold getCurrentPanValue. simpl. run_code P; finish. Qed.

Lemma getStereoPannerNode_create_or_get_witness :
  (outcome (getStereoPannerNode reliable (Fin (-1))) (pan_at_07 reliable) = Ok tt ∧
   getCurrentPanValue
     (after (getStereoPannerNode reliable (Fin (-1))) (pan_at_07 reliable))
   = Fin (11744051 # 16777216)) ∧
  (outcome (getStereoPannerNode reliable (Fin 3)) initial_state = Ok tt ∧
   getCurrentPanValue (after (getStereoPannerNode reliable (Fin 3)) initial_state)
   = Fin 1).
Proof.
  assert (H1 : outcome (getStereoPannerNode reliable (Fin (-1)))
                       (pan_at_07 reliable) = Ok tt) by (vm_compute; reflexivity).
  assert (H2 : outcome (getStereoPannerNode reliable (Fin 3)) initial_state
               = Ok tt) by (vm_compute; reflexivity).
  split; (split; [assumption|]).
  - pose proof (getStereoPannerNode_create_or_get reliable (Fin (-1))
                  (pan_at_07 reliable) H1) as H.
    revert H. vm_compute. intros _. reflexivity.
  - exact (proj2 (getStereoPannerNode_create_or_get reliable (Fin 3)
                    initial_state H2)).
Defined.

(** X4. When the pan node is created but the write of its initial pan
    throws, [getStereoPannerNode] rethrows and still keeps the node, with the
    platform's pan 0; every later call returns that node as it is, whatever
    initial pan it is given. *)
Theorem getStereoPannerNode_failed_init (P : Platform) (v : jsnum) (st : State) :
  audioContext st ≠ None → stereoPannerNode st = None →
  P (length (calls st)) CreateStereoPanner = false →
  (∀ n, P n (PanSetValue (clamp v)) = true) →
  let st' := after (getStereoPannerNode P v) st in
  outcome (getStereoPannerNode P v) st = Throw (Thrown (PanSetValue (clamp v))) ∧
  stereoPannerNode st' = Some fresh_panner ∧
  getCurrentPanValue st' = Fin 0 ∧
  ∀ v', getStereoPannerNode P v' st' = (Ok tt, st').
Proof.
  intros Hctx Hnone Hcreate Hwrite. unfold getCurrentPanValue. simpl.
  run_code P; finish.
Qed.

Lemma getStereoPannerNode_failed_init_witness :
  audioContext (one_source rejects_NaN) ≠ None ∧
  stereoPannerNode (one_source rejects_NaN) = None ∧
  outcome (getStereoPannerNode rejects_NaN NaN) (one_source rejects_NaN)
  = Throw (Thrown (PanSetValue NaN)) ∧
  getCurrentPanValue
    (after (getStereoPannerNode rejects_NaN NaN) (one_source rejects_NaN))
  = Fin 0.
Proof.
  assert (H1 : audioContext (one_source rejects_NaN) ≠ None)
    by (vm_compute; discriminate).
  assert (H2 : stereoPannerNode (one_source rejects_NaN) = None)
    by (vm_compute; reflexivity).
  assert (H3 : rejects_NaN (length (calls (one_source rejects_NaN)))
                 CreateStereoPanner = false) by reflexivity.
  assert (H4 : ∀ n, rejects_NaN n (PanSetValue (clamp NaN)) = true)
    by (intros n; reflexivity).
  split; [exact H1|]. split; [exact H2|].
  pose proof (getStereoPannerNode_failed_init rejects_NaN NaN
                (one_source rejects_NaN) H1 H2 H3 H4) as (Ha & _ & Hb & _).
  split; [exact Ha|exact Hb].
Defined.

(** X5. [disconnectStereoPanner] never throws.  Without a pan node it does
    nothing at all; with one it leaves every connection that does not start
    at the pan node as it is and, if the platform call succeeds, leaves the
    pan node without outgoing connection; on a platform failure the graph is
    unchanged.  The mode, the tracked set and the node itself are kept. *)
Theorem disconnectStereoPanner_behaviour (P : Platform) (st : State) :
  let st' := after (disconnectStereoPanner P) st in
  outcome (disconnectStereoPanner P) st = Ok tt ∧
  stereoPannerNode st' = stereoPannerNode st ∧
  connectedSources st' = connectedSources st ∧
  currentAudioMode st' = currentAudioMode st ∧
  (∀ a b, a ≠ Panner → (a, b) ∈ graph st' ↔ (a, b) ∈ graph st) ∧
  match stereoPannerNode st with
  | None => st' = st
  | Some _ =>
      if P (length (calls st)) (Disconnect Panner)
      then graph st' = graph st
      else ∀ d, (Panner, d) ∉ graph st'
  end.
Proof. simpl. run_code P; repeat split; finish. Qed.

(** X6. [connectAudioThroughStereoPanner], called directly, does not look
    at the mode: when it returns, the source is tracked and connected to the
    pan node, and the pan node to the output, in whatever mode the module is.
    It adds the source to the tracked set last, so when it throws the tracked
    set is unchanged; if the exception came from connecting the pan node to
    the output, the source is by then connected to the pan node without being
    tracked.  No connection is ever taken away. *)
Theorem connectAudioThroughStereoPanner_direct (P : Platform) (s : Source)
    (v : jsnum) (st : State) :
  let st' := after (connectAudioThroughStereoPanner P s v) st in
  (outcome (connectAudioThroughStereoPanner P s v) st = Ok tt →
   s ∈ connectedSources st' ∧
   (Src s, Panner) ∈ graph st' ∧ (Panner, Destination) ∈ graph st') ∧
  (∀ e, outcome (connectAudioThroughStereoPanner P s v) st = Throw e →
        connectedSources st' = connectedSources st ∧
        (e = Thrown (Connect Panner Destination) → (Src s, Panner) ∈ graph st')) ∧
  currentAudioMode st' = currentAudioMode st ∧
  graph st ⊆ graph st'.
Proof.
  simpl. run_code P; repeat split; intros; simplify_eq;
    try apply Set_add_in; finish.
Qed.

Lemma connectAudioThroughStereoPanner_direct_witness :
  (outcome (connectAudioThroughStereoPanner reliable 1 (Fin 0)) initial_state
   = Ok tt ∧
   currentAudioMode
     (after (connectAudioThroughStereoPanner reliable 1 (Fin 0)) initial_state)
   = "default" ∧
   (Src 1, Panner) ∈
     graph (after (connectAudioThroughStereoPanner reliable 1 (Fin 0))
                  initial_state)) ∧
  (outcome (connectAudioThroughStereoPanner panner_rejects_output 1 (Fin 0))
           initial_state = Throw (Thrown (Connect Panner Destination)) ∧
   connectedSources
     (after (connectAudioThroughStereoPanner panner_rejects_output 1 (Fin 0))
            initial_state) = [] ∧
   (Src 1, Panner) ∈
     graph (after (connectAudioThroughStereoPanner panner_rejects_output 1 (Fin 0))
                  initial_state)).
Proof.
  assert (H1 : outcome (connectAudioThroughStereoPanner reliable 1 (Fin 0))
                       initial_state = Ok tt) by (vm_compute; reflexivity).
  assert (H2 : outcome (connectAudioThroughStereoPanner panner_rejects_output 1
                          (Fin 0)) initial_state
               = Throw (Thrown (Connect Panner Destination)))
    by (vm_compute; reflexivity).
  split.
  - split; [exact H1|]. split; [vm_compute; reflexivity|].
    exact (proj1 (proj2 (proj1 (connectAudioThroughStereoPanner_direct
                                  reliable 1 (Fin 0) initial_state) H1))).
  - split; [exact H2|].
    destruct (proj1 (proj2 (connectAudioThroughStereoPanner_direct
                              panner_rejects_output 1 (Fin 0) initial_state))
                _ H2) as [Hs He].
    split; [exact Hs|]. apply He. reflexivity.
Defined.

(** X7. When [connectAudioSource] returns, the source is tracked and has the
    connection the current mode asks for (to the pan node, which feeds the
    output, in mode stereopanner; to the output otherwise).  The mode is not
    changed and no connection is taken away, so a connection the source had
    before is still there. *)
Theorem connectAudioSource_wires (P : Platform) (s : Source) (st : State) :
  outcome (connectAudioSource P s) st = Ok tt →
  let st' := after (connectAudioSource P s) st in
  s ∈ connectedSources st' ∧
  (Src s, target (currentAudioMode st)) ∈ graph st' ∧
  (through_pan (currentAudioMode st) = true → (Panner, Destination) ∈ graph st') ∧
  currentAudioMode st' = currentAudioMode st ∧
  graph st ⊆ graph st'.
Proof.
  unfold target, through_pan. simpl.
  run_code P; intros; simplify_eq; repeat split;
    try apply Set_add_in; rewrite ?Set_add_twice; try apply Set_add_in; finish.
Qed.

Lemma connectAudioSource_wires_witness :
  outcome (connectAudioSource reliable 2) (panned_one_source reliable) = Ok tt ∧
  (Src 2, Panner) ∈
    graph (after (connectAudioSource reliable 2) (panned_one_source reliable)) ∧
  (Src 1, Panner) ∈
    graph (after (connectAudioSource reliable 2) (panned_one_source reliable)).
Proof.
  assert (H1 : outcome (connectAudioSource reliable 2)
                       (panned_one_source reliable) = Ok tt)
    by (vm_compute; reflexivity).
  destruct (connectAudioSource_wires reliable 2 (panned_one_source reliable) H1)
    as (_ & Hedge & _ & _ & Hsub).
  split; [exact H1|]. split.
  - assert (Hm : target (currentAudioMode (panned_one_source reliable)) = Panner)
      by (vm_compute; reflexivity).
    by rewrite Hm in Hedge.
  - apply Hsub. by_computation.
Defined.

(** X8. [initAudioContext] sets up the audio context and nothing else: the
    pan node, the connections, the tracked set and the mode are as before.
    It returns exactly when the module has a context afterwards, and when
    the context existed already it makes no platform call. *)
Theorem initAudioContext_only_context (P : Platform) (st : State) :
  let st' := after (initAudioContext P) st in
  stereoPannerNode st' = stereoPannerNode st ∧
  graph st' = graph st ∧
  connectedSources st' = connectedSources st ∧
  currentAudioMode st' = currentAudioMode st ∧
  (outcome (initAudioContext P) st = Ok tt ↔ audioContext st' ≠ None) ∧
  (audioContext st ≠ None → calls st' = calls st).
Proof.
  simpl. unfold initAudioContext. run_code P; repeat split; finish.
Qed.

(** ** What holds along every sequence of calls *)

Lemma run_holds (P : Platform) (I : State -> Prop) (R : State -> State -> Prop)
    cs st :
  (∀ st, R st st) → (∀ a b c, R a b → R b c → R a c) →
  (∀ c st, holds_from I R (api P c) st) →
  I st → I (run P cs st) ∧ R st (run P cs st).
Proof.
  intros Hr Ht Hall. revert st. induction cs as [|c cs IH]; intros st HI.
  - split; [done|apply Hr].
  - simpl. destruct (Hall c st HI) as [HI1 HR1].
    destruct (IH _ HI1) as [HI2 HR2]. split; [done|by eapply Ht].
Qed.

Lemma reachable_holds (P : Platform) (I : State -> Prop) st :
  (∀ c st, holds_from I (fun _ _ => True) (api P c) st) →
  I initial_state → reachable P st → I st.
Proof.
  intros Hall Hinit [cs ->].
  by apply (run_holds P I (fun _ _ => True) cs initial_state).
Qed.

Lemma never_calls_refl c st : never_calls c st st.
Proof. exists []. split; [by rewrite app_nil_r|apply not_elem_of_nil]. Qed.

Lemma never_calls_trans c a b d :
  never_calls c a b → never_calls c b d → never_calls c a d.
Proof.
  intros (l1 & H1 & Hn1) (l2 & H2 & Hn2). exists (l1 ++ l2)%list. split.
  - by rewrite H2, H1, app_assoc.
  - intros [?|?]%elem_of_app; auto.
Qed.

Lemma never_calls_since c a b : never_calls c a b → c ∉ calls_since a b.
Proof.
  intros (l & H & Hn). unfold calls_since. by rewrite H, drop_app_length.
Qed.

Ltac solve_never_calls :=
  intros;
  first
    [ congruence
    | split;
      [ simpl in *; repeat case_match; simpl; congruence
      | unfold never_calls; simpl; repeat case_match; simpl;
        first
          [ exists []; split; [by rewrite app_nil_r|apply not_elem_of_nil]
          | eexists [_]; split;
            [ reflexivity
            | let H := fresh in
              intros H; apply list_elem_of_singleton in H; discriminate ] ] ] ].

Lemma context_once_api (P : Platform) c st :
  holds_from (fun st => audioContext st ≠ None) (never_calls NewAudioContext)
             (api P c) st.
Proof.
  destruct c; unfold_module;
    walk (never_calls_refl NewAudioContext) (never_calls_trans NewAudioContext);
    solve_never_calls.
Qed.

Lemma panner_once_api (P : Platform) c st :
  holds_from (fun st => stereoPannerNode st ≠ None)
             (never_calls CreateStereoPanner) (api P c) st.
Proof.
  destruct c; unfold_module;
    walk (never_calls_refl CreateStereoPanner)
         (never_calls_trans CreateStereoPanner);
    solve_never_calls.
Qed.

(** X9. There is one audio context: once it exists, no sequence of calls of
    the interface makes the module lose it or call [new AudioContext()]
    again. *)
Theorem audio_context_created_once (P : Platform) (cs : list ApiCall)
    (st : State) :
  audioContext st ≠ None →
  audioContext (run P cs st) ≠ None ∧
  NewAudioContext ∉ calls_since st (run P cs st).
Proof.
  intros Hctx.
  destruct (run_holds P _ _ cs st (never_calls_refl NewAudioContext)
              (never_calls_trans NewAudioContext) (context_once_api P) Hctx)
    as [H1 H2].
  split; [done|by apply never_calls_since].
Qed.

Lemma audio_context_created_once_witness :
  audioContext (one_source reliable) ≠ None ∧
  audioContext
    (run reliable [call_initAudioContext; call_setAudioMode "stereopanner";
                   call_getAudioContext] (one_source reliable)) ≠ None.
Proof.
  assert (H : audioContext (one_source reliable) ≠ None)
    by (vm_compute; discriminate).
  split; [exact H|].
  exact (proj1 (audio_context_created_once reliable _ _ H)).
Defined.

(** X10. There is one pan node: once it exists, no sequence of calls of the
    interface makes the module lose it or call [createStereoPanner()]
    again. *)
Theorem pan_node_created_once (P : Platform) (cs : list ApiCall) (st : State) :
  stereoPannerNode st ≠ None →
  stereoPannerNode (run P cs st) ≠ None ∧
  CreateStereoPanner ∉ calls_since st (run P cs st).
Proof.
  intros Hpan.
  destruct (run_holds P _ _ cs st (never_calls_refl CreateStereoPanner)
              (never_calls_trans CreateStereoPanner) (panner_once_api P) Hpan)
    as [H1 H2].
  split; [done|by apply never_calls_since].
Qed.

Lemma pan_node_created_once_witness :
  stereoPannerNode (pan_at_07 reliable) ≠ None ∧
  stereoPannerNode
    (run reliable [call_setAudioMode "stereopanner"; call_connectAudioSource 1;
                   call_getStereoPannerNode (Fin 1)] (pan_at_07 reliable)) ≠ None.
Proof.
  assert (H : stereoPannerNode (pan_at_07 reliable) ≠ None)
    by (vm_compute; discriminate).
  split; [exact H|].
  exact (proj1 (pan_node_created_once reliable _ _ H)).
Defined.

(** The connections in the graph are of the three kinds the module makes. *)
Lemma well_shaped_initial : well_shaped initial_state.
Proof. intros e He. simpl in He. by apply not_elem_of_empty in He. Qed.

(** X11. In every state the interface can produce, each connection of the
    graph leads from a source to the pan node or to the output, or from the
    pan node to the output: nothing is ever connected into a source or out
    of the output, so the graph has no cycle. *)
Theorem connections_keep_their_shape (P : Platform) (st : State) :
  reachable P st →
  ∀ a b, (a, b) ∈ graph st →
    (∃ s, a = Src s ∧ (b = Panner ∨ b = Destination)) ∨
    (a = Panner ∧ b = Destination).
Proof.
  intros Hr a b Hin.
  pose proof (reachable_holds P well_shaped st (well_shaped_api P)
                well_shaped_initial Hr (a, b) Hin) as Hs.
  destruct a as [s| |], b as [s'| |]; simpl in Hs; try done.
  - left. exists s. split; [done|by left].
  - left. exists s. split; [done|by right].
  - by right.
Qed.

Lemma connections_keep_their_shape_witness :
  reachable reliable (panned_one_source reliable) ∧
  (Src 1, Panner) ∈ graph (panned_one_source reliable) ∧
  ((∃ s, Src 1 = Src s ∧ (Panner = Panner ∨ Panner = Destination)) ∨
   (Src 1 = Panner ∧ Panner = Destination)).
Proof.
  assert (Hr : reachable reliable (panned_one_source reliable))
    by (exists [call_setAudioMode "stereopanner"; call_connectAudioSource 1];
        reflexivity).
  assert (Hin : (Src 1, Panner) ∈ graph (panned_one_source reliable))
    by by_computation.
  split; [exact Hr|]. split; [exact Hin|].
  exact (connections_keep_their_shape reliable _ Hr _ _ Hin).
Defined.

Ltac solve_pan_range :=
  intros; (split; [|done]); unfold pan_in_range in *; simpl in *;
  repeat case_match; simplify_eq; simpl in *; try done;
  repeat match goal with
         | H : _ ∧ _ |- _ => destruct H
         | H : match ?x with _ => _ end |- _ => destruct x eqn:?
         end;
  simplify_eq; simpl in *; try done;
  repeat match goal with
         | |- _ ∧ _ => split
         | |- in_range (Math_fround _) => apply fround_in_range
         | |- in_range (clamp _) => apply clamp_in_range
         | |- Forall _ (_ ++ _) => apply Forall_app
         | |- Forall _ [_] => apply Forall_singleton; simpl
         | |- Forall _ [] => constructor
         end; try done;
  try (vm_compute; split; discriminate).

Lemma pan_in_range_api (P : Platform) c st :
  holds_from pan_in_range (fun _ _ => True) (api P c) st.
Proof.
  destruct c; unfold_module;
    walk (fun _ : State => I) (fun (_ _ _ : State) (_ _ : True) => I);
    solve_pan_range.
Qed.

(** Where the platform refuses NaN, the pan value stays a number. *)
Lemma pan_position_api (P : Platform) c st :
  (∀ n, P n (PanSetValue NaN) = true) →
  holds_from (fun st => is_position (getCurrentPanValue st)) (fun _ _ => True)
             (api P c) st.
Proof.
  intros Hrej.
  destruct c; unfold_module;
    walk (fun _ : State => I) (fun (_ _ _ : State) (_ _ : True) => I);
    intros; (split; [|done]); unfold getCurrentPanValue in *; simpl in *;
    repeat (case_match; simplify_eq; simpl in * ); simplify_eq; simpl in *;
    try done;
    try (vm_compute; split; discriminate);
    try (apply fround_is_position, clamp_is_position;
         let E := fresh in
         intros E;
         match goal with
         | H : _ (PanSetValue _) = false |- _ =>
             rewrite E, Hrej in H; discriminate
         end).
Qed.

(** X12. In every state the interface can produce, the pan value and every
    value scheduled for it are what the clamping lets through: NaN or a
    number between -1 and 1.  On a platform that refuses NaN for the pan
    parameter, as the Web Audio API does, the pan value is always a number
    between -1 and 1. *)
Theorem pan_stays_within_range (P : Platform) (st : State) :
  reachable P st →
  pan_in_range st ∧
  ((∀ n, P n (PanSetValue NaN) = true) → is_position (getCurrentPanValue st)).
Proof.
  intros Hr. split.
  - by apply (reachable_holds P pan_in_range st (pan_in_range_api P)).
  - intros Hrej.
    apply (reachable_holds P (fun st => is_position (getCurrentPanValue st)) st);
      [|vm_compute; split; discriminate|done].
    intros c st0. by apply pan_position_api.
Qed.

Lemma pan_stays_within_range_witness :
  reachable rejects_NaN
    (run rejects_NaN [call_setPanValue NaN None; call_setPanValue (Fin 5) None]
         initial_state) ∧
  is_position
    (getCurrentPanValue
       (run rejects_NaN [call_setPanValue NaN None; call_setPanValue (Fin 5) None]
            initial_state)).
Proof.
  assert (Hr : reachable rejects_NaN
                 (run rejects_NaN
                      [call_setPanValue NaN None; call_setPanValue (Fin 5) None]
                      initial_state))
    by (eexists; reflexivity).
  assert (Hrej : ∀ n, rejects_NaN n (PanSetValue NaN) = true)
    by (intros n; reflexivity).
  split; [exact Hr|].
  exact (proj2 (pan_stays_within_range rejects_NaN _ Hr) Hrej).
Defined.

Lemma only_adds_edges_api (P : Platform) c st :
  removes_edges c = false →
  holds_from (fun _ => True) only_adds_edges (api P c) st.
Proof.
  assert (Hr : ∀ st, only_adds_edges st st)
    by (intros ?; unfold only_adds_edges; set_solver).
  assert (Ht : ∀ a b c, only_adds_edges a b → only_adds_edges b c →
                        only_adds_edges a c)
    by (unfold only_adds_edges; set_solver).
  destruct c; try discriminate; intros _; unfold_module; walk Hr Ht;
    intros; (split; [done|]); unfold only_adds_edges; simpl;
    repeat case_match; simpl; set_solver.
Qed.

(** X13. Connections are taken away only by a mode change
    ([setAudioMode], the sound-option handler) and by
    [disconnectStereoPanner]: every other function of the interface leaves
    each existing connection in place, whether it returns or throws. *)
Theorem only_mode_changes_disconnect (P : Platform) (c : ApiCall) (st : State) :
  removes_edges c = false →
  graph st ⊆ graph (after (api P c) st).
Proof. intros Hc. by destruct (only_adds_edges_api P c st Hc I). Qed.

Lemma only_mode_changes_disconnect_witness :
  removes_edges (call_connectAudioSource 2) = false ∧
  (Src 1, Panner) ∈
    graph (after (api reliable (call_connectAudioSource 2))
                 (panned_one_source reliable)).
Proof.
  assert (Hc : removes_edges (call_connectAudioSource 2) = false)
    by reflexivity.
  assert (Hin : (Src 1, Panner) ∈ graph (panned_one_source reliable))
    by by_computation.
  split; [exact Hc|].
  exact (only_mode_changes_disconnect reliable _ (panned_one_source reliable)
           Hc _ Hin).
Defined.

(** X14. In every state the interface can produce, the tracked set holds no
    source twice, and it is empty as long as the module has no audio
    context. *)
Theorem tracked_sources_invariant (P : Platform) (st : State) :
  reachable P st →
  NoDup (connectedSources st) ∧
  (connectedSources st ≠ [] → audioContext st ≠ None).
Proof. apply reachable_State_ok. Qed.

Lemma tracked_sources_invariant_witness :
  reachable reliable (two_sources reliable) ∧
  NoDup (connectedSources (two_sources reliable)).
Proof.
  assert (Hr : reachable reliable (two_sources reliable))
    by (eexists; reflexivity).
  split; [exact Hr|].
  exact (proj1 (tracked_sources_invariant reliable _ Hr)).
Defined.

(** ** More on the mode change *)

Section ModeChange.

Variable P : Platform.

Lemma disconnectStereoPanner_removes st d :
  stereoPannerNode st ≠ None → (∀ n, P n (Disconnect Panner) = false) →
  (Panner, d) ∉ graph (disconnectStereoPanner P st).2.
Proof. intros Hp Hd. run_code P; finish. Qed.

Lemma disconnected_isolates mode st d :
  (stereoPannerNode st ≠ None ∨ ∀ d, (Panner, d) ∉ graph st) →
  (∀ n, P n (Disconnect Panner) = false) →
  (Panner, d) ∉ graph (disconnected_for P mode st).
Proof.
  intros [Hp|Hg] Hd.
  - unfold disconnected_for. rewrite disconnectAllSources_run. simpl.
    apply disconnectStereoPanner_removes; [|done].
    match goal with
    | |- context [forEach ?l _ ?x] =>
        destruct (disconnect_loop_frame P l x) as (_ & -> & _)
    end.
    done.
  - intros H%disconnected_graph. by apply (Hg d).
Qed.

Lemma reconnect_cb_direct_panner mode s st :
  through_pan mode = false →
  stereoPannerNode (reconnect_cb P mode s st).2 = stereoPannerNode st.
Proof. unfold through_pan. intros H. run_code P; finish. Qed.

Lemma handleSoundOptionChange_mode o st :
  currentAudioMode (_handleSoundOptionChange P o st).2 = o.
Proof.
  unfold _handleSoundOptionChange, try_catch, bind, reading, logger,
    console_log, modify, getCurrentAudioMode. simpl.
  match goal with
  | |- context [setAudioMode P o ?x] =>
      pose proof (setAudioMode_mode P o x) as Hs
  end.
  destruct (setAudioMode P o _) as [[[]|e] st1]; simpl in *; [|done].
  repeat match goal with
         | |- context [if ?b then _ else _] => destruct b
         end; done.
Qed.

End ModeChange.

(** X15. A change to a mode other than stereopanner takes the pan node out
    of the graph: if the pan node's [disconnect] does not throw, the pan
    node has no outgoing connection afterwards, whether [setAudioMode]
    returns or throws.  (The premise on the state holds whenever the graph
    has a connection from the pan node only if the module holds the
    node.) *)
Theorem direct_mode_isolates_pan_node (P : Platform) (mode : string)
    (st : State) :
  through_pan mode = false →
  (stereoPannerNode st ≠ None ∨ ∀ d, (Panner, d) ∉ graph st) →
  (∀ n, P n (Disconnect Panner) = false) →
  ∀ d, (Panner, d) ∉ graph (after (setAudioMode P mode) st).
Proof.
  intros Hm Hp Hd d. simpl.
  pose proof (disconnected_isolates P mode st d Hp Hd) as Hiso.
  destruct (setAudioMode_cases P mode st)
    as [(st4 & _ & _ & _ & _ & _ & Hg & _ & _ & ->)
       |(st4 & _ & _ & _ & _ & _ & Hg & ->)];
    simpl.
  - intros [H|[(s & _ & [=])|(Ht & _)]]%reconnect_loop_graph_upper.
    + by rewrite Hg in H.
    + congruence.
  - by rewrite Hg.
Qed.

Lemma direct_mode_isolates_pan_node_witness :
  (Panner, Destination) ∈ graph (panned_one_source reliable) ∧
  (Panner, Destination) ∉
    graph (after (setAudioMode reliable "default") (panned_one_source reliable)).
Proof.
  assert (Hin : (Panner, Destination) ∈ graph (panned_one_source reliable))
    by by_computation.
  assert (Hm : through_pan "default" = false) by reflexivity.
  assert (Hp : stereoPannerNode (panned_one_source reliable) ≠ None)
    by (vm_compute; discriminate).
  assert (Hd : ∀ n, reliable n (Disconnect Panner) = false)
    by (intros n; reflexivity).
  split; [exact Hin|].
  exact (direct_mode_isolates_pan_node reliable "default"
           (panned_one_source reliable) Hm (or_introl Hp) Hd Destination).
Defined.

(** X16. [setAudioMode] creates the pan node only for a source: a change to
    a mode other than stereopanner, and a change to any mode while no source
    is tracked, leaves the pan node as it was (absent if it was absent). *)
Theorem setAudioMode_creates_pan_node_lazily (P : Platform) (mode : string)
    (st : State) :
  through_pan mode = false ∨ connectedSources st = [] →
  stereoPannerNode (after (setAudioMode P mode) st) = stereoPannerNode st.
Proof.
  intros Hlazy. simpl.
  destruct (setAudioMode_cases P mode st)
    as [(st4 & _ & _ & Hp & _ & _ & _ & _ & _ & ->)
       |(st4 & _ & _ & Hp & _ & _ & _ & ->)];
    simpl; [|done].
  rewrite <- Hp. destruct Hlazy as [Hm| ->]; [|done].
  apply (forEach_inv _ (reconnect_cb_total P mode)
           (fun st' => stereoPannerNode st' = stereoPannerNode st4)); [|done].
  intros s st1 _ H. by rewrite reconnect_cb_direct_panner.
Qed.

Lemma setAudioMode_creates_pan_node_lazily_witness :
  connectedSources initial_state = [] ∧
  stereoPannerNode (after (setAudioMode reliable "stereopanner") initial_state)
  = None.
Proof.
  assert (Hs : connectedSources initial_state = []) by reflexivity.
  split; [exact Hs|].
  exact (setAudioMode_creates_pan_node_lazily reliable "stereopanner"
           initial_state (or_intror Hs)).
Defined.

(** ** The toolbox middleware *)

Lemma recognized_eqb o :
  recognized o →
  String.eqb o "default" = false → String.eqb o "stereopanner" = false →
  String.eqb o "equalpower" = false → String.eqb o "hrtf" = false → False.
Proof.
  unfold recognized. intros H H1 H2 H3 H4.
  apply String.eqb_neq in H1, H2, H3, H4. set_solver.
Qed.

Lemma handler_logs (P : Platform) o st :
  recognized o →
  holds_from (fun _ => True) (logs_only not_unknown_option)
             (_handleSoundOptionChange P o) st.
Proof.
  intros Hrec.
  unfold_module;
    walk (logs_only_refl not_unknown_option)
         (logs_only_trans not_unknown_option);
    intros; (split; [done|]);
    try (exfalso; by eapply recognized_eqb);
    unfold logs_only; simpl; repeat case_match; simpl;
    first
      [ exists []; split; [by rewrite app_nil_r|constructor]
      | eexists [_]; split;
        [ reflexivity
        | apply Forall_singleton; unfold not_unknown_option; simpl;
          discriminate ] ].
Qed.

(** X17. For one of the four options the handler knows, nothing it logs,
    nor anything [setAudioMode] logs under it, is the warning about an
    unknown sound option. *)
Theorem recognized_option_not_reported (P : Platform) (o : string)
    (st : State) :
  recognized o →
  ∃ new, log (after (_handleSoundOptionChange P o) st) = (log st ++ new)%list ∧
         ∀ e, e ∈ new → message e ≠ "Unbekannte Sound-Option:".
Proof.
  intros Hrec. destruct (handler_logs P o st Hrec I) as [_ (new & H & Hall)].
  exists new. split; [done|]. by apply Forall_forall.
Qed.

Lemma recognized_option_not_reported_witness :
  recognized "hrtf" ∧
  ∃ new,
    log (after (_handleSoundOptionChange source1_rejects_output "hrtf")
               (one_source source1_rejects_output))
    = (log (one_source source1_rejects_output) ++ new)%list ∧
    ∀ e, e ∈ new → message e ≠ "Unbekannte Sound-Option:".
Proof.
  assert (Hrec : recognized "hrtf") by by_computation.
  split; [exact Hrec|].
  exact (recognized_option_not_reported source1_rejects_output "hrtf"
           (one_source source1_rejects_output) Hrec).
Defined.

(** X18. The middleware always hands the action on to the rest of the
    chain, and returns what the chain returns: the handler cannot throw, so
    a failed audio change never blocks an action.  For the sound-option
    action the chain runs in the state the handler left, in which the
    current mode is the option of the action, whether the change worked or
    not; for every other action it runs in the unchanged state.  The tracked
    set is the same in both cases. *)
Theorem middleware_always_forwards (P : Platform) (SET_SOUND_OPTION : string)
    {A : Type} (next : Action -> M A) (action : Action) (st : State) :
  ∃ st',
    middleware P SET_SOUND_OPTION next action st = next action st' ∧
    connectedSources st' = connectedSources st ∧
    if String.eqb (type action) SET_SOUND_OPTION
    then st' = after (_handleSoundOptionChange P (soundOption action)) st ∧
         getCurrentAudioMode st' = soundOption action
    else st' = st.
Proof.
  unfold middleware, bind.
  destruct (String.eqb (type action) SET_SOUND_OPTION).
  - pose proof (handleSoundOptionChange_total P (soundOption action) st) as Ht.
    pose proof (handleSoundOptionChange_sources P (soundOption action) st) as Hs.
    pose proof (handleSoundOptionChange_mode P (soundOption action) st) as Hm.
    simpl.
    destruct (_handleSoundOptionChange P (soundOption action) st)
      as [[[]|e] st1]; simpl in *; [|discriminate].
    exists st1. done.
  - exists st. done.
Qed.

(** ** The console helpers *)

Lemma keeps_refl {B} (f : State -> B) st : keeps f st st.
Proof. done. Qed.

Lemma keeps_trans {B} (f : State -> B) a b c :
  keeps f a b → keeps f b c → keeps f a c.
Proof. unfold keeps. congruence. Qed.

Lemma setPanValue_keeps_sources (P : Platform) v w st :
  holds_from (fun _ => True) (keeps connectedSources) (setPanValue P v w) st.
Proof.
  unfold_module;
    walk (keeps_refl connectedSources) (keeps_trans connectedSources);
    intros; (split; [done|]); unfold keeps; simpl; repeat case_match; done.
Qed.

Lemma toggleMode_step (P : Platform) st :
  currentAudioMode (toggleMode P st).2 =
    (if String.eqb (currentAudioMode st) "stereopanner"
     then "default" else "stereopanner") ∧
  connectedSources (toggleMode P st).2 = connectedSources st ∧
  getCurrentPanValue (toggleMode P st).2 = getCurrentPanValue st.
Proof.
  unfold toggleMode, reading, bind, console_log, modify, getCurrentAudioMode.
  set (m := if String.eqb (currentAudioMode st) "stereopanner"
            then "default" else "stereopanner").
  pose proof (setAudioMode_mode P m st) as H1.
  pose proof (setAudioMode_sources P m st) as H2.
  pose proof (setAudioMode_pan P m st) as H3.
  destruct (setAudioMode P m st) as [[[]|e] st1]; simpl in *; done.
Qed.

(** X19. [toggleMode] leaves the module in mode default if it was in mode
    stereopanner and in mode stereopanner otherwise, also when the change
    throws; the tracked set and the pan value are kept.  Toggling twice
    gives back the mode one started from exactly when that was default or
    stereopanner: from equalpower, hrtf or any other mode the first toggle
    goes to stereopanner and the second to default. *)
Theorem toggleMode_flips (P : Platform) (st : State) :
  let st' := after (toggleMode P) st in
  getCurrentAudioMode st' =
    (if String.eqb (getCurrentAudioMode st) "stereopanner"
     then "default" else "stereopanner") ∧
  connectedSources st' = connectedSources st ∧
  getCurrentPanValue st' = getCurrentPanValue st ∧
  (getCurrentAudioMode (after (toggleMode P) st') = getCurrentAudioMode st ↔
   getCurrentAudioMode st = "default" ∨ getCurrentAudioMode st = "stereopanner").
Proof.
  simpl. unfold getCurrentAudioMode.
  destruct (toggleMode_step P st) as (H1 & H2 & H3).
  destruct (toggleMode_step P (toggleMode P st).2) as (H4 & _ & _).
  repeat split; try done.
  - rewrite H4, H1. intros H.
    destruct (String.eqb (currentAudioMode st) "stereopanner") eqn:E.
    + right. by apply String.eqb_eq.
    + left. simpl in H. done.
  - rewrite H4, H1. intros [H|H]; rewrite H; done.
Qed.

(** X20. [setPan(v)] leaves the module in mode stereopanner with the
    tracked set unchanged, whether it returns or throws.  When it returns,
    the pan value is [v] clamped once, in single precision, although the
    value is clamped both by [setPan] and by [setPanValue].  When the mode
    change throws, [setPan] throws the same exception and the pan value is
    not touched. *)
Theorem setPan_positions (P : Platform) (Number_toString : jsnum -> string)
    (value : jsnum) (st : State) :
  let st' := after (setPan P Number_toString value) st in
  getCurrentAudioMode st' = "stereopanner" ∧
  connectedSources st' = connectedSources st ∧
  (outcome (setPan P Number_toString value) st = Ok tt →
   getCurrentPanValue st' = Math_fround (clamp value)) ∧
  (∀ e, outcome (setAudioMode P "stereopanner") st = Throw e →
        outcome (setPan P Number_toString value) st = Throw e ∧
        getCurrentPanValue st' = getCurrentPanValue st).
Proof.
  simpl. unfold setPan, getCurrentAudioMode. cbv zeta.
  unfold bind, console_log, logger, modify.
  pose proof (setAudioMode_mode P "stereopanner" st) as H1.
  pose proof (setAudioMode_sources P "stereopanner" st) as H2.
  pose proof (setAudioMode_pan P "stereopanner" st) as H3.
  destruct (setAudioMode P "stereopanner" st) as [[[]|e] st1]; simpl in *.
  - pose proof (respects_setPanValue P _ steps_ok_keeps_mode (clamp value)
                  None st1) as H4.
    pose proof (setPanValue_keeps_sources P (clamp value) None st1 I)
      as [_ H5].
    pose proof (setPanValue_immediate P (clamp value) st1) as H6.
    unfold keeps in *.
    destruct (setPanValue P (clamp value) None st1) as [[[]|e] st2];
      simpl in *.
    + split; [congruence|]. split; [congruence|]. split; [|done].
      intros _. unfold getCurrentPanValue in *. simpl.
      rewrite H6 by done. by rewrite clamp_idempotent.
    + split; [congruence|]. split; [congruence|]. split; [done|]. done.
  - split; [done|]. split; [done|]. split; [done|].
    intros e' [= <-]. done.
Qed.

(** ** The earlier variant of the module *)

(** X21. The earlier [connectAudioThroughStereoPanner] and the current one
    make the same platform calls, return or throw alike and leave the same
    context, pan node, graph and log; the one difference is the tracked set,
    which the earlier variant never writes and to which the current one adds
    the source when, and only when, it returns. *)
Theorem earlier_variant_differs_in_tracking (P : Platform) (s : Source)
    (v : jsnum) (st : State) :
  let old := Legacy.connectAudioThroughStereoPanner P s v st in
  let new := connectAudioThroughStereoPanner P s v st in
  old.1 = new.1 ∧
  old.2 = set_connectedSources (connectedSources st) new.2 ∧
  connectedSources new.2 =
    match new.1 with
    | Ok _ => Set_add s (connectedSources st)
    | Throw _ => connectedSources st
    end.
Proof.
  simpl. unfold Legacy.connectAudioThroughStereoPanner.
  run_code P; repeat split; finish.
Qed.

(** ** The selector *)

(** X22. [getSoundOption] never returns the empty string: it is the stored
    option when that is a non-empty string, and ['default'] when the toolbox
    state is missing, the option is missing or the option is empty. *)
Theorem getSoundOption_falls_back (state : IReduxState) :
  let stored :=
    match features_toolbox state with
    | Some t => toolbox_soundOption t
    | None => None
    end in
  (∀ o, stored = Some o → o ≠ "" → getSoundOption state = o) ∧
  (stored = None ∨ stored = Some "" → getSoundOption state = "default") ∧
  (getSoundOption state = "" → False).
Proof.
  unfold getSoundOption, or_default. simpl.
  destruct (match features_toolbox state with
            | Some t => toolbox_soundOption t
            | None => None
            end) as [o|].
  - destruct (String.eqb o "") eqn:E.
    + apply String.eqb_eq in E. subst. repeat split; try done.
      intros ? [= <-]. done.
    + apply String.eqb_neq in E. repeat split; try done.
      * by intros ? [= <-].
      * intros [|[= ->]]; done.
  - repeat split; done.
Qed.
